(** * Hybrid lyric / audio-feature song similarity: a shallow embedding

    The development follows [sim_preprocess.py] (the batch builder of the
    inverted index, the IDF table, the song norms and the audio-feature
    tables) and [app/irsystem/sim.py] (the retrieval of the query's lyrics
    and audio features, the two cosine scorers, the weighted fusion and
    the ranking loop of [main]).

    Numbers.  Python and numpy floats are idealised as exact reals: rounding
    and overflow are left out, the real [0] stands for [+0.0].  What is kept
    is numpy's treatment of a division by zero, which does not raise but
    returns [nan] or an infinity; the type [npfloat] has these values and
    their arithmetic.  Python [int]s are [Z]; lengths and the number of
    documents are [nat].  Memory is not bounded: an array that numpy
    accepts is allocated.

    Dictionaries are [gmap]s; a loop over a dictionary is a left fold over
    [map_to_list].  Exceptions are the values [Raise e] of the type [res].

    What the two files take from elsewhere is a parameter of the
    definitions that use it: [match] and [strip_name] of
    [app.irsystem.utils], the stop word set, the Unicode-aware string
    methods, the Spotify and Genius clients and the fitted scaler. *)

From Stdlib Require Import Reals Lra Lia ZArith Psatz Ascii.
From Stdlib Require OrderedTypeEx.
From stdpp Require Import gmap strings list fin_maps sorting.

#[global] Instance R_eq_dec : EqDecision R := Req_dec_T.
#[global] Instance Rlt_decision (x y : R) : Decision (x < y)%R := Rlt_dec x y.
#[global] Instance Rle_decision (x y : R) : Decision (x <= y)%R := Rle_dec x y.

(** ** numpy floating-point values *)

Inductive npfloat : Type :=
  | Fin (r : R)
  | Inf (negative : bool)
  | NaN.

#[global] Instance npfloat_eq_dec : EqDecision npfloat.
Proof. solve_decision. Defined.

(** [x / y] on two finite values: a zero divisor gives [nan] for [0/0] and a
    signed infinity otherwise (numpy warns and carries on). *)
Definition fdiv (x y : R) : npfloat :=
  if decide (y = 0%R) then
    if decide (x = 0%R) then NaN else Inf (bool_decide (x < 0)%R)
  else Fin (x / y)%R.

Definition fmul (a b : npfloat) : npfloat :=
  match a, b with
  | NaN, _ | _, NaN => NaN
  | Fin x, Fin y => Fin (x * y)%R
  | Inf s, Fin y | Fin y, Inf s =>
      if decide (y = 0%R) then NaN else Inf (xorb s (bool_decide (y < 0)%R))
  | Inf s, Inf t => Inf (xorb s t)
  end.

Definition fadd (a b : npfloat) : npfloat :=
  match a, b with
  | NaN, _ | _, NaN => NaN
  | Fin x, Fin y => Fin (x + y)%R
  | Inf s, Fin _ | Fin _, Inf s => Inf s
  | Inf s, Inf t => if decide (s = t) then Inf s else NaN
  end.

Definition fneg (a : npfloat) : npfloat :=
  match a with
  | Fin x => Fin (- x)%R
  | Inf s => Inf (negb s)
  | NaN => NaN
  end.

(** [a < b] and [a == b]; every comparison with [nan] is false. *)
Definition flt (a b : npfloat) : bool :=
  match a, b with
  | NaN, _ | _, NaN => false
  | Fin x, Fin y => bool_decide (x < y)%R
  | Inf s, Fin _ => s
  | Fin _, Inf t => negb t
  | Inf s, Inf t => s && negb t
  end.

Definition feq (a b : npfloat) : bool :=
  match a, b with
  | Fin x, Fin y => bool_decide (x = y)
  | Inf s, Inf t => bool_decide (s = t)
  | _, _ => false
  end.

(** The sum of a vector. *)
Definition Rsum (l : list R) : R := foldr Rplus 0%R l.

(** [np.log2] on a positive argument. *)
Definition log2 (x : R) : R := (ln x / ln 2)%R.

(** ** Exceptions *)

Inductive exn : Type := KeyError | ValueError | IndexError | ZeroDivisionError.

Inductive res (A : Type) : Type :=
  | Ok (a : A)
  | Raise (e : exn).
Arguments Ok {A} a.
Arguments Raise {A} e.

#[global] Instance res_bind : MBind res := fun A B (k : A → res B) (c : res A) =>
  match c with
  | Ok a => k a
  | Raise e => Raise e
  end.

(** [d[k]] on a plain dictionary. *)
Definition getitem `{Countable K} {V} (d : gmap K V) (k : K) : res V :=
  match d !! k with
  | Some v => Ok v
  | None => Raise KeyError
  end.

(** [for x in l: acc = step acc x], where the body may raise. *)
Definition for_each {A B} (step : B → A → res B) (l : list A) (init : B) : res B :=
  foldl (fun acc x => b ← acc; step b x) (Ok init) l.

(** ** sim_preprocess.py *)

Definition AF_COLS : list string :=
  ["acousticness"; "danceability"; "energy"; "instrumentalness"; "key";
   "liveness"; "loudness"; "mode"; "speechiness"; "tempo"; "time_signature";
   "valence"].

(** A posting list: [(uri, term frequency)] pairs. *)
Abbreviation postings := (list (string * Z)).

(** [inv_idx] is the [defaultdict(list)] that [make_inv_idx] creates and
    [preprocess] pickles: a missing token reads as []. *)
Definition inv_get (inv_idx : gmap string postings) (word : string) : postings :=
  default [] (inv_idx !! word).

Section make_inv_idx.
(** The module-level stop word set (loaded from nltk) and [str.isalpha]. *)
Variable stopwords : gset string.
Variable isalpha : string → bool.

Definition index_state : Type :=
  gmap string postings * gmap string nat * nat.

(** The body shared by both branches: append the posting, number the
    word when it is new. *)
Definition add_posting (st : index_state) (uri word : string) (val : Z)
    : index_state :=
  let '(inv_idx, word_to_ix, word_ix) := st in
  let inv_idx := <[word := inv_get inv_idx word ++ [(uri, val)]]> inv_idx in
  match word_to_ix !! word with
  | None => (inv_idx, <[word := word_ix]> word_to_ix, S word_ix)
  | Some _ => (inv_idx, word_to_ix, word_ix)
  end.

Definition make_inv_idx_state (lyrics_dict : gmap string (gmap string Z))
    (remove_stopwords : bool) : index_state :=
  foldl (fun st '(uri, cnt) =>
           foldl (fun st '(word, val) =>
                    if remove_stopwords then
                      if bool_decide (word ∉ stopwords) && isalpha word
                      then add_posting st uri word val
                      else st
                    else add_posting st uri word val)
                 st (map_to_list cnt))
        (∅, ∅, 0%nat) (map_to_list lyrics_dict).

Definition make_inv_idx (lyrics_dict : gmap string (gmap string Z))
    (remove_stopwords : bool) : gmap string postings * gmap string nat :=
  let '(inv_idx, word_to_ix, _) := make_inv_idx_state lyrics_dict remove_stopwords in
  (inv_idx, word_to_ix).
End make_inv_idx.

(** [df/n_docs] is Python's true division of two ints: it raises on
    [n_docs = 0].  It is evaluated only when [df >= min_df] holds. *)
Definition compute_idf (inv_idx : gmap string postings) (n_docs : nat)
    (min_df : Z) (max_df_ratio : R) : res (gmap string R) :=
  for_each (fun idf_dict '(word, posting) =>
              let df := length posting in
              if bool_decide (min_df ≤ Z.of_nat df)%Z then
                if decide (n_docs = 0%nat) then Raise ZeroDivisionError
                else if bool_decide (INR df / INR n_docs <= max_df_ratio)%R
                then Ok (<[word := log2 (INR n_docs / INR (1 + df))]> idf_dict)
                else Ok idf_dict
              else Ok idf_dict)
           (map_to_list inv_idx) ∅.

(** The running sums of [compute_song_norms], before the square root. *)
Definition song_norms_sq (inv_idx : gmap string postings) (idf_dict : gmap string R)
    : gmap string R :=
  foldl (fun acc '(word, posting) =>
           foldl (fun acc '(uri, tf) =>
                    <[uri := (default 0 (acc !! uri)
                              + Rsqr (IZR tf * default 0 (idf_dict !! word)))%R]> acc)
                 acc posting)
        ∅ (map_to_list inv_idx).

Definition compute_song_norms (inv_idx : gmap string postings)
    (idf_dict : gmap string R) : gmap string R :=
  sqrt <$> song_norms_sq inv_idx idf_dict.

(** [np.linalg.norm] of a vector. *)
Definition linalg_norm (v : list R) : R :=
  sqrt (Rsum (Rsqr <$> v)).

(** The norms that [get_af_matrix_data] stores with the matrix:
    [np.linalg.norm(af_matrix, axis = 1)]. *)
Definition row_norms (af_matrix : list (list R)) : list R :=
  linalg_norm <$> af_matrix.

(** ** app/irsystem/sim.py: the lyrical scorer *)

(** First loop of [lyrics_sim]: the query's tf-idf dictionary and the sum
    of the squares of its entries. *)
Definition query_vector (query_lyrics_cnt : gmap string Z) (idf_dict : gmap string R)
    : gmap string R * R :=
  foldl (fun '(query_tfidf, query_norm) '(t, cnt) =>
           match idf_dict !! t with
           | Some idf =>
               let tfidf := (IZR cnt * idf)%R in
               (<[t := tfidf]> query_tfidf, (query_norm + Rsqr tfidf)%R)
           | None => (query_tfidf, query_norm)
           end)
        (∅, 0%R) (map_to_list query_lyrics_cnt).

(** Second loop: the dot products, accumulated posting by posting. *)
Definition accumulate_scores (inv_idx : gmap string postings)
    (idf_dict query_tfidf : gmap string R) : res (gmap string R) :=
  for_each (fun doc_scores '(t, q) =>
              for_each (fun doc_scores '(doc_id, tf) =>
                          idf ← getitem idf_dict t;
                          Ok (<[doc_id := (default 0 (doc_scores !! doc_id)
                                           + IZR tf * idf * q)%R]> doc_scores))
                       (inv_get inv_idx t) doc_scores)
           (map_to_list query_tfidf) ∅.

(** Third loop: [doc_scores[doc_id] /= song_norms_dict[doc_id] * query_norm]. *)
Definition normalize_scores (song_norms_dict : gmap string R) (query_norm : R)
    (doc_scores : gmap string R) : res (gmap string npfloat) :=
  for_each (fun out '(doc_id, score) =>
              norm ← getitem song_norms_dict doc_id;
              Ok (<[doc_id := fdiv score (norm * query_norm)]> out))
           (map_to_list doc_scores) ∅.

Definition lyrics_sim (query_lyrics_cnt : gmap string Z)
    (inv_idx : gmap string postings) (idf_dict song_norms_dict : gmap string R)
    : res (gmap string npfloat) :=
  let '(query_tfidf, query_norm) := query_vector query_lyrics_cnt idf_dict in
  let query_norm := sqrt query_norm in
  doc_scores ← accumulate_scores inv_idx idf_dict query_tfidf;
  normalize_scores song_norms_dict query_norm doc_scores.

(** ** The audio scorer *)

(** A fitted [StandardScaler], seen through its [transform] method. *)
Record StandardScaler : Type := { transform : list R → list R }.

(** The dictionary returned by [get_audio_features]: the [AF_COLS] entries
    and the three string entries. *)
Record audio_features : Type := {
  af_values : gmap string R;
  af_artist_name : string;
  af_track_name : string;
  af_uri : string
}.

(** Dot product of a matrix row with the query vector; numpy refuses
    operands whose shapes do not agree. *)
Definition row_dot (row q : list R) : res R :=
  if decide (length row = length q)
  then Ok (Rsum (zip_with Rmult row q))
  else Raise ValueError.

Fixpoint matrix_dot (af_matrix : list (list R)) (q : list R) : res (list R) :=
  match af_matrix with
  | [] => Ok []
  | row :: rest => d ← row_dot row q; ds ← matrix_dot rest q; Ok (d :: ds)
  end.

(** Elementwise [a / b] of two vectors, with numpy's broadcasting of a
    vector of length one. *)
Definition np_divide (a b : list R) : res (list npfloat) :=
  if decide (length a = length b) then Ok (zip_with fdiv a b)
  else match a, b with
       | _, [y] => Ok ((fun x => fdiv x y) <$> a)
       | [x], _ => Ok (fdiv x <$> b)
       | _, _ => Raise ValueError
       end.

(** [scores[i]], negative indices counting from the end. *)
Definition scores_getitem (scores : list npfloat) (i : Z) : res npfloat :=
  let n := Z.of_nat (length scores) in
  let j := if bool_decide (i < 0)%Z then (i + n)%Z else i in
  if bool_decide (0 ≤ j)%Z then
    match scores !! Z.to_nat j with
    | Some s => Ok s
    | None => Raise IndexError
    end
  else Raise IndexError.

Definition af_sim (query_af : audio_features) (af_matrix : list (list R))
    (af_song_norms : list R) (ix_to_uri : gmap Z string) (scaler : StandardScaler)
    (indices : option (list Z)) : res (gmap string npfloat) :=
  raw ← for_each (fun acc x => v ← getitem (af_values query_af) x; Ok (acc ++ [v]))
                 AF_COLS [];
  let query_vec := transform scaler raw in
  let query_norm := linalg_norm query_vec in
  dots ← matrix_dot af_matrix query_vec;
  scores ← np_divide dots ((fun n => query_norm * n)%R <$> af_song_norms);
  let ixs := match indices with
             | Some (i :: l) => i :: l
             | _ => Z.of_nat <$> seq 0 (length scores)
             end in
  for_each (fun scores_dict i =>
              uri ← getitem ix_to_uri i;
              s ← scores_getitem scores i;
              Ok (<[uri := s]> scores_dict))
           ixs ∅.

(** ** Fusion and ranking: [main] *)

(** A row of the dataset, as stored in [vars_dict['uri_to_song']]. *)
Record song : Type := {
  track_id : string;
  artist_name : string;
  track_name : string
}.

(** An item of a Spotify search result, also the answer of [sp.track]. *)
Record track : Type := {
  tr_artists : list string;
  tr_name : string;
  tr_uri : string
}.

(** The first element of [sp.audio_features(uri)]. *)
Record features_data : Type := {
  fd_values : gmap string R;
  fd_uri : string
}.

(** The pickled bundle. *)
Record vars : Type := {
  uri_to_song : gmap string song;
  inv_idx : gmap string postings;
  idf_dict : gmap string R;
  song_norms_dict : gmap string R;
  ix_to_uri : gmap Z string;
  af_matrix : list (list R);
  af_song_norms : list R;
  scaler : StandardScaler
}.

(** What a call of [main] that does not raise leaves behind: either a
    message was printed and [None] returned, or the triple is returned. *)
Inductive outcome : Type :=
  | NotFound (printed : string)
  | Ranking (query_af : audio_features) (output : list (npfloat * song))
            (sorted_lyric_sims : list npfloat).

(** [s.split(sep)] for a one-character separator. *)
Fixpoint split_on (sep : ascii) (s : string) : list string :=
  match s with
  | EmptyString => [EmptyString]
  | String c s' =>
      if decide (c = sep) then EmptyString :: split_on sep s'
      else match split_on sep s' with
           | [] => [String c EmptyString]
           | w :: ws => String c w :: ws
           end
  end.

(** The weighted average of the two score maps, over the keys of the
    lyrical one. *)
Definition fuse (lyrics_weight : R) (af_sim_scores lyric_sim_scores : gmap string npfloat)
    : res (gmap string npfloat) :=
  let af_weight := (1 - lyrics_weight)%R in
  for_each (fun averaged '(k, lyr) =>
              af ← getitem af_sim_scores k;
              Ok (<[k := fadd (fmul af (Fin af_weight))
                              (fmul lyr (Fin lyrics_weight))]> averaged))
           (map_to_list lyric_sim_scores) ∅.

(** [sorted(items, key = lambda x: (-x[1], x[0]))].  Tuples compare on the
    first component where they differ.  [sorted] is stable; on keys that
    are totally ordered every stable sort returns the same list, here that
    of a stable insertion sort.  A [nan] score compares false with every
    key; the order is then not total and the list that Python returns
    depends on the runs and merges of its own algorithm: with a [nan]
    among the scores the model has the items of Python's list (a
    permutation of them), not always their order. *)
Definition sort_key (x : string * npfloat) : npfloat * string := (fneg x.2, x.1).

Definition key_lt (a b : npfloat * string) : bool :=
  if feq a.1 b.1 then String.ltb a.2 b.2 else flt a.1 b.1.

Fixpoint insert_sorted (x : string * npfloat) (l : list (string * npfloat))
    : list (string * npfloat) :=
  match l with
  | [] => [x]
  | y :: l' =>
      if key_lt (sort_key y) (sort_key x) then y :: insert_sorted x l' else x :: l
  end.

Definition sorted (items : list (string * npfloat)) : list (string * npfloat) :=
  foldr insert_sorted [] items.

Section main.
(** [match] and [strip_name] of [app.irsystem.utils], and the two
    Unicode-aware string methods. *)
Variable match_ : string → string → bool.
Variable strip_name : string → string.
Variable str_strip : string → string.
Variable str_lower : string → string.
(** The Spotify client: [sp.search(q)['tracks']['items']],
    [sp.audio_features(uri)[0]] ([None] when it is falsy), [sp.track]. *)
Variable sp_search : string → list track.
Variable sp_audio_features : string → option features_data.
Variable sp_track : string → track.
(** [retrieve_lyrics] goes through the Genius client, a regular
    expression and the Treebank tokenizer; it is taken by its result. *)
Variable retrieve_lyrics : string → string → option (gmap string Z).

Definition get_song_uri (query_artist query_name : string) : option string :=
  let search_results := sp_search (query_artist +:+ " " +:+ query_name) in
  tr_uri <$> List.find (fun d =>
                          let artists := String.concat "," (tr_artists d) in
                          match_ query_artist artists && match_ query_name (tr_name d))
                       search_results.

Definition get_audio_features (uri : string) : res (option audio_features) :=
  match sp_audio_features uri with
  | None => Ok None
  | Some data =>
      af ← for_each (fun af k => v ← getitem (fd_values data) k; Ok (<[k := v]> af))
                    AF_COLS ∅;
      let track_info := sp_track uri in
      Ok (Some {| af_values := af;
                  af_artist_name := String.concat ", " (tr_artists track_info);
                  af_track_name := tr_name track_info;
                  af_uri := fd_uri data |})
  end.

(** The test that lets a ranked candidate into [output]. *)
Definition keeps (query_uri query_artist query_name uri : string) (song_data : song)
    : bool :=
  bool_decide (uri ≠ query_uri)
  && negb (match_ (artist_name song_data) query_artist)
  && negb (match_ (track_name song_data) query_name).

(** The [while] loop; [rest] is [ranked[i:]], so that [i < len(ranked)]
    reads as [rest] not being empty. *)
Fixpoint rank_loop (uri_to_song : gmap string song)
    (query_uri query_artist query_name : string) (n_results : Z)
    (rest : list (string * npfloat)) (i : Z) (output : list (npfloat * song))
    : res (list (npfloat * song)) :=
  match rest with
  | [] => Ok output
  | (uri, score) :: rest' =>
      if bool_decide (i < n_results)%Z then
        song_data ← getitem uri_to_song uri;
        let output :=
          if keeps query_uri query_artist query_name uri song_data
          then output ++ [(score, song_data)] else output in
        rank_loop uri_to_song query_uri query_artist query_name n_results
                  rest' (i + 1)%Z output
      else Ok output
  end.

(** Lines 272-281: sort, then scan.  [map_to_list] stands for the order
    in which the dictionary hands out its items (its insertion order, in
    Python); without a [nan] score the sorted list does not depend on that
    order. *)
Definition rank (vars_dict : vars) (query_uri query_artist query_name : string)
    (n_results : Z) (averaged_scores : gmap string npfloat)
    : res (list (npfloat * song)) :=
  let ranked := sorted (map_to_list averaged_scores) in
  rank_loop (uri_to_song vars_dict) query_uri query_artist query_name n_results
            ranked 0%Z [].

Definition vars_af_sim (vars_dict : vars) (query_af : audio_features)
    : res (gmap string npfloat) :=
  af_sim query_af (af_matrix vars_dict) (af_song_norms vars_dict)
         (ix_to_uri vars_dict) (scaler vars_dict) None.

(** Lines 243-289, once the query is resolved.  [np.zeros(n_results)] is
    taken within numpy's limit on the size of an array: it stands for the
    array of [n_results] zeros for every [n_results >= 0]; numpy itself
    refuses, with a [ValueError], an array whose size in bytes does not
    fit in a signed 64-bit integer.  The statements about a ranking
    returned at [lyrics_weight = 0] carry the bound [n_results < 2^60]. *)
Definition main_scores (query_af : audio_features)
    (query_uri query_artist query_name : string)
    (lyrics_weight : R) (n_results : Z) (vars_dict : vars) : res outcome :=
  if decide (lyrics_weight = 0%R) then
    sorted_lyric_sims ←
      (if bool_decide (n_results < 0)%Z then Raise ValueError
       else Ok (replicate (Z.to_nat n_results) (Fin 0)));
    af_sim_scores ← vars_af_sim vars_dict query_af;
    output ← rank vars_dict query_uri query_artist query_name n_results af_sim_scores;
    Ok (Ranking query_af output sorted_lyric_sims)
  else
    match retrieve_lyrics query_artist query_name with
    | None => Ok (NotFound "Song lyrics not found on Genius.")
    | Some query_lyrics_cnt =>
        if decide (query_lyrics_cnt = ∅)
        then Ok (NotFound "Song lyrics not found on Genius.")
        else
          lyric_sim_scores ← lyrics_sim query_lyrics_cnt (inv_idx vars_dict)
                               (idf_dict vars_dict) (song_norms_dict vars_dict);
          af_sim_scores ← vars_af_sim vars_dict query_af;
          averaged_scores ← fuse lyrics_weight af_sim_scores lyric_sim_scores;
          output ← rank vars_dict query_uri query_artist query_name n_results
                     averaged_scores;
          sorted_lyric_sims ←
            for_each (fun acc '(_, d) =>
                        s ← getitem lyric_sim_scores (track_id d); Ok (acc ++ [s]))
                     output [];
          Ok (Ranking query_af output sorted_lyric_sims)
    end.

(** Lines 239-241: the names used for filtering and for the lyrics
    lookup; [names] is [None] when the query was a URI. *)
Definition query_names (names : option (string * string)) (query_af : audio_features)
    : string * string :=
  match names with
  | Some names => names
  | None =>
      (str_lower (str_strip (List.hd "" (split_on ","%char (af_artist_name query_af)))),
       str_lower (strip_name (af_track_name query_af)))
  end.

(** Lines 224-232: [Ok None] stands for the early [return] after
    "Song not found on Spotify". *)
Definition resolve_query (query : string) (is_uri : bool)
    : res (option (string * option (string * string))) :=
  if negb is_uri then
    match (fun x => str_lower (str_strip x)) <$> split_on "|"%char query with
    | [query_artist; query_name] =>
        let query_name := strip_name query_name in
        match get_song_uri query_artist query_name with
        | None => Ok None
        | Some query_uri =>
            if decide (query_uri = "") then Ok None
            else Ok (Some (query_uri, Some (query_artist, query_name)))
        end
    | _ => Raise ValueError
    end
  else Ok (Some (query, None)).

Definition main (query : string) (lyrics_weight : R) (n_results : Z)
    (vars_dict : vars) (is_uri : bool) : res outcome :=
  resolved ← resolve_query query is_uri;
  match resolved with
  | None => Ok (NotFound "Song not found on Spotify")
  | Some (query_uri, names) =>
      query_af ← get_audio_features query_uri;
      match query_af with
      | None => Ok (NotFound "Song audio features not found on Spotify")
      | Some query_af =>
          let '(query_artist, query_name) := query_names names query_af in
          main_scores query_af query_uri query_artist query_name
                      lyrics_weight n_results vars_dict
      end
  end.
End main.

(** ** Definitions used in the statements *)

(** *** Ranking and fusion *)

(** What one ranked item contributes to [output]. *)
Definition entry (match_ : string → string → bool) (uri_to_song : gmap string song)
    (query_uri query_artist query_name : string) (x : string * npfloat)
    : option (npfloat * song) :=
  song_data ← uri_to_song !! x.1;
  if keeps match_ query_uri query_artist query_name x.1 song_data
  then Some (x.2, song_data) else None.

(** The fused score of one song. *)
Definition fused (lyrics_weight : R) (af lyr : npfloat) : npfloat :=
  fadd (fmul af (Fin (1 - lyrics_weight))) (fmul lyr (Fin lyrics_weight)).

(** [x] comes before [y]: a higher score, or the same score and a smaller
    song id. *)
Definition ranks_before (x y : string * npfloat) : Prop :=
  flt y.2 x.2 = true ∨ (feq x.2 y.2 = true ∧ String.ltb x.1 y.1 = true).

(** *** The IDF table and the index *)

(** The entry that [compute_idf] stores for a token, if any. *)
Definition idf_entry (n_docs : nat) (min_df : Z) (max_df_ratio : R)
    (posting : postings) : option R :=
  let df := length posting in
  if bool_decide (min_df ≤ Z.of_nat df)%Z
     && bool_decide (INR df / INR n_docs <= max_df_ratio)%R
  then Some (log2 (INR n_docs / INR (1 + df)))
  else None.

(** The invariant of the data model: a song occurs at most once in a
    posting list. *)
Definition well_formed_index (inv_idx : gmap string postings) : Prop :=
  ∀ word posting, inv_idx !! word = Some posting → NoDup posting.*1.

(** *** Accumulated sums *)

(** The step [acc[k] = acc.get(k, 0) + x]. *)
Definition add_to (acc : gmap string R) (p : string * R) : gmap string R :=
  <[p.1 := (default 0 (acc !! p.1) + p.2)%R]> acc.

(** The sum of the contributions made under the key [d]. *)
Definition sum_for (d : string) (c : list (string * R)) : R :=
  Rsum ((filter (fun p => p.1 = d) c).*2).

(** The contributions of the two accumulating loops, in the order in which
    the loops make them. *)
Definition norm_contribs (inv_idx : gmap string postings) (idf_dict : gmap string R)
    : list (string * R) :=
  map_to_list inv_idx ≫= fun '(word, posting) =>
    (fun '(uri, tf) => (uri, Rsqr (IZR tf * default 0 (idf_dict !! word))%R))
      <$> posting.

Definition dot_contribs (inv_idx : gmap string postings) (idf_dict : gmap string R)
    (query_items : list (string * R)) : list (string * R) :=
  query_items ≫= fun '(t, q) =>
    (fun '(doc_id, tf) => (doc_id, (IZR tf * default 0 (idf_dict !! t) * q)%R))
      <$> inv_get inv_idx t.

(** The entries of [query_tfidf], in the order of the query's tokens. *)
Definition query_items (query_lyrics_cnt : gmap string Z) (idf_dict : gmap string R)
    : list (string * R) :=
  omap (fun '(t, cnt) => idf ← idf_dict !! t; Some (t, (IZR cnt * idf)%R))
       (map_to_list query_lyrics_cnt).

(** The sum of squares under the square root of [query_norm]. *)
Definition query_norm_sq (query_lyrics_cnt : gmap string Z) (idf_dict : gmap string R)
    : R :=
  Rsum (Rsqr <$> (query_items query_lyrics_cnt idf_dict).*2).

(** A song shares an IDF-eligible token with the query. *)
Definition shares_token (query_lyrics_cnt : gmap string Z)
    (inv_idx : gmap string postings) (idf_dict : gmap string R) (d : string) : Prop :=
  ∃ t cnt idf tf,
    query_lyrics_cnt !! t = Some cnt ∧ idf_dict !! t = Some idf
    ∧ (d, tf) ∈ inv_get inv_idx t.

(** The dot product accumulated for a song. *)
Definition dot_for (query_lyrics_cnt : gmap string Z)
    (inv_idx : gmap string postings) (idf_dict : gmap string R) (d : string) : R :=
  sum_for d (dot_contribs inv_idx idf_dict (query_items query_lyrics_cnt idf_dict)).

(** The numerator in the words of the specification: the sum, over the
    query tokens that are in the IDF table, of the products
    [(song_tf * idf) * (query_count * idf)] for the song's postings. *)
Definition shared_dot (query_lyrics_cnt : gmap string Z)
    (inv_idx : gmap string postings) (idf_dict : gmap string R) (d : string) : R :=
  Rsum ((fun '(t, cnt) =>
           match idf_dict !! t with
           | Some idf =>
               Rsum ((fun x => (IZR x.2 * idf) * (IZR cnt * idf))%R
                       <$> filter (fun x => x.1 = d) (inv_get inv_idx t))
           | None => 0%R
           end) <$> map_to_list query_lyrics_cnt).

(** The weight of token [t] in song [d]: [tf * idf], zero when the song
    has no posting for the token. *)
Definition doc_weight (inv_idx : gmap string postings) (idf_dict : gmap string R)
    (d t : string) : R :=
  Rsum ((fun x => IZR x.2 * default 0 (idf_dict !! t))%R
          <$> filter (fun x => x.1 = d) (inv_get inv_idx t)).

(** A quotient [dot / (norm * query_norm)] under the Cauchy-Schwarz bound:
    [nan] when a norm is zero, a number of [-1, 1] otherwise. *)
Definition cosine_value (v : npfloat) (norm query_norm : R) : Prop :=
  ((norm * query_norm)%R = 0%R ∧ v = NaN)
  ∨ ((norm * query_norm)%R ≠ 0%R ∧ ∃ r, v = Fin r ∧ (-1 <= r <= 1)%R).

(** *** The postings made by [make_inv_idx] *)

Section indexed_items.
Variable stopwords : gset string.
Variable isalpha : string → bool.

(** Whether [make_inv_idx] indexes a word. *)
Definition indexed (remove_stopwords : bool) (word : string) : bool :=
  if remove_stopwords then bool_decide (word ∉ stopwords) && isalpha word else true.

(** The postings in the order in which the two loops append them. *)
Definition indexed_items (lyrics_dict : gmap string (gmap string Z))
    (remove_stopwords : bool) : list (string * string * Z) :=
  map_to_list lyrics_dict ≫= fun '(uri, cnt) =>
    omap (fun '(word, val) =>
            if indexed remove_stopwords word then Some (uri, word, val) else None)
         (map_to_list cnt).
End indexed_items.

(** The postings of one word among them. *)
Definition select_word (word : string) (items : list (string * string * Z)) : postings :=
  omap (fun '(uri, word', val) =>
          if decide (word' = word) then Some (uri, val) else None) items.

(** ** More of the two files *)

(** *** [get_af_matrix_data] and [preprocess] *)

(** A row of the data frame: the record kept in [uri_to_song], the value
    of the column [uri_colname] and the values of the [AF_COLS] columns. *)
Record df_row : Type := {
  row_song : song;
  row_uri : string;
  row_af : list R
}.

(** [(i, row[uri_colname])] for [i, row] in [df.iterrows()], over a frame
    with the default index 0, 1, ... (as after [reset_index]). *)
Definition ix_items (df : list df_row) : list (Z * string) :=
  imap (fun i row => (Z.of_nat i, row_uri row)) df.

(** [fit] stands for [StandardScaler().fit] on a matrix with at least one
    row; [fit_transform] is [fit] followed by [transform] on every row.
    On a frame without rows [fit_transform] refuses the empty matrix with a
    [ValueError]; the two index tables have been built by then. *)
Definition get_af_matrix_data (fit : list (list R) → StandardScaler) (df : list df_row)
    : res (gmap Z string * gmap string Z * list (list R) * list R * StandardScaler) :=
  let af_ix_to_uri := foldl (fun m '(i, uri) => <[i := uri]> m) ∅ (ix_items df) in
  let af_uri_to_ix := foldl (fun m '(i, uri) => <[uri := i]> m) ∅ (ix_items df) in
  if decide (length df = 0%nat) then Raise ValueError
  else
    let scaler := fit (row_af <$> df) in
    let af_matrix := transform scaler <$> (row_af <$> df) in
    let af_song_norms := row_norms af_matrix in
    Ok (af_ix_to_uri, af_uri_to_ix, af_matrix, af_song_norms, scaler).

(** [preprocess] between the loading of the two files and the optional
    pickling: [df] is the frame read from the CSV file, [lyrics_dict] the
    unpickled lyrics.  [compute_idf] is called without thresholds, hence
    with its defaults [min_df = 1] and [max_df_ratio = 1]. *)
Definition preprocess (stopwords : gset string) (isalpha : string → bool)
    (fit : list (list R) → StandardScaler)
    (df : list df_row) (lyrics_dict : gmap string (gmap string Z))
    (remove_stopwords : bool)
    : res (vars * gmap string nat * gmap string Z) :=
  let n_docs := size lyrics_dict in
  let df := filter (fun row => is_Some (lyrics_dict !! track_id (row_song row))) df in
  let uri_to_song :=
    foldl (fun m row => <[row_uri row := row_song row]> m) ∅ df in
  let '(inv_idx, word_to_ix) :=
    make_inv_idx stopwords isalpha lyrics_dict remove_stopwords in
  idf_dict ← compute_idf inv_idx n_docs 1 1;
  let song_norms_dict := compute_song_norms inv_idx idf_dict in
  '(ix_to_uri, uri_to_ix, af_matrix, af_song_norms, scaler) ←
    get_af_matrix_data fit df;
  Ok ({| uri_to_song := uri_to_song; inv_idx := inv_idx; idf_dict := idf_dict;
         song_norms_dict := song_norms_dict; ix_to_uri := ix_to_uri;
         af_matrix := af_matrix; af_song_norms := af_song_norms;
         scaler := scaler |},
      word_to_ix, uri_to_ix).

(** *** [retrieve_lyrics] *)

(** [string.punctuation] with the three tokens added on line 24. *)
Definition punct : gset string :=
  list_to_set
    ((fun c => String c EmptyString)
       <$> String.list_ascii_of_string "!#$%&'()*+,-./:;<=>?@[\]^_`{|}~"
           ++ ["034"%char])
  ∪ {[ "''"; "``"; EmptyString ]}.

(** [Counter(tokens)]. *)
Definition Counter (tokens : list string) : gmap string Z :=
  foldl (fun cnt t => <[t := (default 0 (cnt !! t) + 1)%Z]> cnt) ∅ tokens.

(** A song as the Genius client returns it. *)
Record genius_song : Type := {
  gs_artist : string;
  gs_text : string;
  gs_id : Z
}.

Section retrieve_lyrics.
Variable match_ : string → string → bool.
Variable strip_name : string → string.
Variable str_lower : string → string.
(** The Genius client: [genius.search_artist(name, max_songs=0)] with the
    artist's [song] method, and [genius.song_annotations]. *)
Variable search_artist : string → option (string → option genius_song).
Variable song_annotations : Z → list (string * list (list string)).
(** The regular expression that removes bracketed parts, the removal of
    empty lines and the Treebank tokenizer. *)
Variable re_sub_brackets : string → string.
Variable drop_empty_lines : string → string.
Variable tokenize : string → list string.

(** [a[0]] for every [a] of every [line[1]]. *)
Definition annotation_texts (ants : list (string * list (list string)))
    : res (list string) :=
  for_each (fun out line =>
              for_each (fun out a =>
                          match a with
                          | [] => Raise IndexError
                          | text :: _ => Ok (out ++ [text])
                          end)
                       line.2 out)
           ants [].

Definition extract_annotations (song_id : Z) : res string :=
  let ants := song_annotations song_id in
  if decide (length ants = 0%nat) then Ok EmptyString
  else out ← annotation_texts ants; Ok (str_lower (String.concat " " out)).

Definition retrieve_lyrics (query_artist query_name : string)
    : res (option (gmap string Z)) :=
  match search_artist query_artist with
  | None => Ok None
  | Some artist_song =>
      let song_name := strip_name query_name in
      match artist_song song_name with
      | None => Ok None
      | Some song_obj =>
          if negb (match_ query_artist (gs_artist song_obj)) then Ok None
          else
            let lyrics := str_lower (gs_text song_obj) in
            annotations ← extract_annotations (gs_id song_obj);
            let lyrics := lyrics +:+ annotations in
            let lyrics := re_sub_brackets lyrics in
            let lyrics := drop_empty_lines lyrics in
            let tokens := filter (fun t => t ∉ punct) (tokenize lyrics) in
            Ok (Some (Counter tokens))
      end
  end.
End retrieve_lyrics.

(** *** Statements about the index and the query string *)

(** The numbering kept by [make_inv_idx]: the numbered words are the keys
    of the index, and their numbers are 0, 1, ... without gap or repeat. *)
Definition numbered (inv_idx : gmap string postings) (word_to_ix : gmap string nat)
    (word_ix : nat) : Prop :=
  dom word_to_ix = dom inv_idx
  ∧ word_ix = size word_to_ix
  ∧ (∀ w i, word_to_ix !! w = Some i → (i < word_ix)%nat)
  ∧ (∀ w1 w2 i, word_to_ix !! w1 = Some i → word_to_ix !! w2 = Some i → w1 = w2)
  ∧ (∀ i, (i < word_ix)%nat → ∃ w, word_to_ix !! w = Some i).

(** The query vector of [af_sim]: the scaled values of the [AF_COLS]
    entries of [query_af] (read with a default where the statement's
    hypotheses make them present). *)
Definition feature_vector (query_af : audio_features) (scaler : StandardScaler)
    : list R :=
  transform scaler ((fun k => default 0%R (af_values query_af !! k)) <$> AF_COLS).

(** The row that numpy hands out for the index [i], negative indices
    counting from the end: the row whose score [af_sim] stores under
    [ix_to_uri[i]]. *)
Definition matrix_row (af_matrix : list (list R)) (i : Z) : option (list R) :=
  let j := if bool_decide (i < 0)%Z then (i + Z.of_nat (length af_matrix))%Z else i in
  if bool_decide (0 ≤ j)%Z then af_matrix !! Z.to_nat j else None.

(** The number of occurrences of a character in a string. *)
Fixpoint count_char (c : ascii) (s : string) : nat :=
  match s with
  | EmptyString => 0
  | String c' s' => (if decide (c' = c) then 1 else 0) + count_char c s'
  end.

(** * Properties *)

Lemma bind_Ok {A B} (a : A) (k : A → res B) : (Ok a ≫= k) = k a.
Proof. reflexivity. Qed.

Lemma getitem_Some `{Countable K} {V} (d : gmap K V) k v :
  d !! k = Some v → getitem d k = Ok v.
Proof. unfold getitem. by intros ->. Qed.

Lemma getitem_None `{Countable K} {V} (d : gmap K V) k :
  d !! k = None → getitem d k = Raise KeyError.
Proof. unfold getitem. by intros ->. Qed.

Lemma omap_length_le {A B} (f : A → option B) (l : list A) :
  (length (omap f l) ≤ length l)%nat.
Proof. induction l as [|x l IH]; csimpl; [done|]. destruct (f x); csimpl; lia. Qed.

Section ranking_loop.
Variable match_ : string → string → bool.
Variable uri_to_song : gmap string song.
Variables query_uri query_artist query_name : string.
Variable n_results : Z.

Local Abbreviation loop :=
  (rank_loop match_ uri_to_song query_uri query_artist query_name n_results).
Local Abbreviation kept := (keeps match_ query_uri query_artist query_name).
Local Abbreviation entry' :=
  (entry match_ uri_to_song query_uri query_artist query_name).

Lemma keeps_true uri song_data :
  kept uri song_data = true ↔
  uri ≠ query_uri
  ∧ match_ (artist_name song_data) query_artist = false
  ∧ match_ (track_name song_data) query_name = false.
Proof.
  unfold keeps. rewrite !andb_true_iff, !negb_true_iff, bool_decide_eq_true.
  tauto.
Qed.

(** The loop looks at the first [n_results - i] items of [rest] and at
    nothing else. *)
Lemma rank_loop_scan rest i output :
  (∀ x, x ∈ take (Z.to_nat (n_results - i)) rest → is_Some (uri_to_song !! x.1)) →
  loop rest i output
  = Ok (output ++ omap entry' (take (Z.to_nat (n_results - i)) rest)).
Proof.
  revert i output. induction rest as [|[uri score] rest IH]; intros i output Hin.
  - simpl. by rewrite take_nil, app_nil_r.
  - simpl. case_bool_decide as Hi.
    + replace (Z.to_nat (n_results - i)) with (S (Z.to_nat (n_results - (i + 1))))
        in * by lia.
      simpl in *. destruct (Hin (uri, score)) as [sd Hsd]; [left|]. simpl in Hsd.
      rewrite (getitem_Some _ _ _ Hsd), bind_Ok. rewrite IH.
      * unfold entry at 2. simpl. rewrite Hsd. simpl.
        destruct (kept uri sd); simpl; [by rewrite <- app_assoc | done].
      * intros x Hx. apply Hin. by right.
    + replace (Z.to_nat (n_results - i)) with 0%nat by lia.
      simpl. by rewrite app_nil_r.
Qed.
End ranking_loop.

(** ** The ranking loop: filtering and truncation *)

(** C2 (the code departs from the claim): a candidate that is not the query
    song, whose artist matches the query's and whose title does not, is
    dropped by the ranking loop, although only one of the two names
    matches. *)
Theorem rank_loop_drops_artist_match_alone
    (match_ : string → string → bool) (uri_to_song : gmap string song)
    (query_uri query_artist query_name uri : string) (score : npfloat)
    (song_data : song) :
  uri_to_song !! uri = Some song_data →
  uri ≠ query_uri →
  match_ (artist_name song_data) query_artist = true →
  match_ (track_name song_data) query_name = false →
  rank_loop match_ uri_to_song query_uri query_artist query_name 1
            [(uri, score)] 0 [] = Ok [].
Proof.
  intros Hsd Hne Ha Ht. rewrite rank_loop_scan.
  - simpl. unfold entry. simpl. rewrite Hsd. simpl.
    unfold keeps. by rewrite Ha, andb_false_r.
  - simpl. intros x ->%list_elem_of_singleton. by eexists.
Qed.

(** The part of C2 that the loop does satisfy: whatever is returned was
    built from a ranked item other than the query song. *)
Lemma rank_loop_excludes_query
    (match_ : string → string → bool) (uri_to_song : gmap string song)
    (query_uri query_artist query_name : string) (n_results : Z)
    (ranked : list (string * npfloat)) (output : list (npfloat * song)) :
  rank_loop match_ uri_to_song query_uri query_artist query_name n_results
            ranked 0 [] = Ok output →
  (∀ x, x ∈ take (Z.to_nat n_results) ranked → is_Some (uri_to_song !! x.1)) →
  ∀ r, r ∈ output →
    ∃ uri, uri ≠ query_uri ∧ (uri, r.1) ∈ ranked ∧ uri_to_song !! uri = Some r.2.
Proof.
  intros Hloop Hdom r Hr. rewrite rank_loop_scan in Hloop.
  - injection Hloop as <-. simpl in Hr.
    apply list_elem_of_omap in Hr as ([uri score] & Hx & He).
    unfold entry in He. simpl in He.
    destruct (uri_to_song !! uri) as [sd|] eqn:Hsd; [simpl in He|done].
    destruct (keeps _ _ _ _ _ _) eqn:Hk; [|done]. injection He as <-.
    apply keeps_true in Hk as (Hne & _). exists uri. simpl.
    split_and!; [done| |done].
    rewrite Z.sub_0_r in Hx. eapply subseteq_take, Hx.
  - intros x Hx. apply Hdom. by rewrite Z.sub_0_r in Hx.
Qed.

(** C3 (the code departs from the claim): with the query song ranked first
    and one eligible candidate behind it, a request for one result returns
    none: the filtered item has used the only slot. *)
Theorem rank_loop_filtered_item_uses_slot
    (match_ : string → string → bool) (uri_to_song : gmap string song)
    (query_uri query_artist query_name uri : string) (s1 s2 : npfloat)
    (query_song song_data : song) :
  uri_to_song !! query_uri = Some query_song →
  uri_to_song !! uri = Some song_data →
  keeps match_ query_uri query_artist query_name uri song_data = true →
  let ranked := [(query_uri, s1); (uri, s2)] in
  omap (entry match_ uri_to_song query_uri query_artist query_name) ranked
  = [(s2, song_data)]
  ∧ rank_loop match_ uri_to_song query_uri query_artist query_name 1 ranked 0 []
    = Ok [].
Proof.
  intros Hq Hsd Hk ranked. split.
  - unfold ranked, entry. simpl. rewrite Hq, Hsd. simpl. rewrite Hk.
    unfold keeps. rewrite bool_decide_eq_false_2 by (intros Hne; by apply Hne).
    done.
  - unfold ranked. rewrite rank_loop_scan.
    + simpl. unfold entry. simpl. rewrite Hq. simpl. unfold keeps.
      rewrite bool_decide_eq_false_2 by (intros Hne; by apply Hne). done.
    + simpl. intros x ->%list_elem_of_singleton. by eexists.
Qed.

(** The number of results never exceeds, and may fall short of, the
    smaller of [n_results] and the number of eligible candidates. *)
Lemma rank_loop_length
    (match_ : string → string → bool) (uri_to_song : gmap string song)
    (query_uri query_artist query_name : string) (n_results : Z)
    (ranked : list (string * npfloat)) :
  (∀ x, x ∈ ranked → is_Some (uri_to_song !! x.1)) →
  ∃ output,
    rank_loop match_ uri_to_song query_uri query_artist query_name n_results
              ranked 0 [] = Ok output
    ∧ (length output ≤ Z.to_nat n_results)%nat
    ∧ (length output
       ≤ length (omap (entry match_ uri_to_song query_uri query_artist query_name)
                      ranked))%nat.
Proof.
  intros Hdom. eexists. split.
  - apply rank_loop_scan. intros x Hx. apply Hdom. eapply subseteq_take, Hx.
  - simpl. rewrite Z.sub_0_r. split.
    + etrans; [apply omap_length_le|]. rewrite length_take. lia.
    + rewrite <- (take_drop (Z.to_nat n_results) ranked) at 2.
      rewrite omap_app, length_app. lia.
Qed.

(** ** Loops that may raise *)

Lemma foldl_Raise {A B} (step : B → A → res B) (l : list A) e :
  foldl (fun acc x => b ← acc; step b x) (Raise e) l = Raise e.
Proof. induction l as [|x l IH]; simpl; [done|]. apply IH. Qed.

Lemma for_each_nil {A B} (step : B → A → res B) init :
  for_each step [] init = Ok init.
Proof. reflexivity. Qed.

Lemma for_each_cons {A B} (step : B → A → res B) x l init :
  for_each step (x :: l) init = step init x ≫= for_each step l.
Proof.
  unfold for_each. simpl. destruct (step init x) as [b|e]; simpl; [done|].
  apply foldl_Raise.
Qed.

(** A loop none of whose steps raises is a plain fold. *)
Lemma for_each_pure {A B} (step : B → A → res B) (f : B → A → B) l init :
  (∀ b x, x ∈ l → step b x = Ok (f b x)) →
  for_each step l init = Ok (foldl f init l).
Proof.
  revert init. induction l as [|x l IH]; intros init Hstep; [done|].
  rewrite for_each_cons, Hstep by left. simpl.
  apply IH. intros b y Hy. apply Hstep. by right.
Qed.

(** A loop one of whose steps raises, whatever the accumulator, raises. *)
Lemma for_each_raises {A B} (step : B → A → res B) l init x e :
  x ∈ l →
  (∀ b, step b x = Raise e) →
  (∀ b y, y ∈ l → step b y = Raise e ∨ ∃ b', step b y = Ok b') →
  for_each step l init = Raise e.
Proof.
  revert init. induction l as [|y l IH]; intros init Hx Hbad Hall.
  - by apply elem_of_nil in Hx.
  - rewrite for_each_cons. apply elem_of_cons in Hx as [->|Hx].
    + by rewrite Hbad.
    + destruct (Hall init y) as [->| [b' ->]]; [by left|done|]. simpl.
      apply IH; [done|done|]. intros b z Hz. apply Hall. by right.
Qed.

(** Building a dictionary entry by entry from the items of another one. *)
Lemma foldl_insert_lookup `{Countable K} {V W} (h : K → V → option W)
    (l : list (K * V)) (init : gmap K W) k :
  NoDup l.*1 →
  foldl (fun acc '(k, v) => match h k v with
                            | Some w => <[k := w]> acc
                            | None => acc
                            end) init l !! k
  = match (list_to_map l : gmap K V) !! k with
    | Some v => match h k v with Some w => Some w | None => init !! k end
    | None => init !! k
    end.
Proof.
  revert init. induction l as [|[k' v'] l IH]; intros init Hnd; [done|].
  apply NoDup_cons in Hnd as [Hk' Hnd]. simpl. rewrite IH by done.
  destruct (decide (k' = k)) as [->|Hne].
  - rewrite lookup_insert_eq.
    rewrite (not_elem_of_list_to_map_1 l k) by done.
    destruct (h k v'); [by rewrite lookup_insert_eq|done].
  - rewrite lookup_insert_ne by done.
    destruct ((list_to_map l : gmap K V) !! k) as [v|]; destruct (h k' v');
      by rewrite ?lookup_insert_ne.
Qed.

Lemma for_each_map_imap `{Countable K} {V W} (step : gmap K W → K * V → res (gmap K W))
    (h : K → V → option W) (m : gmap K V) :
  (∀ acc k v, m !! k = Some v →
     step acc (k, v) = Ok (match h k v with
                           | Some w => <[k := w]> acc
                           | None => acc
                           end)) →
  for_each step (map_to_list m) ∅ = Ok (map_imap h m).
Proof.
  intros Hstep.
  rewrite (for_each_pure _ (fun acc '(k, v) => match h k v with
                                                | Some w => <[k := w]> acc
                                                | None => acc
                                                end)).
  - f_equal. apply map_eq. intros k.
    rewrite foldl_insert_lookup by apply NoDup_fst_map_to_list.
    rewrite list_to_map_to_list, map_lookup_imap, lookup_empty.
    destruct (m !! k) as [v|]; simpl; [by destruct (h k v)|done].
  - intros b [k v] Hkv. apply Hstep. by apply elem_of_map_to_list.
Qed.

(** ** Fusion *)

Lemma fuse_covered (lyrics_weight : R) (af_sim_scores lyric_sim_scores : gmap string npfloat) :
  (∀ k, is_Some (lyric_sim_scores !! k) → is_Some (af_sim_scores !! k)) →
  fuse lyrics_weight af_sim_scores lyric_sim_scores
  = Ok (map_imap (fun k lyr => af ← af_sim_scores !! k;
                               Some (fused lyrics_weight af lyr))
                 lyric_sim_scores).
Proof.
  intros Hcov. unfold fuse. apply for_each_map_imap. intros acc k lyr Hk.
  destruct (Hcov k) as [af Haf]; [by eexists|].
  by rewrite (getitem_Some _ _ _ Haf), Haf.
Qed.

Lemma fuse_uncovered (lyrics_weight : R) (af_sim_scores lyric_sim_scores : gmap string npfloat) k :
  is_Some (lyric_sim_scores !! k) → af_sim_scores !! k = None →
  fuse lyrics_weight af_sim_scores lyric_sim_scores = Raise KeyError.
Proof.
  intros [lyr Hk] Haf. unfold fuse.
  apply (for_each_raises _ _ _ (k, lyr)).
  - by apply elem_of_map_to_list.
  - intros b. by rewrite (getitem_None _ _ Haf).
  - intros b [k' lyr'] _. unfold getitem.
    destruct (af_sim_scores !! k'); simpl; eauto.
Qed.

Lemma fused_weight_one (af : R) (lyr : npfloat) : fused 1 (Fin af) lyr = lyr.
Proof.
  unfold fused. replace (1 - 1)%R with 0%R by lra. simpl.
  destruct lyr as [y|s|]; simpl; [f_equal; lra| |done].
  rewrite decide_False by lra. rewrite bool_decide_eq_false_2 by lra.
  by destruct s.
Qed.

(** C4 (amended): for a lyrics weight in (0, 1], when every song of the
    lyrical score map also has an audio score, the fused map has exactly
    the keys of the lyrical map and holds [audio*(1-w) + lyric*w] for each
    of them; at [w = 1] this is the lyrical score whenever the audio score
    is finite.  At [w = 0] the lyrics are neither fetched nor scored: the
    ranking is computed from the audio score map alone. *)
Theorem fusion_weighted_average (lyrics_weight : R)
    (af_sim_scores lyric_sim_scores : gmap string npfloat) :
  (0 < lyrics_weight <= 1)%R →
  (∀ k, is_Some (lyric_sim_scores !! k) → is_Some (af_sim_scores !! k)) →
  (∃ averaged_scores,
      fuse lyrics_weight af_sim_scores lyric_sim_scores = Ok averaged_scores
      ∧ dom averaged_scores = dom lyric_sim_scores
      ∧ (∀ k af lyr,
           af_sim_scores !! k = Some af → lyric_sim_scores !! k = Some lyr →
           averaged_scores !! k
           = Some (fadd (fmul af (Fin (1 - lyrics_weight)))
                        (fmul lyr (Fin lyrics_weight))))
      ∧ (lyrics_weight = 1%R →
         ∀ k af lyr,
           af_sim_scores !! k = Some (Fin af) → lyric_sim_scores !! k = Some lyr →
           averaged_scores !! k = Some lyr))
  ∧ (∀ match_ retrieve_lyrics query_af query_uri query_artist query_name
       n_results vars_dict,
       main_scores match_ retrieve_lyrics query_af query_uri query_artist
                   query_name 0 n_results vars_dict
       = (sorted_lyric_sims ←
            (if bool_decide (n_results < 0)%Z then Raise ValueError
             else Ok (replicate (Z.to_nat n_results) (Fin 0)));
          af_sim_scores ← vars_af_sim vars_dict query_af;
          output ← rank match_ vars_dict query_uri query_artist query_name
                     n_results af_sim_scores;
          Ok (Ranking query_af output sorted_lyric_sims))).
Proof.
  intros Hw Hcov. split.
  - eexists. split; [by apply fuse_covered|].
    assert (Hlook : ∀ k af lyr,
      af_sim_scores !! k = Some af → lyric_sim_scores !! k = Some lyr →
      map_imap (fun k lyr => af ← af_sim_scores !! k;
                             Some (fused lyrics_weight af lyr))
               lyric_sim_scores !! k
      = Some (fused lyrics_weight af lyr)).
    { intros k af lyr Haf Hlyr. by rewrite map_lookup_imap, Hlyr; simpl; rewrite Haf. }
    split_and!.
    + apply set_eq. intros k. rewrite !elem_of_dom, map_lookup_imap.
      split.
      * intros [x Hx]. destruct (lyric_sim_scores !! k); [by eexists|done].
      * intros [lyr Hlyr]. destruct (Hcov k) as [af Haf]; [by eexists|].
        rewrite Hlyr. simpl. rewrite Haf. by eexists.
    + apply Hlook.
    + intros -> k af lyr Haf Hlyr. rewrite (Hlook _ _ _ Haf Hlyr).
      by rewrite fused_weight_one.
  - intros. unfold main_scores. by rewrite decide_True.
Qed.

(** C4 as stated fails: a song of the lyrical map without an audio score
    makes the fusion raise, and a [nan] audio score is not cancelled by a
    weight of zero. *)
Lemma fusion_counterexample :
  fuse 1 ∅ {[ "a" := Fin 1 ]} = Raise KeyError
  ∧ fuse 1 {[ "a" := NaN ]} {[ "a" := Fin 1 ]} = Ok {[ "a" := NaN ]}.
Proof.
  split.
  - apply (fuse_uncovered _ _ _ "a"); [by rewrite lookup_singleton_eq|done].
  - rewrite fuse_covered; [reflexivity|].
    intros k [x Hx]. apply lookup_singleton_Some in Hx as [<- _].
      rewrite lookup_singleton_eq. by eexists.
Qed.

Lemma fusion_weighted_average_witness :
  ∃ averaged_scores,
    fuse (1 / 2) {[ "a" := Fin 1 ]} {[ "a" := Fin 0 ]} = Ok averaged_scores
    ∧ dom averaged_scores = dom ({[ "a" := Fin 0 ]} : gmap string npfloat).
Proof.
  destruct (fusion_weighted_average (1 / 2) {[ "a" := Fin 1 ]} {[ "a" := Fin 0 ]})
    as [(m & Hm & Hdom & _) _].
  - lra.
  - intros k [x Hx]. apply lookup_singleton_Some in Hx as [<- _].
    rewrite lookup_singleton_eq. by eexists.
  - by exists m.
Defined.

Lemma rank_loop_drops_artist_match_alone_witness :
  rank_loop String.eqb
            {[ "u1" := {| track_id := "u1"; artist_name := "adele";
                          track_name := "hello" |} ]}
            "q" "adele" "skyfall" 1 [("u1", Fin 1)] 0 [] = Ok [].
Proof.
  apply (rank_loop_drops_artist_match_alone String.eqb _ "q" "adele" "skyfall" "u1"
           (Fin 1) {| track_id := "u1"; artist_name := "adele";
                      track_name := "hello" |});
    [reflexivity | discriminate | reflexivity | reflexivity].
Defined.

Lemma rank_loop_filtered_item_uses_slot_witness :
  let uri_to_song : gmap string song :=
    {[ "q" := {| track_id := "q"; artist_name := "adele"; track_name := "hello" |};
       "u1" := {| track_id := "u1"; artist_name := "queen"; track_name := "bohemian" |} ]} in
  let ranked := [("q", Fin 1); ("u1", Fin 0)] in
  omap (entry String.eqb uri_to_song "q" "adele" "hello") ranked
  = [(Fin 0, {| track_id := "u1"; artist_name := "queen"; track_name := "bohemian" |})]
  ∧ rank_loop String.eqb uri_to_song "q" "adele" "hello" 1 ranked 0 [] = Ok [].
Proof.
  apply (rank_loop_filtered_item_uses_slot String.eqb _ "q" "adele" "hello" "u1"
           (Fin 1) (Fin 0)
           {| track_id := "q"; artist_name := "adele"; track_name := "hello" |}
           {| track_id := "u1"; artist_name := "queen"; track_name := "bohemian" |});
    reflexivity.
Defined.

(** ** Query resolution *)

Section resolution.
Variable match_ : string → string → bool.
Variables strip_name str_strip str_lower : string → string.
Variable sp_search : string → list track.
Variable sp_audio_features : string → option features_data.
Variable sp_track : string → track.
Variable retrieve_lyrics : string → string → option (gmap string Z).

Local Abbreviation main' :=
  (main match_ strip_name str_strip str_lower sp_search sp_audio_features
        sp_track retrieve_lyrics).
Local Abbreviation resolve :=
  (resolve_query match_ strip_name str_strip str_lower sp_search).

Lemma get_audio_features_missing uri :
  sp_audio_features uri = None →
  get_audio_features sp_audio_features sp_track uri = Ok None.
Proof. unfold get_audio_features. by intros ->. Qed.

(** A query by name that Spotify does not resolve. *)
Lemma resolve_query_unresolved query query_artist query_name :
  (fun x => str_lower (str_strip x)) <$> split_on "|"%char query
  = [query_artist; query_name] →
  get_song_uri match_ sp_search query_artist (strip_name query_name) = None →
  resolve query false = Ok None.
Proof. unfold resolve_query. simpl. by intros -> ->. Qed.

(** C9: [main] prints its message and returns [None], with no ranking,
    when the query is not resolved to a song, when the resolved song has
    no audio features, and, for a lyrics weight other than 0, when no
    lyrics come back; in that last case no audio-only ranking is made. *)
Theorem main_not_found (query : string) (lyrics_weight : R) (n_results : Z)
    (vars_dict : vars) (is_uri : bool) :
  (resolve query is_uri = Ok None →
   main' query lyrics_weight n_results vars_dict is_uri
   = Ok (NotFound "Song not found on Spotify"))
  ∧ (∀ query_uri names,
       resolve query is_uri = Ok (Some (query_uri, names)) →
       sp_audio_features query_uri = None →
       main' query lyrics_weight n_results vars_dict is_uri
       = Ok (NotFound "Song audio features not found on Spotify"))
  ∧ (∀ query_uri names query_af,
       resolve query is_uri = Ok (Some (query_uri, names)) →
       get_audio_features sp_audio_features sp_track query_uri = Ok (Some query_af) →
       lyrics_weight ≠ 0%R →
       (let '(query_artist, query_name) :=
          query_names strip_name str_strip str_lower names query_af in
        retrieve_lyrics query_artist query_name = None
        ∨ retrieve_lyrics query_artist query_name = Some ∅) →
       main' query lyrics_weight n_results vars_dict is_uri
       = Ok (NotFound "Song lyrics not found on Genius.")).
Proof.
  unfold main. split_and!.
  - by intros ->.
  - intros query_uri names -> Hnone. rewrite bind_Ok. cbv beta iota.
    by rewrite (get_audio_features_missing _ Hnone).
  - intros query_uri names query_af -> Haf Hw. rewrite bind_Ok. cbv beta iota.
    rewrite Haf, bind_Ok. cbv beta iota.
    destruct (query_names _ _ _ _ _) as [query_artist query_name].
    unfold main_scores. rewrite decide_False by done.
    intros [-> | ->]; [done|]. by rewrite decide_True.
Qed.
End resolution.

Lemma main_not_found_witness :
  let vars_dict :=
    {| uri_to_song := ∅; inv_idx := ∅; idf_dict := ∅; song_norms_dict := ∅;
       ix_to_uri := ∅; af_matrix := []; af_song_norms := [];
       scaler := {| transform := fun v => v |} |} in
  let no_track := fun _ : string => {| tr_artists := []; tr_name := ""; tr_uri := "" |} in
  let all_zero := fun uri : string =>
    Some {| fd_values := list_to_map ((fun k => (k, 0%R)) <$> AF_COLS); fd_uri := uri |} in
  let same := fun s : string => s in
  main String.eqb same same same (fun _ => []) (fun _ => None) no_track (fun _ _ => None)
       "adele | hello" 1%R 10%Z vars_dict false
  = Ok (NotFound "Song not found on Spotify")
  ∧ main String.eqb same same same (fun _ => []) (fun _ => None) no_track (fun _ _ => None)
         "spotify:track:1" 1%R 10%Z vars_dict true
    = Ok (NotFound "Song audio features not found on Spotify")
  ∧ main String.eqb same same same (fun _ => []) all_zero no_track (fun _ _ => None)
         "spotify:track:1" 1%R 10%Z vars_dict true
    = Ok (NotFound "Song lyrics not found on Genius.").
Proof.
  intros vars_dict no_track all_zero same. split_and!.
  - apply main_not_found. reflexivity.
  - eapply main_not_found; reflexivity.
  - eapply main_not_found; [reflexivity | reflexivity | lra | by left].
Defined.

(** ** The IDF table *)

Lemma compute_idf_lookup (inv_idx : gmap string postings) (n_docs : nat)
    (min_df : Z) (max_df_ratio : R) :
  n_docs ≠ 0%nat →
  compute_idf inv_idx n_docs min_df max_df_ratio
  = Ok (map_imap (fun _ => idf_entry n_docs min_df max_df_ratio) inv_idx).
Proof.
  intros Hn. unfold compute_idf. apply for_each_map_imap.
  intros acc word posting _. unfold idf_entry. simpl.
  rewrite (decide_False (P := n_docs = 0%nat)) by done.
  by repeat case_bool_decide.
Qed.

(** With no documents the ratio [df/n_docs] cannot be formed. *)
Lemma compute_idf_no_docs (inv_idx : gmap string postings) (min_df : Z)
    (max_df_ratio : R) word posting :
  inv_idx !! word = Some posting → (min_df ≤ Z.of_nat (length posting))%Z →
  compute_idf inv_idx 0 min_df max_df_ratio = Raise ZeroDivisionError.
Proof.
  intros Hw Hdf. unfold compute_idf.
  apply (for_each_raises _ _ _ (word, posting)).
  - by apply elem_of_map_to_list.
  - intros b. by rewrite bool_decide_eq_true_2.
  - intros b [w p] _. case_bool_decide; eauto.
Qed.

(** Without documents the call only returns when no token reaches
    [min_df], and the table is then empty. *)
Lemma compute_idf_no_docs_Ok (inv_idx : gmap string postings) (min_df : Z)
    (max_df_ratio : R) idf_dict :
  compute_idf inv_idx 0 min_df max_df_ratio = Ok idf_dict →
  idf_dict = ∅
  ∧ ∀ word posting, inv_idx !! word = Some posting →
                    ¬ (min_df ≤ Z.of_nat (length posting))%Z.
Proof.
  intros Hok.
  assert (Hlow : ∀ word posting, inv_idx !! word = Some posting →
                 ¬ (min_df ≤ Z.of_nat (length posting))%Z).
  { intros word posting Hw Hdf.
    by rewrite (compute_idf_no_docs _ _ _ _ _ Hw Hdf) in Hok. }
  split; [|done]. unfold compute_idf in Hok.
  rewrite (for_each_map_imap _ (fun _ _ => None)) in Hok.
  - injection Hok as <-. apply map_eq. intros word.
    rewrite map_lookup_imap, lookup_empty. by destruct (inv_idx !! word).
  - intros acc word posting Hw.
    by rewrite bool_decide_eq_false_2 by by eapply Hlow.
Qed.

(** C7: a token is in the table returned by [compute_idf] exactly when its
    posting list has a length [df] with [df >= min_df] and
    [df/n_docs <= max_df_ratio]; its value is then
    [log2 (n_docs / (1 + df))].  The call returns whenever there is at
    least one document. *)
Lemma compute_idf_returns (inv_idx : gmap string postings) (n_docs : nat)
    (min_df : Z) (max_df_ratio : R) :
  (0 < n_docs)%nat →
  ∃ idf_dict, compute_idf inv_idx n_docs min_df max_df_ratio = Ok idf_dict.
Proof. intros Hn. eexists. apply compute_idf_lookup. lia. Qed.

Theorem compute_idf_thresholds (inv_idx : gmap string postings) (n_docs : nat)
    (min_df : Z) (max_df_ratio : R) :
  ((0 < n_docs)%nat →
   ∃ idf_dict, compute_idf inv_idx n_docs min_df max_df_ratio = Ok idf_dict)
  ∧ ∀ idf_dict,
      compute_idf inv_idx n_docs min_df max_df_ratio = Ok idf_dict →
      ∀ word,
        (is_Some (idf_dict !! word) ↔
         ∃ posting, inv_idx !! word = Some posting
                    ∧ (min_df ≤ Z.of_nat (length posting))%Z
                    ∧ (INR (length posting) / INR n_docs <= max_df_ratio)%R)
        ∧ (∀ posting idf,
             inv_idx !! word = Some posting → idf_dict !! word = Some idf →
             idf = log2 (INR n_docs / INR (1 + length posting))).
Proof.
  split; [apply compute_idf_returns|].
  intros idf_dict Hok word. destruct (decide (n_docs = 0%nat)) as [->|Hn].
  - apply compute_idf_no_docs_Ok in Hok as [-> Hlow]. rewrite lookup_empty. split.
    + split; [by intros [? ?]|]. intros (posting & Hw & Hdf & _).
      by destruct (Hlow _ _ Hw).
    + done.
  - rewrite compute_idf_lookup in Hok by done. injection Hok as <-.
    rewrite map_lookup_imap. split.
    + split.
      * intros [idf Hidf]. destruct (inv_idx !! word) as [posting|]; [|done].
        simpl in Hidf. unfold idf_entry in Hidf. exists posting.
        destruct (bool_decide _ && bool_decide _) eqn:Hc; [|done].
        apply andb_true_iff in Hc as [H1%bool_decide_eq_true H2%bool_decide_eq_true].
        done.
      * intros (posting & -> & H1 & H2). simpl. unfold idf_entry.
        rewrite !bool_decide_eq_true_2 by done. by eexists.
    + intros posting idf ->. simpl. unfold idf_entry.
      destruct (bool_decide _ && bool_decide _); [|done]. by intros [= <-].
Qed.

Lemma compute_idf_thresholds_witness :
  ∃ idf_dict,
    compute_idf {[ "love" := [("A", 3%Z); ("B", 1%Z)]; "you" := [("A", 2%Z)] ]} 2 1 1
    = Ok idf_dict
    ∧ idf_dict !! "love" = Some (log2 (2 / 3))
    ∧ idf_dict !! "you" = Some (log2 (2 / 2)).
Proof.
  destruct (compute_idf_thresholds
              {[ "love" := [("A", 3%Z); ("B", 1%Z)]; "you" := [("A", 2%Z)] ]} 2 1 1)
    as [Hret Hspec].
  destruct Hret as (idf_dict & Hidf); [lia|].
  specialize (Hspec idf_dict Hidf).
  exists idf_dict. split; [done|].
  assert (Hin : ∀ word posting,
    ({[ "love" := [("A", 3%Z); ("B", 1%Z)]; "you" := [("A", 2%Z)] ]}
       : gmap string postings) !! word = Some posting →
    (length posting ≤ 2)%nat → (1 ≤ length posting)%nat →
    idf_dict !! word = Some (log2 (INR 2 / INR (1 + length posting)))).
  { intros word posting Hw Hle Hge. destruct (Hspec word) as [[_ Hsome] Hval].
    destruct Hsome as [idf Hi].
    - exists posting. split_and!; [done|lia|].
      apply le_INR in Hle. simpl in *. lra.
    - by rewrite Hi, (Hval _ _ Hw Hi). }
  split.
  - rewrite (Hin "love" [("A", 3%Z); ("B", 1%Z)]); [|reflexivity|simpl; lia..].
    do 2 f_equal; simpl; lra.
  - rewrite (Hin "you" [("A", 2%Z)]); [|reflexivity|simpl; lia..].
    do 2 f_equal; simpl; lra.
Defined.

(** ** Running sums kept in a dictionary *)

Lemma Rsum_app l1 l2 : Rsum (l1 ++ l2) = (Rsum l1 + Rsum l2)%R.
Proof. induction l1 as [|x l1 IH]; simpl; [lra|]. rewrite IH. lra. Qed.

#[global] Instance Rsum_Permutation : Proper ((≡ₚ) ==> (=)) Rsum.
Proof.
  intros l1 l2 Hp. induction Hp; simpl; lra.
Qed.

Lemma sum_for_nil d : sum_for d [] = 0%R.
Proof. reflexivity. Qed.

Lemma sum_for_cons d k x c :
  sum_for d ((k, x) :: c)
  = ((if decide (k = d) then x else 0) + sum_for d c)%R.
Proof.
  unfold sum_for. rewrite filter_cons. simpl.
  destruct (decide (k = d)); csimpl; lra.
Qed.

Lemma sum_for_app d c1 c2 : sum_for d (c1 ++ c2) = (sum_for d c1 + sum_for d c2)%R.
Proof. unfold sum_for. by rewrite filter_app, fmap_app, Rsum_app. Qed.

Lemma sum_for_absent d c : d ∉ c.*1 → sum_for d c = 0%R.
Proof.
  induction c as [|[k x] c IH]; [done|]. rewrite fmap_cons, not_elem_of_cons.
  simpl. intros [Hne Hc]. rewrite sum_for_cons, decide_False by done.
  rewrite IH by done. lra.
Qed.

Lemma sum_for_bind {A} d (g : A → list (string * R)) (l : list A) :
  sum_for d (l ≫= g) = Rsum ((fun x => sum_for d (g x)) <$> l).
Proof.
  induction l as [|x l IH]; [done|].
  rewrite bind_cons, sum_for_app, IH. reflexivity.
Qed.

Lemma foldl_add_to_lookup c init d :
  foldl add_to init c !! d
  = if decide (d ∈ c.*1)
    then Some (default 0 (init !! d) + sum_for d c)%R
    else init !! d.
Proof.
  revert init. induction c as [|[k x] c IH]; intros init.
  - reflexivity.
  - cbn [foldl]. rewrite IH, sum_for_cons, fmap_cons. unfold add_to. cbn [fst snd].
    destruct (decide (k = d)) as [->|Hne].
    + rewrite lookup_insert_eq. cbn [from_option]. unfold Datatypes.id.
      rewrite (decide_True (P := d ∈ d :: c.*1)) by left.
      destruct (decide (d ∈ c.*1)) as [Hin|Hin].
      * f_equal. lra.
      * rewrite sum_for_absent by done. f_equal. lra.
    + rewrite lookup_insert_ne by done.
      destruct (decide (d ∈ c.*1)) as [Hin|Hin].
      * rewrite decide_True by by right. f_equal. lra.
      * rewrite decide_False; [done|]. rewrite not_elem_of_cons. done.
Qed.

Lemma foldl_bind {A B C} (f : C → B → C) (g : A → list B) (l : list A) init :
  foldl f init (l ≫= g) = foldl (fun acc x => foldl f acc (g x)) init l.
Proof.
  revert init. induction l as [|x l IH]; intros init; [done|].
  rewrite bind_cons, foldl_app. simpl. apply IH.
Qed.

Lemma foldl_ext {A B} (f g : B → A → B) (l : list A) init :
  (∀ b x, f b x = g b x) → foldl f init l = foldl g init l.
Proof.
  intros Hfg. revert init. induction l as [|x l IH]; intros init; [done|].
  simpl. by rewrite Hfg, IH.
Qed.

Lemma song_norms_sq_contribs inv_idx idf_dict :
  song_norms_sq inv_idx idf_dict = foldl add_to ∅ (norm_contribs inv_idx idf_dict).
Proof.
  unfold song_norms_sq, norm_contribs. rewrite foldl_bind.
  apply foldl_ext. intros acc [word posting]. rewrite foldl_fmap.
  apply foldl_ext. by intros acc' [uri tf].
Qed.

Lemma accumulate_scores_contribs inv_idx idf_dict query_tfidf :
  (∀ t, is_Some (query_tfidf !! t) → is_Some (idf_dict !! t)) →
  accumulate_scores inv_idx idf_dict query_tfidf
  = Ok (foldl add_to ∅ (dot_contribs inv_idx idf_dict (map_to_list query_tfidf))).
Proof.
  intros Hidf. unfold accumulate_scores, dot_contribs. rewrite foldl_bind.
  apply for_each_pure. intros acc [t q] Htq.
  apply elem_of_map_to_list in Htq.
  destruct (Hidf t) as [idf Ht]; [by eexists|].
  rewrite foldl_fmap. apply for_each_pure. intros acc' [doc_id tf] _.
  by rewrite (getitem_Some _ _ _ Ht), Ht.
Qed.

(** ** The lyrical scorer, loop by loop *)

Lemma query_vector_fold (idf_dict : gmap string R) (l : list (string * Z))
    (query_tfidf : gmap string R) (query_norm : R) :
  foldl (fun '(query_tfidf, query_norm) '(t, cnt) =>
           match idf_dict !! t with
           | Some idf =>
               let tfidf := (IZR cnt * idf)%R in
               (<[t := tfidf]> query_tfidf, (query_norm + Rsqr tfidf)%R)
           | None => (query_tfidf, query_norm)
           end)
        (query_tfidf, query_norm) l
  = (foldl (fun acc '(t, cnt) =>
              match (fun t cnt => idf ← idf_dict !! t; Some (IZR cnt * idf)%R) t cnt with
              | Some w => <[t := w]> acc
              | None => acc
              end) query_tfidf l,
     (query_norm
      + Rsum (Rsqr <$> (omap (fun '(t, cnt) => idf ← idf_dict !! t;
                                               Some (t, (IZR cnt * idf)%R)) l).*2))%R).
Proof.
  revert query_tfidf query_norm.
  induction l as [|[t cnt] l IH]; intros query_tfidf query_norm.
  - simpl. f_equal. lra.
  - cbn [foldl]. destruct (idf_dict !! t) as [idf|] eqn:Ht.
    + rewrite IH. csimpl. rewrite Ht. csimpl. f_equal. lra.
    + rewrite IH. csimpl. rewrite Ht. csimpl. done.
Qed.

Lemma query_vector_spec (query_lyrics_cnt : gmap string Z) (idf_dict : gmap string R) :
  query_vector query_lyrics_cnt idf_dict
  = (map_imap (fun t cnt => idf ← idf_dict !! t; Some (IZR cnt * idf)%R)
              query_lyrics_cnt,
     query_norm_sq query_lyrics_cnt idf_dict).
Proof.
  unfold query_vector. rewrite query_vector_fold. f_equal.
  - apply map_eq. intros t.
    rewrite foldl_insert_lookup by apply NoDup_fst_map_to_list.
    rewrite list_to_map_to_list, map_lookup_imap, lookup_empty.
    destruct (query_lyrics_cnt !! t) as [cnt|]; [|done]. simpl.
    by destruct (idf_dict !! t).
  - unfold query_norm_sq, query_items. lra.
Qed.

Lemma elem_of_query_items (query_lyrics_cnt : gmap string Z)
    (idf_dict : gmap string R) t q :
  (t, q) ∈ query_items query_lyrics_cnt idf_dict ↔
  ∃ cnt idf, query_lyrics_cnt !! t = Some cnt ∧ idf_dict !! t = Some idf
             ∧ q = (IZR cnt * idf)%R.
Proof.
  unfold query_items. rewrite list_elem_of_omap. split.
  - intros ([t' cnt] & Hin & Hq). apply elem_of_map_to_list in Hin.
    destruct (idf_dict !! t') as [idf|] eqn:Ht; [|done].
    simpl in Hq. injection Hq as -> <-. eauto.
  - intros (cnt & idf & Hc & Hi & ->). exists (t, cnt). split.
    + by apply elem_of_map_to_list.
    + by rewrite Hi.
Qed.

Lemma NoDup_omap_fst {A B} (f : string * A → option (string * B)) (l : list (string * A)) :
  (∀ x y, f x = Some y → y.1 = x.1) → NoDup l.*1 → NoDup (omap f l).*1.
Proof.
  intros Hf. induction l as [|x l IH]; [done|]. rewrite fmap_cons, NoDup_cons.
  intros [Hx Hnd]. csimpl. destruct (f x) as [y|] eqn:Hy; [|by apply IH].
  rewrite fmap_cons. apply NoDup_cons. split; [|by apply IH].
  rewrite (Hf _ _ Hy). intros Hin. apply Hx.
  apply list_elem_of_fmap in Hin as (z & -> & Hz).
  apply list_elem_of_omap in Hz as (x' & Hx' & Hfx').
  rewrite (Hf _ _ Hfx'). by apply list_elem_of_fmap_2.
Qed.

Lemma NoDup_query_items (query_lyrics_cnt : gmap string Z) (idf_dict : gmap string R) :
  NoDup (query_items query_lyrics_cnt idf_dict).*1.
Proof.
  apply NoDup_omap_fst; [|apply NoDup_fst_map_to_list].
  intros [t cnt] y. destruct (idf_dict !! t); [|done]. by intros [= <-].
Qed.

Lemma query_items_Permutation (query_lyrics_cnt : gmap string Z)
    (idf_dict : gmap string R) :
  map_to_list (query_vector query_lyrics_cnt idf_dict).1
  ≡ₚ query_items query_lyrics_cnt idf_dict.
Proof.
  rewrite query_vector_spec. simpl. apply NoDup_Permutation.
  - apply NoDup_map_to_list.
  - eapply NoDup_fmap_1, NoDup_query_items.
  - intros [t q]. rewrite elem_of_map_to_list, map_lookup_imap, elem_of_query_items.
    split.
    + destruct (query_lyrics_cnt !! t) as [cnt|]; [|done]. simpl.
      destruct (idf_dict !! t) as [idf|]; [|done]. intros [= <-]. eauto.
    + intros (cnt & idf & -> & Hi & ->). simpl. by rewrite Hi.
Qed.

#[global] Instance sum_for_Permutation d : Proper ((≡ₚ) ==> (=)) (sum_for d).
Proof. intros c1 c2 Hc. unfold sum_for. by rewrite Hc. Qed.

#[global] Instance dot_contribs_Permutation inv_idx idf_dict :
  Proper ((≡ₚ) ==> (≡ₚ)) (dot_contribs inv_idx idf_dict).
Proof. intros l1 l2 Hl. unfold dot_contribs. by rewrite Hl. Qed.

Lemma elem_of_dot_contribs (query_lyrics_cnt : gmap string Z)
    (inv_idx : gmap string postings) (idf_dict : gmap string R) d :
  d ∈ (dot_contribs inv_idx idf_dict (query_items query_lyrics_cnt idf_dict)).*1
  ↔ shares_token query_lyrics_cnt inv_idx idf_dict d.
Proof.
  unfold dot_contribs, shares_token. rewrite list_elem_of_fmap. split.
  - intros ([d' x] & -> & Hin). apply list_elem_of_bind in Hin as ([t q] & Hin & Htq).
    apply list_elem_of_fmap in Hin as ([d tf] & [= -> ->] & Hp).
    apply elem_of_query_items in Htq as (cnt & idf & Hc & Hi & _).
    exists t, cnt, idf, tf. done.
  - intros (t & cnt & idf & tf & Hc & Hi & Hp).
    exists (d, (IZR tf * default 0 (idf_dict !! t) * (IZR cnt * idf))%R).
    split; [done|]. apply list_elem_of_bind. exists (t, (IZR cnt * idf)%R). split.
    + apply list_elem_of_fmap. by exists (d, tf).
    + apply elem_of_query_items. eauto.
Qed.

(** The dictionary [doc_scores] after the second loop. *)
Lemma accumulate_scores_lookup (query_lyrics_cnt : gmap string Z)
    (inv_idx : gmap string postings) (idf_dict : gmap string R) :
  ∃ doc_scores,
    accumulate_scores inv_idx idf_dict (query_vector query_lyrics_cnt idf_dict).1
    = Ok doc_scores
    ∧ ∀ d, doc_scores !! d
           = if decide (d ∈ (dot_contribs inv_idx idf_dict
                               (query_items query_lyrics_cnt idf_dict)).*1)
             then Some (dot_for query_lyrics_cnt inv_idx idf_dict d)
             else None.
Proof.
  eexists. split.
  - apply accumulate_scores_contribs. intros t [q Hq].
    apply elem_of_map_to_list in Hq. rewrite query_items_Permutation in Hq.
    apply elem_of_query_items in Hq as (cnt & idf & _ & Hi & _). by eexists.
  - intros d. rewrite foldl_add_to_lookup, lookup_empty. unfold dot_for. simpl.
    pose proof (query_items_Permutation query_lyrics_cnt idf_dict) as Hp.
    assert (Heq : ∀ l1 l2 : list (string * R), l1 ≡ₚ l2 → (d ∈ l1.*1) ↔ (d ∈ l2.*1)).
    { intros l1 l2 Hl. by rewrite Hl. }
    destruct (decide (d ∈ _)) as [Hin|Hin].
    + rewrite decide_True.
      * f_equal. rewrite Hp. lra.
      * eapply Heq; [|exact Hin]. by rewrite Hp.
    + rewrite decide_False; [done|]. intros Hin'. apply Hin.
      eapply Heq; [|exact Hin']. by rewrite Hp.
Qed.

Lemma normalize_scores_covered (song_norms_dict : gmap string R) (query_norm : R)
    (doc_scores : gmap string R) :
  (∀ d, is_Some (doc_scores !! d) → is_Some (song_norms_dict !! d)) →
  normalize_scores song_norms_dict query_norm doc_scores
  = Ok (map_imap (fun d score => norm ← song_norms_dict !! d;
                                 Some (fdiv score (norm * query_norm)))
                 doc_scores).
Proof.
  intros Hcov. unfold normalize_scores. apply for_each_map_imap.
  intros acc d score Hd. destruct (Hcov d) as [norm Hn]; [by eexists|].
  by rewrite (getitem_Some _ _ _ Hn), Hn.
Qed.

Lemma normalize_scores_uncovered (song_norms_dict : gmap string R) (query_norm : R)
    (doc_scores : gmap string R) d :
  is_Some (doc_scores !! d) → song_norms_dict !! d = None →
  normalize_scores song_norms_dict query_norm doc_scores = Raise KeyError.
Proof.
  intros [score Hd] Hn. unfold normalize_scores.
  apply (for_each_raises _ _ _ (d, score)).
  - by apply elem_of_map_to_list.
  - intros b. by rewrite (getitem_None _ _ Hn).
  - intros b [d' s'] _. unfold getitem.
    destruct (song_norms_dict !! d'); simpl; eauto.
Qed.

(** [lyrics_sim] as a whole, when the norm table covers the songs met. *)
Lemma lyrics_sim_lookup (query_lyrics_cnt : gmap string Z)
    (inv_idx : gmap string postings) (idf_dict song_norms_dict : gmap string R) :
  (∀ d, shares_token query_lyrics_cnt inv_idx idf_dict d →
        is_Some (song_norms_dict !! d)) →
  ∃ scores,
    lyrics_sim query_lyrics_cnt inv_idx idf_dict song_norms_dict = Ok scores
    ∧ (∀ d, is_Some (scores !! d) ↔ shares_token query_lyrics_cnt inv_idx idf_dict d)
    ∧ (∀ d score norm,
         scores !! d = Some score → song_norms_dict !! d = Some norm →
         score = fdiv (dot_for query_lyrics_cnt inv_idx idf_dict d)
                      (norm * sqrt (query_norm_sq query_lyrics_cnt idf_dict))).
Proof.
  intros Hcov.
  destruct (accumulate_scores_lookup query_lyrics_cnt inv_idx idf_dict)
    as (doc_scores & Hacc & Hlook).
  assert (Hshare : ∀ d, is_Some (doc_scores !! d)
                        ↔ shares_token query_lyrics_cnt inv_idx idf_dict d).
  { intros d. rewrite Hlook, <- elem_of_dot_contribs.
    case_decide; (split; [intros [? ?]|intros ?]); try done; by eexists. }
  eexists. split_and!.
  - unfold lyrics_sim. rewrite (surjective_pairing (query_vector _ _)).
    rewrite Hacc, bind_Ok. apply normalize_scores_covered.
    intros d Hd. by apply Hcov, Hshare.
  - intros d. rewrite map_lookup_imap, <- Hshare. split.
    + intros [x Hx]. destruct (doc_scores !! d); [by eexists|done].
    + intros [s Hs]. destruct (Hcov d) as [norm Hn]; [apply Hshare; by eexists|].
      rewrite Hs. simpl. rewrite Hn. by eexists.
  - intros d score norm. rewrite map_lookup_imap, Hlook.
    rewrite query_vector_spec. simpl. case_decide; [|done]. simpl.
    intros Hs Hn. rewrite Hn in Hs. by injection Hs as <-.
Qed.

(** Conversely the call only returns when the table covers them. *)
Lemma lyrics_sim_Ok_covered (query_lyrics_cnt : gmap string Z)
    (inv_idx : gmap string postings) (idf_dict song_norms_dict : gmap string R) scores :
  lyrics_sim query_lyrics_cnt inv_idx idf_dict song_norms_dict = Ok scores →
  ∀ d, shares_token query_lyrics_cnt inv_idx idf_dict d →
       is_Some (song_norms_dict !! d).
Proof.
  intros Hok d Hd. destruct (song_norms_dict !! d) as [norm|] eqn:Hn; [by eexists|].
  destruct (accumulate_scores_lookup query_lyrics_cnt inv_idx idf_dict)
    as (doc_scores & Hacc & Hlook).
  unfold lyrics_sim in Hok. rewrite (surjective_pairing (query_vector _ _)) in Hok.
  rewrite Hacc, bind_Ok in Hok.
  rewrite (normalize_scores_uncovered _ _ _ d) in Hok; [done| |done].
  rewrite Hlook, decide_True; [by eexists|]. by apply elem_of_dot_contribs.
Qed.

(** ** The song norms *)

Lemma elem_of_norm_contribs (inv_idx : gmap string postings)
    (idf_dict : gmap string R) d :
  d ∈ (norm_contribs inv_idx idf_dict).*1
  ↔ ∃ word posting tf, inv_idx !! word = Some posting ∧ (d, tf) ∈ posting.
Proof.
  unfold norm_contribs. rewrite list_elem_of_fmap. split.
  - intros ([d' x] & -> & Hin).
    apply list_elem_of_bind in Hin as ([word posting] & Hin & Hw).
    apply list_elem_of_fmap in Hin as ([d tf] & [= -> ->] & Hp).
    apply elem_of_map_to_list in Hw. eauto.
  - intros (word & posting & tf & Hw & Hp).
    exists (d, Rsqr (IZR tf * default 0 (idf_dict !! word))%R). split; [done|].
    apply list_elem_of_bind. exists (word, posting). split.
    + apply list_elem_of_fmap. by exists (d, tf).
    + by apply elem_of_map_to_list.
Qed.

Lemma compute_song_norms_lookup (inv_idx : gmap string postings)
    (idf_dict : gmap string R) d :
  compute_song_norms inv_idx idf_dict !! d
  = if decide (d ∈ (norm_contribs inv_idx idf_dict).*1)
    then Some (sqrt (sum_for d (norm_contribs inv_idx idf_dict)))
    else None.
Proof.
  unfold compute_song_norms.
  rewrite lookup_fmap, song_norms_sq_contribs, foldl_add_to_lookup, lookup_empty.
  case_decide; [|done]. simpl. do 2 f_equal. lra.
Qed.

Lemma inv_get_elem_of (inv_idx : gmap string postings) word x :
  x ∈ inv_get inv_idx word ↔ ∃ posting, inv_idx !! word = Some posting ∧ x ∈ posting.
Proof.
  unfold inv_get. destruct (inv_idx !! word) as [posting|]; simpl.
  - split; [eauto|]. by intros (? & [= <-] & ?).
  - split; [by intros ?%elem_of_nil|]. by intros (? & ? & ?).
Qed.

Lemma compute_song_norms_covers (inv_idx : gmap string postings)
    (idf_dict : gmap string R) word posting d tf :
  inv_idx !! word = Some posting → (d, tf) ∈ posting →
  is_Some (compute_song_norms inv_idx idf_dict !! d).
Proof.
  intros Hw Hp. rewrite compute_song_norms_lookup.
  rewrite decide_True; [by eexists|]. apply elem_of_norm_contribs. eauto.
Qed.

Lemma lyrics_sim_returns (query_lyrics_cnt : gmap string Z)
    (inv_idx : gmap string postings) (idf_dict idf_dict' : gmap string R) :
  ∃ scores,
    lyrics_sim query_lyrics_cnt inv_idx idf_dict
               (compute_song_norms inv_idx idf_dict') = Ok scores.
Proof.
  destruct (lyrics_sim_lookup query_lyrics_cnt inv_idx idf_dict
              (compute_song_norms inv_idx idf_dict')) as (scores & Hs & _).
  - intros d (t & cnt & idf & tf & _ & _ & Hp).
    apply inv_get_elem_of in Hp as (posting & Hw & Hp).
    by eapply compute_song_norms_covers.
  - by exists scores.
Qed.

(** C10: the table built by [compute_song_norms] has an entry for every
    song of every posting list of the index, whatever the IDF table is;
    hence every song that [lyrics_sim] accumulates a score for has a norm,
    and [lyrics_sim] returns without a missing-key error. *)
Theorem lyrics_sim_norm_lookup_total (query_lyrics_cnt : gmap string Z)
    (inv_idx : gmap string postings) (idf_dict idf_dict' : gmap string R) :
  (∀ word posting d tf,
     inv_idx !! word = Some posting → (d, tf) ∈ posting →
     is_Some (compute_song_norms inv_idx idf_dict' !! d))
  ∧ (∀ d, shares_token query_lyrics_cnt inv_idx idf_dict d →
          is_Some (compute_song_norms inv_idx idf_dict' !! d))
  ∧ ∃ scores,
      lyrics_sim query_lyrics_cnt inv_idx idf_dict
                 (compute_song_norms inv_idx idf_dict') = Ok scores.
Proof.
  split_and!.
  - intros word posting d tf. apply compute_song_norms_covers.
  - intros d (t & cnt & idf & tf & _ & _ & Hp).
    apply inv_get_elem_of in Hp as (posting & Hw & Hp).
    by eapply compute_song_norms_covers.
  - apply lyrics_sim_returns.
Qed.

(** ** The value of a lyrical score *)

Lemma sum_for_postings d (h : Z → R) (posting : postings) :
  sum_for d ((fun '(uri, tf) => (uri, h tf)) <$> posting)
  = Rsum ((fun x => h x.2) <$> filter (fun x => x.1 = d) posting).
Proof.
  induction posting as [|[uri tf] posting IH]; [done|].
  rewrite fmap_cons, sum_for_cons, IH, filter_cons. simpl.
  destruct (decide (uri = d)); csimpl; lra.
Qed.

Lemma Rsum_omap {A B} (f : A → option B) (h : B → R) (l : list A) :
  Rsum (h <$> omap f l)
  = Rsum ((fun x => match f x with Some y => h y | None => 0%R end) <$> l).
Proof.
  induction l as [|x l IH]; [done|]. csimpl.
  destruct (f x); csimpl; rewrite IH; lra.
Qed.

Lemma Rsum_ext {A} (f g : A → R) (l : list A) :
  (∀ x, x ∈ l → f x = g x) → Rsum (f <$> l) = Rsum (g <$> l).
Proof.
  induction l as [|x l IH]; intros Hfg; [done|]. csimpl.
  rewrite (Hfg x) by left. rewrite IH; [done|]. intros y Hy. apply Hfg. by right.
Qed.

Lemma dot_for_shared_dot (query_lyrics_cnt : gmap string Z)
    (inv_idx : gmap string postings) (idf_dict : gmap string R) d :
  dot_for query_lyrics_cnt inv_idx idf_dict d
  = shared_dot query_lyrics_cnt inv_idx idf_dict d.
Proof.
  unfold dot_for, dot_contribs, shared_dot, query_items.
  rewrite sum_for_bind, Rsum_omap. apply Rsum_ext. intros [t cnt] _.
  destruct (idf_dict !! t) as [idf|] eqn:Ht; [|done]. simpl. rewrite Ht. simpl.
  rewrite (sum_for_postings d (fun tf => IZR tf * idf * (IZR cnt * idf))%R).
  apply Rsum_ext. intros x _. lra.
Qed.

(** C6: the map returned by [lyrics_sim] has a key for exactly the songs
    that share an IDF-eligible token with the query, and the value of a
    song is the sum, over the query's IDF-eligible tokens and the song's
    postings for them, of [(tf * idf) * (count * idf)], divided by the
    product of the song's norm and the query norm.  The call returns when
    the norm table has an entry for each of these songs. *)
Theorem lyrics_sim_sparse_cosine (query_lyrics_cnt : gmap string Z)
    (inv_idx : gmap string postings) (idf_dict song_norms_dict : gmap string R) :
  ((∀ d, shares_token query_lyrics_cnt inv_idx idf_dict d →
         is_Some (song_norms_dict !! d)) →
   ∃ scores,
     lyrics_sim query_lyrics_cnt inv_idx idf_dict song_norms_dict = Ok scores)
  ∧ ∀ scores,
      lyrics_sim query_lyrics_cnt inv_idx idf_dict song_norms_dict = Ok scores →
      (∀ d, is_Some (scores !! d)
            ↔ ∃ t cnt idf tf,
                query_lyrics_cnt !! t = Some cnt ∧ idf_dict !! t = Some idf
                ∧ (d, tf) ∈ inv_get inv_idx t)
      ∧ (∀ d score norm,
           scores !! d = Some score → song_norms_dict !! d = Some norm →
           score = fdiv (shared_dot query_lyrics_cnt inv_idx idf_dict d)
                        (norm * sqrt (query_norm_sq query_lyrics_cnt idf_dict))).
Proof.
  split.
  - intros Hcov.
    destruct (lyrics_sim_lookup _ _ _ _ Hcov) as (scores & Hs & _). by exists scores.
  - intros scores Hok.
    destruct (lyrics_sim_lookup _ _ _ _ (lyrics_sim_Ok_covered _ _ _ _ _ Hok))
      as (scores' & Hs & Hkeys & Hval).
    rewrite Hok in Hs. injection Hs as <-. split; [done|].
    intros d score norm Hd Hn. rewrite <- dot_for_shared_dot. eauto.
Qed.

Lemma lyrics_sim_sparse_cosine_witness :
  ∃ scores,
    lyrics_sim {[ "love" := 3%Z ]} {[ "love" := [("A", 2%Z)] ]}
               {[ "love" := 1%R ]} {[ "A" := 2%R ]} = Ok scores
    ∧ (is_Some (scores !! "A"))
    ∧ ¬ is_Some (scores !! "B").
Proof.
  destruct (lyrics_sim_sparse_cosine {[ "love" := 3%Z ]} {[ "love" := [("A", 2%Z)] ]}
              {[ "love" := 1%R ]} {[ "A" := 2%R ]}) as [Hret Hspec].
  destruct Hret as (scores & Hs).
  - intros d (t & cnt & idf & tf & Hc & _ & Hp).
    apply lookup_singleton_Some in Hc as [<- _].
    unfold inv_get in Hp. rewrite lookup_singleton_eq in Hp. simpl in Hp.
    apply list_elem_of_singleton in Hp as [= -> _].
    rewrite lookup_singleton_eq. by eexists.
  - destruct (Hspec scores Hs) as [Hkeys _].
    exists scores. split_and!; [done| |].
    + apply Hkeys. exists "love", 3%Z, 1%R, 2%Z.
      split_and!; [done|done|]. unfold inv_get. rewrite lookup_singleton_eq. by left.
    + intros (t & cnt & idf & tf & Hc & _ & Hp)%Hkeys.
      apply lookup_singleton_Some in Hc as [<- _].
      unfold inv_get in Hp. rewrite lookup_singleton_eq in Hp. simpl in Hp.
      by apply list_elem_of_singleton in Hp as [= ? _].
Defined.

(** ** The ranking order *)

Lemma feq_fneg a b : feq (fneg a) (fneg b) = feq a b.
Proof.
  destruct a as [x|s|], b as [y|t|]; simpl; try done.
  - apply bool_decide_ext. split; intros Hxy; [lra | by rewrite Hxy].
  - apply bool_decide_ext. destruct s, t; naive_solver.
Qed.

Lemma flt_fneg a b : flt (fneg a) (fneg b) = flt b a.
Proof.
  destruct a as [x|s|], b as [y|t|]; simpl; try done.
  - apply bool_decide_ext. lra.
  - by rewrite negb_involutive.
  - by rewrite negb_involutive, andb_comm.
Qed.

Lemma feq_eq a b : feq a b = true → a = b.
Proof.
  destruct a as [x|s|], b as [y|t|]; simpl; try done;
    intros ?%bool_decide_eq_true; by subst.
Qed.

Lemma feq_refl a : a ≠ NaN → feq a a = true.
Proof. destruct a; simpl; [| |done]; intros _; by apply bool_decide_eq_true. Qed.

Lemma flt_feq_false a b : feq a b = true → flt b a = false.
Proof.
  intros <-%feq_eq. destruct a as [x|s|]; simpl; [|by destruct s|done].
  apply bool_decide_eq_false. lra.
Qed.

Lemma flt_asym a b : flt a b = true → flt b a = false.
Proof.
  destruct a as [x|[]|], b as [y|[]|]; simpl; try done.
  intros ?%bool_decide_eq_true. apply bool_decide_eq_false. lra.
Qed.

Lemma flt_irrefl a : flt a a = false.
Proof. destruct (flt a a) eqn:Ha; [|done]. by rewrite (flt_asym _ _ Ha) in Ha. Qed.

Lemma flt_trans a b c : flt a b = true → flt b c = true → flt a c = true.
Proof.
  destruct a as [x|[]|], b as [y|[]|], c as [z|[]|]; simpl; try done.
  intros ?%bool_decide_eq_true ?%bool_decide_eq_true.
  apply bool_decide_eq_true. lra.
Qed.

Lemma flt_total a b : a ≠ NaN → b ≠ NaN → flt a b = true ∨ a = b ∨ flt b a = true.
Proof.
  destruct a as [x|[]|], b as [y|[]|]; simpl; try done; intros _ _; auto.
  destruct (Rtotal_order x y) as [?|[->|?]].
  - left. by apply bool_decide_eq_true.
  - by right; left.
  - right; right. by apply bool_decide_eq_true.
Qed.

Lemma string_ltb_lt s1 s2 : String.ltb s1 s2 = true ↔ OrderedTypeEx.String_as_OT.lt s1 s2.
Proof.
  rewrite <- OrderedTypeEx.String_as_OT.cmp_lt. unfold String.ltb, OrderedTypeEx.String_as_OT.cmp.
  by destruct (String.compare s1 s2).
Qed.

Lemma string_ltb_trans s1 s2 s3 :
  String.ltb s1 s2 = true → String.ltb s2 s3 = true → String.ltb s1 s3 = true.
Proof. rewrite !string_ltb_lt. apply OrderedTypeEx.String_as_OT.lt_trans. Qed.

Lemma string_ltb_irrefl s : String.ltb s s = false.
Proof.
  destruct (String.ltb s s) eqn:Hs; [|done].
  apply string_ltb_lt, OrderedTypeEx.String_as_OT.lt_not_eq in Hs. by destruct Hs.
Qed.

Lemma string_ltb_total s1 s2 :
  String.ltb s1 s2 = true ∨ s1 = s2 ∨ String.ltb s2 s1 = true.
Proof.
  unfold String.ltb. rewrite (String.compare_antisym s2 s1).
  destruct (String.compare s1 s2) eqn:Hc; simpl; auto.
  apply String.compare_eq_iff in Hc. auto.
Qed.

Lemma key_lt_ranks_before x y :
  key_lt (sort_key x) (sort_key y) = true ↔ ranks_before x y.
Proof.
  unfold key_lt, sort_key, ranks_before. simpl. rewrite feq_fneg, flt_fneg.
  destruct (feq x.2 y.2) eqn:Heq.
  - rewrite (flt_feq_false _ _ Heq). split; [auto|]. by intros [?|[_ ?]].
  - split; [auto|]. by intros [?|[? _]].
Qed.

Lemma ranks_before_trans x y z :
  ranks_before x y → ranks_before y z → ranks_before x z.
Proof.
  unfold ranks_before. intros [Hxy|[Hxy Hid]] [Hyz|[Hyz Hid']].
  - left. by eapply flt_trans.
  - left. by rewrite <- (feq_eq _ _ Hyz).
  - left. by rewrite (feq_eq _ _ Hxy).
  - right. split.
    + by rewrite (feq_eq _ _ Hxy).
    + by eapply string_ltb_trans.
Qed.

Lemma ranks_before_asym x y : ranks_before x y → ranks_before y x → False.
Proof.
  unfold ranks_before. intros [Hxy|[Hxy Hid]] [Hyx|[Hyx Hid']].
  - apply flt_asym in Hxy. congruence.
  - apply feq_eq in Hyx. rewrite Hyx, flt_irrefl in Hxy. done.
  - apply feq_eq in Hxy. rewrite Hxy, flt_irrefl in Hyx. done.
  - pose proof (string_ltb_trans _ _ _ Hid Hid') as Hirr.
    by rewrite string_ltb_irrefl in Hirr.
Qed.

Lemma ranks_before_total x y :
  x.2 ≠ NaN → y.2 ≠ NaN → ranks_before x y ∨ x = y ∨ ranks_before y x.
Proof.
  intros Hx Hy. unfold ranks_before.
  destruct (flt_total x.2 y.2 Hx Hy) as [?|[Heq|?]]; [auto| |auto].
  destruct (string_ltb_total x.1 y.1) as [?|[Hid|?]].
  - left. right. split; [|done]. rewrite Heq. by apply feq_refl.
  - right. left. destruct x, y; simpl in *; by subst.
  - right. right. right. split; [|done]. rewrite Heq. by apply feq_refl.
Qed.

Lemma insert_sorted_Permutation x l : insert_sorted x l ≡ₚ x :: l.
Proof.
  induction l as [|y l IH]; [done|]. simpl.
  destruct (key_lt _ _); [|done]. rewrite IH. apply perm_swap.
Qed.

Lemma sorted_Permutation items : sorted items ≡ₚ items.
Proof.
  induction items as [|x items IH]; [done|]. simpl.
  by rewrite insert_sorted_Permutation, IH.
Qed.

Lemma insert_sorted_StronglySorted x l :
  x.2 ≠ NaN → Forall (fun y => y.2 ≠ NaN) l → x ∉ l →
  StronglySorted ranks_before l →
  StronglySorted ranks_before (insert_sorted x l).
Proof.
  intros Hx. induction l as [|y l IH]; intros Hl Hin Hs.
  - repeat constructor.
  - apply Forall_cons in Hl as [Hy Hl]. apply not_elem_of_cons in Hin as [Hne Hin].
    apply StronglySorted_inv in Hs as [Hs Hyl]. simpl.
    destruct (key_lt (sort_key y) (sort_key x)) eqn:Hk.
    + apply key_lt_ranks_before in Hk. constructor; [by apply IH|].
      rewrite insert_sorted_Permutation. by constructor.
    + assert (Hxy : ranks_before x y).
      { destruct (ranks_before_total x y Hx Hy) as [?|[?|Hyx]]; [done..|].
        apply key_lt_ranks_before in Hyx. congruence. }
      constructor; [by constructor|]. constructor; [done|].
      eapply Forall_impl; [exact Hyl|]. intros z Hz. by eapply ranks_before_trans.
Qed.

Lemma sorted_StronglySorted items :
  NoDup items → Forall (fun y => y.2 ≠ NaN) items →
  StronglySorted ranks_before (sorted items).
Proof.
  induction items as [|x items IH]; intros Hnd Hnan; [constructor|].
  apply NoDup_cons in Hnd as [Hx Hnd]. apply Forall_cons in Hnan as [Hxn Hnan].
  simpl. apply insert_sorted_StronglySorted; [done| | |by apply IH].
  - by rewrite sorted_Permutation.
  - by rewrite sorted_Permutation.
Qed.

(** C5 (amended): when no fused score is [nan], the ranked list holds the
    items of the score map ordered by descending score, ties broken by
    ascending song id, and it is the same list whatever the order in which
    the dictionary hands out its items. *)
Theorem ranking_is_deterministic_order (averaged_scores : gmap string npfloat) :
  (∀ k, averaged_scores !! k ≠ Some NaN) →
  let ranked := sorted (map_to_list averaged_scores) in
  ranked ≡ₚ map_to_list averaged_scores
  ∧ StronglySorted ranks_before ranked
  ∧ ∀ items, items ≡ₚ map_to_list averaged_scores → sorted items = ranked.
Proof.
  intros Hnan ranked.
  assert (Hfin : Forall (fun y : string * npfloat => y.2 ≠ NaN)
                        (map_to_list averaged_scores)).
  { apply Forall_forall. intros [k s] Hks%elem_of_map_to_list Hs. simpl in Hs.
    subst. by eapply Hnan. }
  split_and!.
  - apply sorted_Permutation.
  - apply sorted_StronglySorted; [apply NoDup_map_to_list|done].
  - intros items Hitems.
    apply (StronglySorted_unique_strong ranks_before).
    + intros x1 x2 _ _ H12 H21. by destruct (ranks_before_asym _ _ H12 H21).
    + apply sorted_StronglySorted; rewrite Hitems; [apply NoDup_map_to_list|done].
    + apply sorted_StronglySorted; [apply NoDup_map_to_list|done].
    + unfold ranked. by rewrite !sorted_Permutation.
Qed.

Lemma ranking_is_deterministic_order_witness :
  let averaged_scores : gmap string npfloat := {[ "a" := Fin 1; "b" := Fin 2 ]} in
  sorted (map_to_list averaged_scores) ≡ₚ map_to_list averaged_scores
  ∧ StronglySorted ranks_before (sorted (map_to_list averaged_scores)).
Proof.
  intros averaged_scores.
  destruct (ranking_is_deterministic_order averaged_scores) as (Hperm & Hsorted & _).
  - intros k Hk. unfold averaged_scores in Hk.
    apply lookup_insert_Some in Hk as [[_ ?]|[_ Hk]]; [done|].
    by apply lookup_singleton_Some in Hk as [_ ?].
  - done.
Defined.

(** C5 as stated fails on a [nan] score: it compares false with every
    other key, so the three items below, taken in the insertion order "b",
    "a", "c" of the dictionary, are left as they came, the score 1 ahead of
    the score 2. *)
Lemma ranking_nan_counterexample :
  sorted [("b", Fin 1); ("a", NaN); ("c", Fin 2)]
  = [("b", Fin 1); ("a", NaN); ("c", Fin 2)]
  ∧ ¬ ranks_before ("c", Fin 2) ("a", NaN)
  ∧ ¬ ranks_before ("a", NaN) ("c", Fin 2)
  ∧ ranks_before ("c", Fin 2) ("b", Fin 1).
Proof.
  split_and!.
  - reflexivity.
  - by intros [?|[? _]].
  - by intros [?|[? _]].
  - left. simpl. apply bool_decide_eq_true. lra.
Qed.

(** ** Cauchy-Schwarz for the two scorers *)

Lemma Rsum_nonneg (l : list R) : Forall (fun x => 0 <= x)%R l → (0 <= Rsum l)%R.
Proof. induction 1; simpl; lra. Qed.

Lemma Rsum_sqr_nonneg {A} (f : A → R) (l : list A) : (0 <= Rsum ((fun x => Rsqr (f x)) <$> l))%R.
Proof.
  apply Rsum_nonneg, Forall_fmap, Forall_forall. intros x _. apply Rle_0_sqr.
Qed.

Lemma Rsum_scal {A} (f : A → R) (c : R) (l : list A) :
  Rsum ((fun x => f x * c)%R <$> l) = (Rsum (f <$> l) * c)%R.
Proof. induction l as [|x l IH]; csimpl; [lra|]. rewrite IH. lra. Qed.

Lemma cauchy_schwarz_step (A B D a b : R) :
  (0 <= A)%R → (0 <= B)%R → (D * D <= A * B)%R →
  ((a * b + D) * (a * b + D) <= (a * a + A) * (b * b + B))%R.
Proof.
  intros HA HB HD.
  assert (Hcross : (2 * (a * b) * D <= a * a * B + b * b * A)%R).
  { set (X := (a * a * B + b * b * A)%R). set (Y := (2 * (a * b) * D)%R).
    assert (HX : (0 <= X)%R) by (unfold X; nra).
    assert (HXY : (Y * Y <= X * X)%R).
    { unfold X, Y.
      pose proof (Rle_0_sqr (a * a * B - b * b * A)) as H1. unfold Rsqr in H1.
      assert (H2 : (0 <= (a * b) * (a * b) * (A * B - D * D))%R).
      { apply Rmult_le_pos; [apply Rle_0_sqr | lra]. }
      nra. }
    destruct (Rle_dec Y X) as [?|Hn]; [assumption|]. exfalso.
    assert (X < Y)%R by lra. nra. }
  nra.
Qed.

Lemma cauchy_schwarz {A} (a b : A → R) (l : list A) :
  (Rsqr (Rsum ((fun x => a x * b x) <$> l))
   <= Rsum ((fun x => Rsqr (a x)) <$> l) * Rsum ((fun x => Rsqr (b x)) <$> l))%R.
Proof.
  induction l as [|x l IH]; csimpl.
  - unfold Rsqr. lra.
  - pose proof (Rsum_sqr_nonneg a l) as HA. pose proof (Rsum_sqr_nonneg b l) as HB.
    unfold Rsqr in *. by apply cauchy_schwarz_step.
Qed.

Lemma dot_for_weights (query_lyrics_cnt : gmap string Z)
    (inv_idx : gmap string postings) (idf_dict : gmap string R) d :
  dot_for query_lyrics_cnt inv_idx idf_dict d
  = Rsum ((fun tq => doc_weight inv_idx idf_dict d tq.1 * tq.2)%R
            <$> query_items query_lyrics_cnt idf_dict).
Proof.
  unfold dot_for, dot_contribs. rewrite sum_for_bind. apply Rsum_ext.
  intros [t q] _.
  rewrite (sum_for_postings d (fun tf => IZR tf * default 0 (idf_dict !! t) * q)%R).
  unfold doc_weight. simpl. by rewrite <- Rsum_scal.
Qed.

Lemma filter_fst_absent (posting : postings) d :
  d ∉ posting.*1 → filter (fun x => x.1 = d) posting = [].
Proof.
  induction posting as [|[uri tf] posting IH]; [done|].
  rewrite fmap_cons, not_elem_of_cons. simpl. intros [Hne Hin].
  rewrite filter_cons_False by (simpl; congruence). by apply IH.
Qed.

Lemma filter_fst_unique (posting : postings) d :
  NoDup posting.*1 → (length (filter (fun x => x.1 = d) posting) ≤ 1)%nat.
Proof.
  induction posting as [|[uri tf] posting IH]; [simpl; lia|].
  rewrite fmap_cons, NoDup_cons. simpl. intros [Hin Hnd]. rewrite filter_cons. simpl.
  destruct (decide (uri = d)) as [->|Hne]; [|by apply IH].
  rewrite filter_fst_absent by done. simpl. lia.
Qed.

Lemma Rsum_sqr_short {A} (h : A → R) (l : list A) :
  (length l ≤ 1)%nat →
  Rsum ((fun x => Rsqr (h x)) <$> l) = Rsqr (Rsum (h <$> l)).
Proof.
  destruct l as [|x [|y l]]; simpl; intros Hl; [| |lia]; unfold Rsqr; lra.
Qed.

Lemma norm_sq_weights (inv_idx : gmap string postings) (idf_dict : gmap string R) d :
  well_formed_index inv_idx →
  sum_for d (norm_contribs inv_idx idf_dict)
  = Rsum ((fun w => Rsqr (doc_weight inv_idx idf_dict d w)) <$> (map_to_list inv_idx).*1).
Proof.
  intros Hwf. unfold norm_contribs. rewrite sum_for_bind, <- list_fmap_compose.
  apply Rsum_ext. intros [word posting] Hin%elem_of_map_to_list. simpl.
  rewrite (sum_for_postings d (fun tf => Rsqr (IZR tf * default 0 (idf_dict !! word))%R)).
  rewrite (Rsum_sqr_short (fun x => IZR x.2 * default 0 (idf_dict !! word))%R)
    by by eapply filter_fst_unique, Hwf.
  unfold doc_weight, inv_get. by rewrite Hin.
Qed.

Lemma Rsum_submseteq {A} (F : A → R) (l1 l2 : list A) :
  (∀ x, 0 <= F x)%R → l1 ⊆+ l2 → (Rsum (F <$> l1) <= Rsum (F <$> l2))%R.
Proof.
  intros HF. induction 1 as [|x l1 l2 _ IH|x y l|x l1 l2 _ IH|l1 l2 l3 _ IH1 _ IH2];
    csimpl; try lra.
  specialize (HF x). lra.
Qed.

Lemma Rsum_filter_support {A} (F : A → R) (P : A → Prop) `{∀ x, Decision (P x)}
    (l : list A) :
  (∀ x, x ∈ l → ¬ P x → F x = 0%R) →
  Rsum (F <$> filter P l) = Rsum (F <$> l).
Proof.
  induction l as [|x l IH]; intros Hz; [done|]. rewrite filter_cons.
  assert (IH' : Rsum (F <$> filter P l) = Rsum (F <$> l)).
  { apply IH. intros y Hy. apply Hz. by right. }
  destruct (decide (P x)) as [HP|HP]; csimpl; rewrite IH'; [done|].
  rewrite (Hz x) by (done || left). lra.
Qed.

Lemma Rsum_le_support {A} `{EqDecision A} (F : A → R) (l1 l2 : list A) :
  NoDup l1 → (∀ x, 0 <= F x)%R →
  (∀ x, x ∈ l1 → x ∉ l2 → F x = 0%R) →
  (Rsum (F <$> l1) <= Rsum (F <$> l2))%R.
Proof.
  intros Hnd HF Hz. rewrite <- (Rsum_filter_support F (fun x => x ∈ l2) l1) by done.
  apply Rsum_submseteq; [done|]. apply NoDup_submseteq.
  - by apply NoDup_filter.
  - intros x Hx%list_elem_of_filter. tauto.
Qed.

Lemma doc_weight_absent (inv_idx : gmap string postings) (idf_dict : gmap string R) d t :
  t ∉ (map_to_list inv_idx).*1 → doc_weight inv_idx idf_dict d t = 0%R.
Proof.
  intros Hin. unfold doc_weight, inv_get.
  destruct (inv_idx !! t) as [posting|] eqn:Ht; [|done].
  destruct Hin. apply list_elem_of_fmap. exists (t, posting).
  split; [done|]. by apply elem_of_map_to_list.
Qed.

Lemma query_norm_sq_nonneg (query_lyrics_cnt : gmap string Z) (idf_dict : gmap string R) :
  (0 <= query_norm_sq query_lyrics_cnt idf_dict)%R.
Proof.
  unfold query_norm_sq. apply Rsum_nonneg, Forall_fmap, Forall_forall.
  intros x _. apply Rle_0_sqr.
Qed.

Lemma lyrics_cauchy_schwarz (query_lyrics_cnt : gmap string Z)
    (inv_idx : gmap string postings) (idf_dict : gmap string R) d :
  well_formed_index inv_idx →
  (Rsqr (dot_for query_lyrics_cnt inv_idx idf_dict d)
   <= sum_for d (norm_contribs inv_idx idf_dict)
      * query_norm_sq query_lyrics_cnt idf_dict)%R.
Proof.
  intros Hwf. rewrite dot_for_weights, norm_sq_weights by done.
  etrans; [apply (cauchy_schwarz (fun tq => doc_weight inv_idx idf_dict d tq.1) snd)|].
  unfold query_norm_sq. rewrite <- (list_fmap_compose snd Rsqr).
  apply Rmult_le_compat_r; [apply (Rsum_sqr_nonneg snd)|].
  assert (Hfst : Rsum ((fun tq : string * R => Rsqr (doc_weight inv_idx idf_dict d tq.1))
                         <$> query_items query_lyrics_cnt idf_dict)
                 = Rsum ((fun t => Rsqr (doc_weight inv_idx idf_dict d t))
                           <$> (query_items query_lyrics_cnt idf_dict).*1)).
  { by rewrite <- list_fmap_compose. }
  rewrite Hfst. apply Rsum_le_support.
  - apply NoDup_query_items.
  - intros t. apply Rle_0_sqr.
  - intros t _ Hin. rewrite doc_weight_absent by done. apply Rsqr_0.
Qed.

Lemma fdiv_cosine_value (dot norm_sq query_sq : R) :
  (0 <= norm_sq)%R → (0 <= query_sq)%R → (Rsqr dot <= norm_sq * query_sq)%R →
  cosine_value (fdiv dot (sqrt norm_sq * sqrt query_sq)) (sqrt norm_sq) (sqrt query_sq).
Proof.
  intros Hn Hq Hcs. unfold cosine_value, fdiv.
  pose proof (sqrt_pos norm_sq) as Hsn. pose proof (sqrt_pos query_sq) as Hsq.
  pose proof (sqrt_sqrt _ Hn) as Hnn. pose proof (sqrt_sqrt _ Hq) as Hqq.
  set (sn := sqrt norm_sq) in *. set (sq := sqrt query_sq) in *.
  destruct (decide ((sn * sq)%R = 0%R)) as [Hz|Hz].
  - left. split; [done|]. rewrite decide_True; [done|].
    assert (norm_sq * query_sq = 0)%R by nra.
    unfold Rsqr in Hcs. nra.
  - right. split; [done|]. eexists. split; [done|].
    assert (Hpos : (0 < sn * sq)%R) by nra.
    assert (Hsqr : (Rsqr dot <= Rsqr (sn * sq))%R) by (unfold Rsqr in *; nra).
    apply Rsqr_le_abs_0 in Hsqr. rewrite (Rabs_pos_eq (sn * sq)) in Hsqr by lra.
    assert (Hdot : (- (sn * sq) <= dot <= sn * sq)%R).
    { unfold Rabs in Hsqr. destruct (Rcase_abs dot); lra. }
    assert (Hr : (dot / (sn * sq) * (sn * sq) = dot)%R).
    { unfold Rdiv. rewrite Rmult_assoc, Rinv_l by exact Hz. lra. }
    split; nra.
Qed.

Lemma cosine_value_comm v a b : cosine_value v a b → cosine_value v b a.
Proof. unfold cosine_value. by rewrite (Rmult_comm b a). Qed.

Lemma norm_sq_nonneg (inv_idx : gmap string postings) (idf_dict : gmap string R) d :
  (0 <= sum_for d (norm_contribs inv_idx idf_dict))%R.
Proof.
  unfold sum_for. apply Rsum_nonneg, Forall_fmap, Forall_forall.
  intros [d' x] [_ Hin]%list_elem_of_filter. simpl. unfold norm_contribs in Hin.
  apply list_elem_of_bind in Hin as ([word posting] & Hin & _).
  apply list_elem_of_fmap in Hin as ([uri tf] & [= _ ->] & _). apply Rle_0_sqr.
Qed.

(** The lyrical scores over an index with the data-model invariant and the
    norms that [compute_song_norms] derives from it. *)
Lemma lyrics_sim_cosine_value (query_lyrics_cnt : gmap string Z)
    (inv_idx : gmap string postings) (idf_dict : gmap string R) scores :
  well_formed_index inv_idx →
  lyrics_sim query_lyrics_cnt inv_idx idf_dict (compute_song_norms inv_idx idf_dict)
  = Ok scores →
  ∀ d v, scores !! d = Some v →
    ∃ norm, compute_song_norms inv_idx idf_dict !! d = Some norm
            ∧ cosine_value v norm (sqrt (query_norm_sq query_lyrics_cnt idf_dict)).
Proof.
  intros Hwf Hok d v Hv.
  destruct (lyrics_sim_lookup _ _ _ _ (lyrics_sim_Ok_covered _ _ _ _ _ Hok))
    as (scores' & Hs & Hkeys & Hval).
  rewrite Hok in Hs. injection Hs as <-.
  destruct (lyrics_sim_Ok_covered _ _ _ _ _ Hok d) as [norm Hn].
  { apply Hkeys. by eexists. }
  exists norm. split; [done|]. rewrite (Hval _ _ _ Hv Hn).
  rewrite compute_song_norms_lookup in Hn. case_decide; [|done].
  injection Hn as <-. apply fdiv_cosine_value.
  - apply norm_sq_nonneg.
  - apply query_norm_sq_nonneg.
  - by apply lyrics_cauchy_schwarz.
Qed.

(** *** The audio scorer *)

Lemma matrix_dot_lookup (af_matrix : list (list R)) (q : list R) dots :
  matrix_dot af_matrix q = Ok dots →
  length dots = length af_matrix
  ∧ ∀ i row, af_matrix !! i = Some row →
             length row = length q
             ∧ dots !! i = Some (Rsum (zip_with Rmult row q)).
Proof.
  revert dots. induction af_matrix as [|row0 rest IH]; intros dots.
  - intros [= <-]. split; [done|]. intros i row. by rewrite lookup_nil.
  - simpl. unfold row_dot. case_decide as Hlen; [|done]. rewrite bind_Ok.
    destruct (matrix_dot rest q) as [ds|] eqn:Hrest; [|done]. rewrite bind_Ok.
    intros [= <-]. destruct (IH ds eq_refl) as [Hl Hrows]. split; [simpl; by f_equal|].
    intros [|i] row; simpl; [by intros [= <-]|]. apply Hrows.
Qed.

Lemma zip_cauchy_schwarz (row q : list R) :
  length row = length q →
  (Rsqr (Rsum (zip_with Rmult row q))
   <= Rsum (Rsqr <$> row) * Rsum (Rsqr <$> q))%R.
Proof.
  intros Hlen.
  assert (Hz : zip_with Rmult row q = (fun p => p.1 * p.2)%R <$> zip row q).
  { rewrite zip_with_zip. apply list_fmap_ext. by intros i [x y] _. }
  rewrite Hz. etrans; [apply (cauchy_schwarz fst snd)|].
  assert (Ha : Rsum ((fun x : R * R => Rsqr x.1) <$> zip row q) = Rsum (Rsqr <$> row)).
  { transitivity (Rsum (Rsqr <$> (zip row q).*1)).
    - by rewrite <- list_fmap_compose.
    - by rewrite fst_zip by lia. }
  assert (Hb : Rsum ((fun x : R * R => Rsqr x.2) <$> zip row q) = Rsum (Rsqr <$> q)).
  { transitivity (Rsum (Rsqr <$> (zip row q).*2)).
    - by rewrite <- list_fmap_compose.
    - by rewrite snd_zip by lia. }
  by rewrite Ha, Hb.
Qed.

Lemma np_divide_same_length (a b : list R) :
  length a = length b → np_divide a b = Ok (zip_with fdiv a b).
Proof. intros Hlen. unfold np_divide. by rewrite decide_True. Qed.

Lemma collect_values (m : gmap string R) (l : list string) (init : list R) :
  (∀ k, k ∈ l → is_Some (m !! k)) →
  for_each (fun acc x => v ← getitem m x; Ok (acc ++ [v])) l init
  = Ok (init ++ ((fun k => default 0%R (m !! k)) <$> l)).
Proof.
  revert init. induction l as [|k l IH]; intros init Hall.
  - by rewrite for_each_nil, app_nil_r.
  - rewrite for_each_cons. destruct (Hall k) as [v Hv]; [by left|].
    rewrite (getitem_Some _ _ _ Hv), bind_Ok. cbn [mbind res_bind].
    rewrite IH by (intros k' Hk'; apply Hall; by right).
    csimpl. rewrite Hv. simpl. by rewrite <- app_assoc.
Qed.

Lemma collect_values_missing (m : gmap string R) (l : list string) (init : list R) k :
  k ∈ l → m !! k = None →
  for_each (fun acc x => v ← getitem m x; Ok (acc ++ [v])) l init = Raise KeyError.
Proof.
  intros Hk Hnone. apply (for_each_raises _ _ _ k); [done| |].
  - intros b. by rewrite (getitem_None _ _ Hnone).
  - intros b y _. unfold getitem. destruct (m !! y); simpl; eauto.
Qed.

Lemma af_sim_unfold (query_af : audio_features) (af_matrix : list (list R))
    (af_song_norms : list R) (ix_to_uri : gmap Z string) (scaler : StandardScaler)
    (indices : option (list Z)) :
  (∀ k, k ∈ AF_COLS → is_Some (af_values query_af !! k)) →
  af_sim query_af af_matrix af_song_norms ix_to_uri scaler indices
  = (let query_vec := feature_vector query_af scaler in
     dots ← matrix_dot af_matrix query_vec;
     scores ← np_divide dots ((fun n => linalg_norm query_vec * n)%R <$> af_song_norms);
     let ixs := match indices with
                | Some (i :: l) => i :: l
                | _ => Z.of_nat <$> seq 0 (length scores)
                end in
     for_each (fun scores_dict i =>
                 uri ← getitem ix_to_uri i;
                 s ← scores_getitem scores i;
                 Ok (<[uri := s]> scores_dict))
              ixs ∅).
Proof.
  intros Hall. unfold af_sim. rewrite (collect_values _ _ _ Hall), bind_Ok.
  reflexivity.
Qed.

Lemma scores_getitem_index (scores : list npfloat) (i : Z) v :
  scores_getitem scores i = Ok v →
  let j := if bool_decide (i < 0)%Z then (i + Z.of_nat (length scores))%Z else i in
  (0 ≤ j)%Z ∧ scores !! Z.to_nat j = Some v.
Proof.
  unfold scores_getitem. cbv zeta. case_bool_decide as Hj; [|done].
  destruct (scores !! _) eqn:Hs; [|done]. by intros [= <-].
Qed.

Lemma scores_dict_lookup_index (ix_to_uri : gmap Z string) (scores : list npfloat)
    (ixs : list Z) (init scores_dict : gmap string npfloat) uri v :
  for_each (fun scores_dict i =>
              uri ← getitem ix_to_uri i;
              s ← scores_getitem scores i;
              Ok (<[uri := s]> scores_dict)) ixs init = Ok scores_dict →
  scores_dict !! uri = Some v →
  init !! uri = Some v
  ∨ ∃ i, i ∈ ixs ∧ ix_to_uri !! i = Some uri ∧ scores_getitem scores i = Ok v.
Proof.
  revert init. induction ixs as [|i ixs IH]; intros init.
  - intros [= <-]. auto.
  - rewrite for_each_cons. destruct (ix_to_uri !! i) as [u|] eqn:Hu;
      [rewrite (getitem_Some _ _ _ Hu)|by rewrite (getitem_None _ _ Hu)].
    rewrite bind_Ok. destruct (scores_getitem scores i) as [s|] eqn:Hs; [|done].
    rewrite !bind_Ok. intros Hrest Hv.
    destruct (IH _ Hrest Hv) as [Hin|(j & Hj & Hju & Hjs)].
    + destruct (decide (u = uri)) as [->|Hne].
      * rewrite lookup_insert_eq in Hin. injection Hin as ->.
        right. exists i. split_and!; [by left|done|done].
      * rewrite lookup_insert_ne in Hin by done. auto.
    + right. exists j. split_and!; [by right|done|done].
Qed.

(** The audio scores over a matrix and the norms of its rows: the score
    stored for a URI is the cosine of the query vector and of the row
    whose index carries the URI. *)
Lemma af_sim_cosine_value (query_af : audio_features) (af_matrix : list (list R))
    (ix_to_uri : gmap Z string) (scaler : StandardScaler)
    (indices : option (list Z)) scores :
  af_sim query_af af_matrix (row_norms af_matrix) ix_to_uri scaler indices
  = Ok scores →
  ∀ uri v, scores !! uri = Some v →
    ∃ i row,
      ix_to_uri !! i = Some uri ∧ matrix_row af_matrix i = Some row
      ∧ cosine_value v (linalg_norm row)
                     (linalg_norm (feature_vector query_af scaler)).
Proof.
  destruct (decide (Forall (fun k => is_Some (af_values query_af !! k)) AF_COLS))
    as [Hall|Hnot].
  - rewrite Forall_forall in Hall. rewrite af_sim_unfold by done. cbv zeta.
    set (query_vec := feature_vector query_af scaler). unfold row_norms.
    destruct (matrix_dot af_matrix query_vec) as [dots|] eqn:Hdots; [|done].
    rewrite bind_Ok. apply matrix_dot_lookup in Hdots as [Hlen Hrows].
    rewrite np_divide_same_length by by rewrite !length_fmap.
    rewrite bind_Ok. intros Hdict uri v Hv.
    set (quot := zip_with fdiv dots _) in *.
    assert (Hqlen : length quot = length af_matrix).
    { unfold quot. rewrite length_zip_with, !length_fmap. lia. }
    destruct (scores_dict_lookup_index _ _ _ _ _ _ _ Hdict Hv)
      as [?|(i & _ & Hu & Hget)]; [done|].
    apply scores_getitem_index in Hget as [Hj0 Hj]. rewrite Hqlen in Hj0, Hj.
    unfold quot in Hj.
    apply lookup_zip_with_Some in Hj as (dot & n & -> & Hdot & Hn).
    rewrite !list_lookup_fmap in Hn.
    destruct (af_matrix !! _) as [row|] eqn:Hrow; [|done]. injection Hn as <-.
    destruct (Hrows _ _ Hrow) as [Hrl Hd]. rewrite Hdot in Hd. injection Hd as ->.
    exists i, row. split_and!; [done| |].
    + unfold matrix_row. cbv zeta. by rewrite bool_decide_eq_true_2.
    + apply cosine_value_comm. unfold linalg_norm. apply fdiv_cosine_value.
      * apply Rsum_nonneg, Forall_fmap, Forall_forall. intros x _. apply Rle_0_sqr.
      * apply Rsum_nonneg, Forall_fmap, Forall_forall. intros x _. apply Rle_0_sqr.
      * rewrite Rmult_comm. by apply zip_cauchy_schwarz.
  - apply not_Forall_Exists, Exists_exists in Hnot as (k & Hk & Hn); [|apply _].
    assert (Hnone : af_values query_af !! k = None).
    { destruct (af_values query_af !! k) eqn:Hv; [|done]. exfalso. apply Hn.
      by eexists. }
    unfold af_sim. by rewrite (collect_values_missing _ _ _ k Hk Hnone).
Qed.

(** C1 (amended): over an index in which a song occurs at most once per
    posting list, with the norms built by [compute_song_norms], every value
    of the map returned by [lyrics_sim] is a number of [-1, 1] when the
    song's norm and the query norm are both non-zero, and is [nan] when one
    of them is zero; the same holds for [af_sim] over a matrix and the
    norms of its rows, the song's norm being the norm of the row whose
    index carries the song's URI and the query norm that of the scaled
    feature vector of the query.  No value is infinite, and none is set to
    0 for a zero norm. *)
Theorem scores_in_range_or_nan :
  (∀ (query_lyrics_cnt : gmap string Z) (inv_idx : gmap string postings)
     (idf_dict : gmap string R) scores,
     well_formed_index inv_idx →
     lyrics_sim query_lyrics_cnt inv_idx idf_dict
                (compute_song_norms inv_idx idf_dict) = Ok scores →
     ∀ d v, scores !! d = Some v →
       ∃ norm, compute_song_norms inv_idx idf_dict !! d = Some norm
               ∧ cosine_value v norm (sqrt (query_norm_sq query_lyrics_cnt idf_dict)))
  ∧ (∀ (query_af : audio_features) (af_matrix : list (list R))
       (ix_to_uri : gmap Z string) (scaler : StandardScaler)
       (indices : option (list Z)) scores,
       af_sim query_af af_matrix (row_norms af_matrix) ix_to_uri scaler indices
       = Ok scores →
       ∀ uri v, scores !! uri = Some v →
         ∃ i row,
           ix_to_uri !! i = Some uri ∧ matrix_row af_matrix i = Some row
           ∧ cosine_value v (linalg_norm row)
                          (linalg_norm (feature_vector query_af scaler))).
Proof.
  split.
  - apply lyrics_sim_cosine_value.
  - apply af_sim_cosine_value.
Qed.

(** A token found in one of two documents has the IDF [log2 (2/2) = 0]. *)
Lemma zero_idf_example :
  compute_idf {[ "a" := [("s", 1%Z)] ]} 2 1 1 = Ok {[ "a" := 0%R ]}.
Proof.
  unfold compute_idf, for_each. rewrite map_to_list_singleton. simpl.
  rewrite bool_decide_eq_true_2 by lra. rewrite insert_empty.
  do 2 f_equal. unfold log2. replace ((1 + 1) / (1 + 1))%R with 1%R by lra.
  rewrite ln_1. lra.
Qed.

Lemma zero_norm_example :
  compute_song_norms {[ "a" := [("s", 1%Z)] ]} {[ "a" := 0%R ]} = {[ "s" := 0%R ]}.
Proof.
  unfold compute_song_norms, song_norms_sq. rewrite map_to_list_singleton. simpl.
  rewrite lookup_empty, lookup_singleton_eq, insert_empty, map_fmap_singleton. simpl.
  f_equal. replace (0 + Rsqr (1 * 0))%R with 0%R by (unfold Rsqr; lra).
  apply sqrt_0.
Qed.

Lemma nan_score_example :
  lyrics_sim {[ "a" := 1%Z ]} {[ "a" := [("s", 1%Z)] ]} {[ "a" := 0%R ]}
             {[ "s" := 0%R ]}
  = Ok {[ "s" := NaN ]}.
Proof.
  unfold lyrics_sim, query_vector. rewrite map_to_list_singleton. simpl.
  rewrite lookup_singleton_eq, insert_empty.
  unfold accumulate_scores, for_each. rewrite map_to_list_singleton. simpl.
  unfold inv_get. rewrite lookup_singleton_eq. simpl.
  unfold getitem. rewrite lookup_singleton_eq. simpl.
  rewrite lookup_empty, insert_empty. simpl.
  unfold normalize_scores, for_each. rewrite map_to_list_singleton. simpl.
  unfold getitem. rewrite lookup_singleton_eq. simpl. rewrite insert_empty.
  do 2 f_equal. unfold fdiv.
  replace (0 + Rsqr (1 * 0))%R with 0%R by (unfold Rsqr; lra). rewrite sqrt_0.
  rewrite decide_True by lra. rewrite decide_True by lra. done.
Qed.

(** Two songs whose standardized features are all zero: their norms are 0
    and both scores are [nan], whatever the query. *)
Lemma zero_rows_example :
  let zeros := replicate 12 0%R in
  let query_af :=
    {| af_values := list_to_map ((fun k => (k, 1%R)) <$> AF_COLS);
       af_artist_name := ""; af_track_name := ""; af_uri := "q" |} in
  af_sim query_af [zeros; zeros] (row_norms [zeros; zeros])
         {[ 0%Z := "u0"; 1%Z := "u1" ]} {| transform := fun v => v |} None
  = Ok {[ "u0" := NaN; "u1" := NaN ]}.
Proof.
  intros zeros query_af. unfold af_sim.
  assert (Hraw : for_each (fun acc x => v ← getitem (af_values query_af) x;
                                        Ok (acc ++ [v])) AF_COLS []
                 = Ok (replicate 12 1%R)) by reflexivity.
  rewrite Hraw, bind_Ok. cbn [transform].
  assert (Hnorm : linalg_norm zeros = 0%R).
  { unfold linalg_norm, zeros. simpl. unfold Rsqr.
    replace (0 * 0 + (0 * 0 + (0 * 0 + (0 * 0 + (0 * 0 + (0 * 0 + (0 * 0 + (0 * 0
             + (0 * 0 + (0 * 0 + (0 * 0 + (0 * 0 + 0))))))))))))%R with 0%R by lra.
    apply sqrt_0. }
  assert (Hdots : matrix_dot [zeros; zeros] (replicate 12 1%R) = Ok [0%R; 0%R]).
  { unfold zeros. simpl. unfold row_dot. simpl. do 3 f_equal; lra. }
  rewrite Hdots. cbn [mbind res_bind]. unfold row_norms.
  rewrite !fmap_cons, Hnorm. unfold np_divide. cbn [length zip_with fmap list_fmap].
  rewrite decide_True by done. cbn [mbind res_bind]. unfold fdiv.
  rewrite !(decide_True (P := (linalg_norm (replicate 12 1) * 0)%R = 0%R)) by lra.
  rewrite decide_True by done. reflexivity.
Qed.

(** C1 as stated fails, for both scorers.  Lyrics: one song, one token
    found in one of two documents; the token's IDF is [log2 (2/2) = 0], the
    song's norm and the query norm are 0, and the score is [0/0 = nan], not
    0.  Audio: two rows of zeros have the norm 0 and the score [nan]. *)
Lemma zero_norm_counterexample :
  let inv_idx : gmap string postings := {[ "a" := [("s", 1%Z)] ]} in
  let zeros := replicate 12 0%R in
  compute_idf inv_idx 2 1 1 = Ok {[ "a" := 0%R ]}
  ∧ compute_song_norms inv_idx {[ "a" := 0%R ]} = {[ "s" := 0%R ]}
  ∧ lyrics_sim {[ "a" := 1%Z ]} inv_idx {[ "a" := 0%R ]} {[ "s" := 0%R ]}
    = Ok {[ "s" := NaN ]}
  ∧ af_sim {| af_values := list_to_map ((fun k => (k, 1%R)) <$> AF_COLS);
              af_artist_name := ""; af_track_name := ""; af_uri := "q" |}
           [zeros; zeros] (row_norms [zeros; zeros])
           {[ 0%Z := "u0"; 1%Z := "u1" ]} {| transform := fun v => v |} None
    = Ok {[ "u0" := NaN; "u1" := NaN ]}.
Proof.
  intros inv_idx zeros. unfold inv_idx. split_and!.
  - apply zero_idf_example.
  - apply zero_norm_example.
  - apply nan_score_example.
  - apply zero_rows_example.
Qed.

Lemma scores_in_range_or_nan_witness :
  (∃ scores,
     lyrics_sim {[ "love" := 3%Z ]} {[ "love" := [("A", 2%Z)] ]} {[ "love" := 1%R ]}
                (compute_song_norms {[ "love" := [("A", 2%Z)] ]} {[ "love" := 1%R ]})
     = Ok scores
     ∧ ∀ d v, scores !! d = Some v →
         ∃ norm,
           compute_song_norms {[ "love" := [("A", 2%Z)] ]} {[ "love" := 1%R ]} !! d
           = Some norm
           ∧ cosine_value v norm (sqrt (query_norm_sq {[ "love" := 3%Z ]}
                                                       {[ "love" := 1%R ]})))
  ∧ (let zeros := replicate 12 0%R in
     let query_af :=
       {| af_values := list_to_map ((fun k => (k, 1%R)) <$> AF_COLS);
          af_artist_name := ""; af_track_name := ""; af_uri := "q" |} in
     let ix_to_uri : gmap Z string := {[ 0%Z := "u0"; 1%Z := "u1" ]} in
     ∃ i row,
       ix_to_uri !! i = Some "u0" ∧ matrix_row [zeros; zeros] i = Some row
       ∧ cosine_value NaN (linalg_norm row)
           (linalg_norm (feature_vector query_af {| transform := fun v => v |}))).
Proof.
  split.
  - destruct (lyrics_sim_returns
                {[ "love" := 3%Z ]} {[ "love" := [("A", 2%Z)] ]}
                {[ "love" := 1%R ]} {[ "love" := 1%R ]}) as (scores & Hs).
    exists scores. split; [done|].
    apply (proj1 scores_in_range_or_nan); [|done].
    intros word posting [<- <-]%lookup_singleton_Some.
    simpl. apply NoDup_singleton.
  - intros zeros query_af ix_to_uri.
    apply (proj2 scores_in_range_or_nan query_af [zeros; zeros] ix_to_uri
             {| transform := fun v => v |} None {[ "u0" := NaN; "u1" := NaN ]}).
    + apply zero_rows_example.
    + reflexivity.
Defined.

(** ** The inverted index *)

Section inverted_index.
Variable stopwords : gset string.
Variable isalpha : string → bool.

Lemma make_inv_idx_state_items lyrics_dict remove_stopwords :
  make_inv_idx_state stopwords isalpha lyrics_dict remove_stopwords
  = foldl (fun st '(uri, word, val) => add_posting st uri word val) (∅, ∅, 0%nat)
          (indexed_items stopwords isalpha lyrics_dict remove_stopwords).
Proof.
  unfold make_inv_idx_state, indexed_items. rewrite foldl_bind.
  apply foldl_ext. intros st [uri cnt]. generalize (map_to_list cnt). intros l.
  revert st. induction l as [|[word val] l IH]; intros st; [done|]. csimpl.
  unfold indexed at 1. destruct remove_stopwords.
  - destruct (bool_decide (word ∉ stopwords) && isalpha word); csimpl; apply IH.
  - csimpl. apply IH.
Qed.

Lemma add_posting_fold (items : list (string * string * Z)) (st : index_state) word :
  inv_get (foldl (fun st '(uri, word, val) => add_posting st uri word val) st items).1.1
          word
  = inv_get st.1.1 word ++ select_word word items.
Proof.
  revert st. induction items as [|[[uri word'] val] items IH]; intros st.
  - simpl. by rewrite app_nil_r.
  - cbn [foldl]. rewrite IH. destruct st as [[inv_idx word_to_ix] word_ix].
    unfold add_posting at 1. csimpl.
    assert (Hinv : ∀ st' : index_state,
      (match word_to_ix !! word' with
       | None => (st'.1.1, <[word' := word_ix]> word_to_ix, S word_ix)
       | Some _ => (st'.1.1, word_to_ix, word_ix)
       end).1.1 = st'.1.1).
    { intros st'. by destruct (word_to_ix !! word'). }
    destruct (word_to_ix !! word'); simpl; unfold inv_get at 1;
      (destruct (decide (word' = word)) as [->|Hne];
       [rewrite lookup_insert_eq; simpl; by rewrite <- app_assoc
       |by rewrite lookup_insert_ne by done]).
Qed.

Lemma add_posting_fold_keys (items : list (string * string * Z)) (st : index_state) word :
  is_Some ((foldl (fun st '(uri, word, val) => add_posting st uri word val) st items).1.1
             !! word)
  ↔ is_Some (st.1.1 !! word) ∨ ∃ uri val, (uri, word, val) ∈ items.
Proof.
  revert st. induction items as [|[[uri word'] val] items IH]; intros st.
  - simpl. split; [auto|]. intros [?|(? & ? & ?%elem_of_nil)]; done.
  - cbn [foldl]. rewrite IH. destruct st as [[inv_idx word_to_ix] word_ix].
    assert (Hinv : (add_posting (inv_idx, word_to_ix, word_ix) uri word' val).1.1
                   = <[word' := inv_get inv_idx word' ++ [(uri, val)]]> inv_idx).
    { unfold add_posting. by destruct (word_to_ix !! word'). }
    rewrite Hinv. simpl. rewrite lookup_insert_is_Some. split.
    + intros [[->|[_ ?]]|(u & v & Hin)]; [right|by left|right].
      * exists uri, val. by left.
      * exists u, v. by right.
    + intros [?|(u & v & Hin)].
      * destruct (decide (word' = word)); auto.
      * apply elem_of_cons in Hin as [[= -> -> ->]|Hin]; [auto|]. right. eauto.
Qed.
End inverted_index.

Lemma elem_of_select_word word (items : list (string * string * Z)) uri val :
  (uri, val) ∈ select_word word items ↔ (uri, word, val) ∈ items.
Proof.
  unfold select_word. rewrite list_elem_of_omap. split.
  - intros ([[u w] v] & Hin & Hsel). case_decide; [|done]. by simplify_eq.
  - intros Hin. exists (uri, word, val). split; [done|]. by rewrite decide_True.
Qed.

Lemma NoDup_select_word word (items : list (string * string * Z)) :
  NoDup ((fun x => (x.1.1, x.1.2)) <$> items) → NoDup (select_word word items).*1.
Proof.
  induction items as [|[[uri word'] val] items IH]; [constructor|].
  rewrite fmap_cons, NoDup_cons. simpl. intros [Hin Hnd]. unfold select_word. csimpl.
  case_decide as Hw; [|by apply IH]. subst. csimpl. apply NoDup_cons.
  split; [|by apply IH]. intros Hu. apply Hin.
  apply list_elem_of_fmap in Hu as ([u v] & -> & Huv). simpl.
  apply elem_of_select_word in Huv.
  apply list_elem_of_fmap. by exists (u, word, v).
Qed.

Section inverted_index_spec.
Variable stopwords : gset string.
Variable isalpha : string → bool.
Variable lyrics_dict : gmap string (gmap string Z).
Variable remove_stopwords : bool.

Local Abbreviation items := (indexed_items stopwords isalpha lyrics_dict remove_stopwords).
Local Abbreviation built :=
  (make_inv_idx stopwords isalpha lyrics_dict remove_stopwords).1.

Lemma make_inv_idx_fst :
  built = (foldl (fun st '(uri, word, val) => add_posting st uri word val)
                 (∅, ∅, 0%nat) items).1.1.
Proof.
  unfold make_inv_idx. rewrite <- make_inv_idx_state_items.
  by destruct (make_inv_idx_state _ _ _ _) as [[? ?] ?].
Qed.

Lemma inv_get_built word : inv_get built word = select_word word items.
Proof. by rewrite make_inv_idx_fst, add_posting_fold. Qed.

Lemma built_is_Some word :
  is_Some (built !! word) ↔ ∃ uri val, (uri, word, val) ∈ items.
Proof.
  rewrite make_inv_idx_fst, add_posting_fold_keys. simpl. rewrite lookup_empty.
  split; [|auto]. by intros [[? ?]|?].
Qed.

Lemma elem_of_indexed_items uri word val :
  (uri, word, val) ∈ items
  ↔ ∃ cnt, lyrics_dict !! uri = Some cnt ∧ cnt !! word = Some val
           ∧ indexed stopwords isalpha remove_stopwords word = true.
Proof.
  unfold indexed_items. rewrite list_elem_of_bind. split.
  - intros ([u cnt] & Hin & Hu). apply elem_of_map_to_list in Hu.
    apply list_elem_of_omap in Hin as ([w v] & Hwv & Hsel).
    apply elem_of_map_to_list in Hwv.
    destruct (indexed _ _ _ w) eqn:Hk; [|done]. simplify_eq. eauto.
  - intros (cnt & Hu & Hw & Hk). exists (uri, cnt). split.
    + apply list_elem_of_omap. exists (word, val). rewrite Hk.
      split; [|done]. by apply elem_of_map_to_list.
    + by apply elem_of_map_to_list.
Qed.

Lemma NoDup_indexed_items : NoDup ((fun x => (x.1.1, x.1.2)) <$> items).
Proof.
  unfold indexed_items.
  pose proof (NoDup_fst_map_to_list lyrics_dict) as Hnd.
  induction (map_to_list lyrics_dict) as [|[uri cnt] l IH]; [constructor|].
  rewrite fmap_cons in Hnd. apply NoDup_cons in Hnd as [Huri Hnd].
  rewrite bind_cons, fmap_app. apply NoDup_app. split_and!.
  - pose proof (NoDup_fst_map_to_list cnt) as Hc.
    induction (map_to_list cnt) as [|[word val] lc IHc]; [constructor|].
    rewrite fmap_cons in Hc. apply NoDup_cons in Hc as [Hw Hc]. csimpl.
    destruct (indexed _ _ _ word); [|by apply IHc]. csimpl.
    apply NoDup_cons. split; [|by apply IHc]. intros Hin. apply Hw.
    apply list_elem_of_fmap in Hin as ([[u w] v] & [= _ ->] & Hin).
    apply list_elem_of_omap in Hin as ([w' v'] & Hin & Hsel).
    destruct (indexed _ _ _ w'); [|done]. simplify_eq.
    apply list_elem_of_fmap. by exists (w, v).
  - intros [u w] Hin1 Hin2. apply Huri.
    apply list_elem_of_fmap in Hin1 as ([[u1 w1] v1] & [= -> ->] & Hin1).
    apply list_elem_of_omap in Hin1 as ([w' v'] & _ & Hsel).
    destruct (indexed _ _ _ w'); [|done]. simplify_eq.
    apply list_elem_of_fmap in Hin2 as ([[u2 w2] v2] & [= -> ->] & Hin2).
    apply list_elem_of_bind in Hin2 as ([u' cnt'] & Hin2 & Hu').
    apply list_elem_of_omap in Hin2 as ([w' v'] & _ & Hsel).
    destruct (indexed _ _ _ w'); [|done]. simplify_eq.
    apply list_elem_of_fmap. eexists; split; [|exact Hu']. done.
  - by apply IH.
Qed.

(** The index built by [make_inv_idx] has the data-model invariant. *)
Lemma make_inv_idx_well_formed : well_formed_index built.
Proof.
  intros word posting Hw.
  assert (Hp : posting = inv_get built word) by (unfold inv_get; by rewrite Hw).
  rewrite Hp, inv_get_built. apply NoDup_select_word, NoDup_indexed_items.
Qed.

(** A song has a posting for each of its words that the index holds. *)
Lemma own_posting uri cnt word val :
  lyrics_dict !! uri = Some cnt → cnt !! word = Some val →
  is_Some (built !! word) → (uri, val) ∈ inv_get built word.
Proof.
  intros Hu Hw (u' & v' & Hin)%built_is_Some.
  apply elem_of_indexed_items in Hin as (_ & _ & _ & Hk).
  rewrite inv_get_built, elem_of_select_word, elem_of_indexed_items. eauto.
Qed.

Lemma posting_owner uri word val :
  (uri, val) ∈ inv_get built word →
  ∃ cnt, lyrics_dict !! uri = Some cnt ∧ cnt !! word = Some val.
Proof.
  rewrite inv_get_built, elem_of_select_word, elem_of_indexed_items.
  intros (cnt & ? & ? & _). eauto.
Qed.
End inverted_index_spec.

(** ** A song queried with its own lyrics *)

Lemma compute_idf_keys (inv_idx : gmap string postings) (n_docs : nat)
    (min_df : Z) (max_df_ratio : R) (idf_dict : gmap string R) :
  compute_idf inv_idx n_docs min_df max_df_ratio = Ok idf_dict →
  ∀ t, is_Some (idf_dict !! t) → is_Some (inv_idx !! t).
Proof.
  intros Hok t. destruct (decide (n_docs = 0%nat)) as [->|Hn].
  - apply compute_idf_no_docs_Ok in Hok as [-> _]. rewrite lookup_empty.
    by intros [? ?].
  - rewrite compute_idf_lookup in Hok by done. injection Hok as <-.
    rewrite map_lookup_imap. destruct (inv_idx !! t); [by eexists|].
    by intros [? ?].
Qed.

Lemma filter_fst_elem_of (posting : postings) d tf :
  NoDup posting.*1 → (d, tf) ∈ posting →
  filter (fun x => x.1 = d) posting = [(d, tf)].
Proof.
  induction posting as [|[uri tf'] posting IH]; [by intros _ ?%elem_of_nil|].
  rewrite fmap_cons, NoDup_cons. simpl. intros [Hin Hnd] Hd.
  apply elem_of_cons in Hd as [[= <- <-]|Hd].
  - rewrite filter_cons_True by done. by rewrite filter_fst_absent.
  - rewrite filter_cons_False; [by apply IH|]. simpl. intros ->.
    apply Hin. apply list_elem_of_fmap. by exists (d, tf).
Qed.

Section self_similarity.
Variable inv_idx : gmap string postings.
Variable idf_dict : gmap string R.
Variable song_id : string.
Variable cnt : gmap string Z.

Hypothesis index_wf : well_formed_index inv_idx.
Hypothesis own : ∀ t c,
  cnt !! t = Some c → is_Some (inv_idx !! t) → (song_id, c) ∈ inv_get inv_idx t.
Hypothesis owner : ∀ t c, (song_id, c) ∈ inv_get inv_idx t → cnt !! t = Some c.
Hypothesis idf_keys : ∀ t, is_Some (idf_dict !! t) → is_Some (inv_idx !! t).

Lemma NoDup_inv_get t : NoDup (inv_get inv_idx t).*1.
Proof.
  unfold inv_get. destruct (inv_idx !! t) as [posting|] eqn:Ht; simpl.
  - by eapply index_wf.
  - constructor.
Qed.

Lemma self_weight t q :
  (t, q) ∈ query_items cnt idf_dict → doc_weight inv_idx idf_dict song_id t = q.
Proof.
  intros (c & idf & Hc & Hi & ->)%elem_of_query_items. unfold doc_weight.
  rewrite (filter_fst_elem_of _ song_id c).
  - simpl. rewrite Hi. simpl. lra.
  - apply NoDup_inv_get.
  - apply own; [done|]. apply idf_keys. by eexists.
Qed.

Lemma self_dot : dot_for cnt inv_idx idf_dict song_id = query_norm_sq cnt idf_dict.
Proof.
  rewrite dot_for_weights. unfold query_norm_sq. rewrite <- list_fmap_compose.
  apply Rsum_ext. intros [t q] Hin. simpl. by rewrite (self_weight _ _ Hin).
Qed.

Lemma self_weight_outside w :
  w ∉ (query_items cnt idf_dict).*1 → doc_weight inv_idx idf_dict song_id w = 0%R.
Proof.
  intros Hw. unfold doc_weight.
  destruct (filter (fun x => x.1 = song_id) (inv_get inv_idx w)) as [|[d c] l] eqn:Hf;
    [done|].
  assert (Hin : (d, c) ∈ filter (fun x => x.1 = song_id) (inv_get inv_idx w))
    by (rewrite Hf; left).
  apply list_elem_of_filter in Hin as [Hd Hin]. simpl in Hd. subst d.
  rewrite (filter_fst_elem_of _ song_id c) in Hf by (done || apply NoDup_inv_get).
  injection Hf as <-. simpl.
  destruct (idf_dict !! w) as [idf|] eqn:Hi; [|simpl; lra].
  destruct Hw. apply list_elem_of_fmap. exists (w, (IZR c * idf)%R).
  split; [done|]. apply elem_of_query_items. exists c, idf.
  split_and!; [by apply owner|done|done].
Qed.

Lemma self_norm_sq :
  sum_for song_id (norm_contribs inv_idx idf_dict) = query_norm_sq cnt idf_dict.
Proof.
  rewrite norm_sq_weights by done.
  transitivity (Rsum ((fun t => Rsqr (doc_weight inv_idx idf_dict song_id t))
                        <$> (query_items cnt idf_dict).*1)).
  - apply Rle_antisym; apply Rsum_le_support.
    + apply NoDup_fst_map_to_list.
    + intros t. apply Rle_0_sqr.
    + intros t _ Hout. rewrite self_weight_outside by done. apply Rsqr_0.
    + apply NoDup_query_items.
    + intros t. apply Rle_0_sqr.
    + intros t _ Hout. rewrite doc_weight_absent by done. apply Rsqr_0.
  - unfold query_norm_sq. rewrite <- !list_fmap_compose.
    apply Rsum_ext. intros [t q] Hin. simpl. by rewrite (self_weight _ _ Hin).
Qed.

(** The song's own score: [query_norm² / (norm * query_norm)] with equal
    norms. *)
Lemma self_score :
  fdiv (dot_for cnt inv_idx idf_dict song_id)
       (sqrt (sum_for song_id (norm_contribs inv_idx idf_dict))
        * sqrt (query_norm_sq cnt idf_dict))
  = if decide (query_norm_sq cnt idf_dict = 0%R) then NaN else Fin 1.
Proof.
  rewrite self_dot, self_norm_sq.
  rewrite sqrt_sqrt by apply query_norm_sq_nonneg. unfold fdiv.
  destruct (decide (query_norm_sq cnt idf_dict = 0%R)) as [Hz|Hz]; [done|].
  f_equal. by apply Rdiv_diag.
Qed.
End self_similarity.

(** C8 (amended): a song of the corpus that has an IDF-eligible token,
    queried with its own token counts against the index, IDF table and
    norms built from the corpus, has a norm equal to the query norm; its
    similarity is 1 when that norm is not zero and [nan] when it is zero,
    and no value of the returned map is above 1. *)
Theorem self_similarity_one_or_nan (stopwords : gset string) (isalpha : string → bool)
    (lyrics_dict : gmap string (gmap string Z)) (remove_stopwords : bool)
    (n_docs : nat) (min_df : Z) (max_df_ratio : R) (idf_dict : gmap string R)
    (song_id : string) (cnt : gmap string Z) :
  let inv_idx := (make_inv_idx stopwords isalpha lyrics_dict remove_stopwords).1 in
  compute_idf inv_idx n_docs min_df max_df_ratio = Ok idf_dict →
  lyrics_dict !! song_id = Some cnt →
  (∃ t c idf, cnt !! t = Some c ∧ idf_dict !! t = Some idf) →
  ∃ scores,
    lyrics_sim cnt inv_idx idf_dict (compute_song_norms inv_idx idf_dict) = Ok scores
    ∧ compute_song_norms inv_idx idf_dict !! song_id
      = Some (sqrt (query_norm_sq cnt idf_dict))
    ∧ scores !! song_id
      = Some (if decide (query_norm_sq cnt idf_dict = 0%R) then NaN else Fin 1)
    ∧ ∀ d v, scores !! d = Some v → v = NaN ∨ ∃ r, v = Fin r ∧ (r <= 1)%R.
Proof.
  intros inv_idx Hidf Hsong (t & c & idf & Hc & Hi).
  pose proof (make_inv_idx_well_formed stopwords isalpha lyrics_dict remove_stopwords)
    as Hwf. fold inv_idx in Hwf.
  assert (Hkeys : ∀ t, is_Some (idf_dict !! t) → is_Some (inv_idx !! t))
    by by eapply compute_idf_keys.
  assert (Hown : ∀ t c, cnt !! t = Some c → is_Some (inv_idx !! t) →
                        (song_id, c) ∈ inv_get inv_idx t).
  { intros t' c' Hc' Ht'. by eapply own_posting. }
  assert (Howner : ∀ t c, (song_id, c) ∈ inv_get inv_idx t → cnt !! t = Some c).
  { intros t' c' (cnt' & Hs' & Hc')%posting_owner. by simplify_eq. }
  destruct (lyrics_sim_returns cnt inv_idx idf_dict idf_dict) as (scores & Hs).
  destruct (lyrics_sim_lookup _ _ _ _ (lyrics_sim_Ok_covered _ _ _ _ _ Hs))
    as (scores' & Hs' & Hshare & Hval).
  rewrite Hs in Hs'. injection Hs' as <-.
  assert (Hin : shares_token cnt inv_idx idf_dict song_id).
  { exists t, c, idf, c. split_and!; [done..|]. apply Hown; [done|].
    apply Hkeys. by eexists. }
  assert (Hnorm : compute_song_norms inv_idx idf_dict !! song_id
                  = Some (sqrt (query_norm_sq cnt idf_dict))).
  { destruct (lyrics_sim_Ok_covered _ _ _ _ _ Hs _ Hin) as [norm Hn].
    rewrite compute_song_norms_lookup in Hn |- *. case_decide; [|done].
    by rewrite (self_norm_sq inv_idx idf_dict song_id cnt). }
  exists scores. split_and!; [done|done| |].
  - destruct (proj2 (Hshare song_id) Hin) as [v Hv]. rewrite Hv. f_equal.
    rewrite (Hval _ _ _ Hv Hnorm).
    rewrite <- (self_norm_sq inv_idx idf_dict song_id cnt) at 1 by done.
    by apply self_score.
  - intros d v Hv.
    destruct (lyrics_sim_cosine_value _ _ _ _ Hwf Hs d v Hv)
      as (norm & _ & [[_ ->]|[_ (r & -> & Hr)]]); [by left|right].
    exists r. split; [done|lra].
Qed.

(** C8 as stated fails: song "s" has the token "a", which is in the IDF
    table with the value 0 (it occurs in one of the two songs); queried
    with its own lyrics, "s" gets [nan], not 1. *)
Lemma self_similarity_counterexample :
  let lyrics_dict : gmap string (gmap string Z) :=
    {[ "s" := {[ "a" := 1%Z ]}; "t" := ∅ ]} in
  let inv_idx := (make_inv_idx ∅ (fun _ => true) lyrics_dict false).1 in
  lyrics_dict !! "s" = Some {[ "a" := 1%Z ]}
  ∧ compute_idf inv_idx (size lyrics_dict) 1 1 = Ok {[ "a" := 0%R ]}
  ∧ lyrics_sim {[ "a" := 1%Z ]} inv_idx {[ "a" := 0%R ]}
               (compute_song_norms inv_idx {[ "a" := 0%R ]})
    = Ok {[ "s" := NaN ]}.
Proof.
  intros lyrics_dict inv_idx.
  assert (Hinv : inv_idx = {[ "a" := [("s", 1%Z)] ]}) by (vm_compute; reflexivity).
  assert (Hsize : size lyrics_dict = 2%nat) by (vm_compute; reflexivity).
  rewrite Hinv, Hsize. split_and!.
  - reflexivity.
  - apply zero_idf_example.
  - rewrite zero_norm_example. apply nan_score_example.
Qed.

Lemma self_similarity_one_or_nan_witness :
  let lyrics_dict : gmap string (gmap string Z) :=
    {[ "s" := {[ "a" := 1%Z ]}; "t" := ∅ ]} in
  let inv_idx := (make_inv_idx ∅ (fun _ => true) lyrics_dict false).1 in
  ∃ idf_dict scores,
    compute_idf inv_idx 4 1 1 = Ok idf_dict
    ∧ lyrics_sim {[ "a" := 1%Z ]} inv_idx idf_dict
                 (compute_song_norms inv_idx idf_dict) = Ok scores
    ∧ scores !! "s"
      = Some (if decide (query_norm_sq {[ "a" := 1%Z ]} idf_dict = 0%R)
              then NaN else Fin 1).
Proof.
  intros lyrics_dict inv_idx.
  assert (Hinv : inv_idx !! "a" = Some [("s", 1%Z)]) by (vm_compute; reflexivity).
  destruct (compute_idf_returns inv_idx 4 1 1) as (idf_dict & Hidf); [lia|].
  destruct (self_similarity_one_or_nan ∅ (fun _ => true) lyrics_dict false 4 1 1
              idf_dict "s" {[ "a" := 1%Z ]}) as (scores & Hs & _ & Hself & _).
  - exact Hidf.
  - reflexivity.
  - exists "a", 1%Z, (log2 (INR 4 / INR (1 + 1))). split; [reflexivity|].
    fold inv_idx in Hidf. rewrite compute_idf_lookup in Hidf by lia.
    injection Hidf as <-. rewrite map_lookup_imap, Hinv. simpl.
    unfold idf_entry. simpl. rewrite bool_decide_eq_true_2 by lra. done.
  - by exists idf_dict, scores.
Defined.

(** * Further properties of the code *)

(** ** [make_inv_idx] *)

(** A posting [(uri, val)] is in the list of [word] exactly when the song
    [uri] has [val] occurrences of [word] and the word is indexed: any
    word when [remove_stopwords] is off, a word that is alphabetic and no
    stop word when it is on. *)
Theorem make_inv_idx_postings (stopwords : gset string) (isalpha : string → bool)
    (lyrics_dict : gmap string (gmap string Z)) (remove_stopwords : bool)
    (word uri : string) (val : Z) :
  let inv_idx := (make_inv_idx stopwords isalpha lyrics_dict remove_stopwords).1 in
  (uri, val) ∈ inv_get inv_idx word
  ↔ ∃ cnt,
      lyrics_dict !! uri = Some cnt ∧ cnt !! word = Some val
      ∧ (if remove_stopwords then ((word ∉ stopwords) ∧ isalpha word = true) else True).
Proof.
  intros inv_idx. unfold inv_idx.
  rewrite inv_get_built, elem_of_select_word, elem_of_indexed_items.
  unfold indexed. split; intros (cnt & Hu & Hw & Hk); exists cnt; split_and!; try done.
  - destruct remove_stopwords; [|done].
    apply andb_true_iff in Hk as [Hs%bool_decide_eq_true ?]. done.
  - destruct remove_stopwords; [|done]. destruct Hk as [Hs Ha].
    by rewrite Ha, bool_decide_eq_true_2.
Qed.

(** Every posting list that the index holds is non-empty, names a song at
    most once, and belongs to an indexed word: with [remove_stopwords] on,
    no stop word and no word with a non-alphabetic character is a key. *)
Theorem make_inv_idx_posting_lists (stopwords : gset string) (isalpha : string → bool)
    (lyrics_dict : gmap string (gmap string Z)) (remove_stopwords : bool)
    (word : string) (posting : postings) :
  let inv_idx := (make_inv_idx stopwords isalpha lyrics_dict remove_stopwords).1 in
  inv_idx !! word = Some posting →
  posting ≠ [] ∧ NoDup posting.*1
  ∧ (remove_stopwords = true → ((word ∉ stopwords) ∧ isalpha word = true))
  ∧ (∀ uri val, (uri, val) ∈ posting → is_Some (lyrics_dict !! uri)).
Proof.
  intros inv_idx Hw.
  assert (Hp : posting = inv_get inv_idx word) by (unfold inv_get; by rewrite Hw).
  unfold inv_idx in *.
  destruct (proj1 (built_is_Some stopwords isalpha lyrics_dict remove_stopwords word))
    as (uri & val & Hin); [by eexists|].
  split_and!.
  - intros Hnil. rewrite Hp, inv_get_built in Hnil.
    apply elem_of_select_word in Hin. rewrite Hnil in Hin. by apply elem_of_nil in Hin.
  - by eapply make_inv_idx_well_formed.
  - intros ->. apply elem_of_indexed_items in Hin as (_ & _ & _ & Hk).
    simpl in Hk. apply andb_true_iff in Hk as [Hs%bool_decide_eq_true ?]. done.
  - intros u v Huv. rewrite Hp in Huv.
    apply posting_owner in Huv as (cnt & Hu & _). by eexists.
Qed.

Lemma make_inv_idx_posting_lists_witness :
  let lyrics_dict : gmap string (gmap string Z) :=
    {[ "s" := {[ "a" := 1%Z ]}; "t" := ∅ ]} in
  let posting : postings := [("s", 1%Z)] in
  (make_inv_idx ∅ (fun _ => true) lyrics_dict false).1 !! "a" = Some posting
  ∧ posting ≠ [] ∧ NoDup posting.*1.
Proof.
  intros lyrics_dict posting.
  assert (Hw : (make_inv_idx ∅ (fun _ => true) lyrics_dict false).1 !! "a"
               = Some posting) by (vm_compute; reflexivity).
  split; [exact Hw|].
  destruct (make_inv_idx_posting_lists ∅ (fun _ => true) lyrics_dict false "a"
              posting Hw) as (Hne & Hnd & _).
  by split.
Defined.

Lemma add_posting_numbered (st : index_state) (uri word : string) (val : Z) :
  numbered st.1.1 st.1.2 st.2 →
  numbered (add_posting st uri word val).1.1 (add_posting st uri word val).1.2
           (add_posting st uri word val).2.
Proof.
  destruct st as [[inv_idx word_to_ix] word_ix]. simpl.
  intros (Hdom & Hsize & Hlt & Hinj & Hsurj). unfold add_posting.
  destruct (word_to_ix !! word) as [i|] eqn:Hw; simpl.
  - split_and!; try done. rewrite dom_insert_L, <- Hdom.
    apply elem_of_dom_2 in Hw. apply set_eq. intros x.
    rewrite elem_of_union, elem_of_singleton. split; [auto|].
    by intros [->|?].
  - split_and!.
    + rewrite !dom_insert_L. by rewrite Hdom.
    + rewrite map_size_insert_None by done. by rewrite Hsize.
    + intros w i. rewrite lookup_insert_Some. intros [[_ <-]|[_ Hi]]; [lia|].
      apply Hlt in Hi. lia.
    + intros w1 w2 i. rewrite !lookup_insert_Some.
      intros [[E1 F1]|[Hn1 H1]] [[E2 F2]|[Hn2 H2]].
      * congruence.
      * apply Hlt in H2. lia.
      * apply Hlt in H1. lia.
      * by eapply Hinj.
    + intros i Hi. destruct (decide (i = word_ix)) as [->|Hne].
      * exists word. by rewrite lookup_insert_eq.
      * destruct (Hsurj i) as [w Hwi]; [lia|]. exists w.
        rewrite lookup_insert_ne; [done|]. intros <-. congruence.
Qed.

(** [word_to_ix] numbers exactly the words that are keys of the index,
    with the numbers 0, 1, ..., [len(word_to_ix) - 1], each given once. *)
Theorem make_inv_idx_numbering (stopwords : gset string) (isalpha : string → bool)
    (lyrics_dict : gmap string (gmap string Z)) (remove_stopwords : bool) :
  let built := make_inv_idx stopwords isalpha lyrics_dict remove_stopwords in
  numbered built.1 built.2 (size built.2).
Proof.
  intros built.
  assert (Hst : ∀ st, st = make_inv_idx_state stopwords isalpha lyrics_dict
                              remove_stopwords →
                      numbered st.1.1 st.1.2 st.2).
  { intros st ->. rewrite make_inv_idx_state_items.
    generalize (indexed_items stopwords isalpha lyrics_dict remove_stopwords).
    intros items.
    assert (Hgen : ∀ st, numbered st.1.1 st.1.2 st.2 →
      let st' := foldl (fun st '(uri, word, val) => add_posting st uri word val)
                       st items in
      numbered st'.1.1 st'.1.2 st'.2).
    { induction items as [|[[uri word] val] items IH]; intros st Hst; [done|].
      simpl. apply IH. by apply add_posting_numbered. }
    apply Hgen. simpl. split_and!; try done. intros i Hi. lia. }
  unfold built, make_inv_idx.
  specialize (Hst _ eq_refl).
  destruct (make_inv_idx_state _ _ _ _) as [[inv_idx word_to_ix] word_ix].
  simpl in *. destruct Hst as (? & Hsize & ?). by rewrite <- Hsize.
Qed.

(** ** [compute_idf] *)

Lemma log2_sign (x : R) :
  (0 < x)%R →
  ((log2 x < 0)%R ↔ (x < 1)%R) ∧ (log2 x = 0%R ↔ x = 1%R) ∧ ((0 < log2 x)%R ↔ (1 < x)%R).
Proof.
  intros Hx. pose proof ln_lt_2 as H2. unfold log2.
  assert (Hl2 : (0 < ln 2)%R) by lra.
  assert (Hsgn : ∀ y, (y / ln 2 < 0 ↔ y < 0)%R ∧ (y / ln 2 = 0 ↔ y = 0)%R
                      ∧ (0 < y / ln 2 ↔ 0 < y)%R).
  { intros y. unfold Rdiv. pose proof (Rinv_0_lt_compat _ Hl2) as Hi.
    split_and!; split; intros; nra. }
  destruct (Hsgn (ln x)) as (Hneg & Hzero & Hpos).
  rewrite Hneg, Hzero, Hpos. rewrite <- ln_1.
  destruct (Rtotal_order x 1) as [Hlt|[->|Hgt]].
  - pose proof (ln_increasing _ _ Hx Hlt). rewrite ln_1 in *.
    split_and!; split; intros; lra.
  - rewrite ln_1. split_and!; split; intros; lra.
  - pose proof (ln_increasing 1 x ltac:(lra) Hgt). rewrite ln_1 in *.
    split_and!; split; intros; lra.
Qed.

Lemma log2_le (x y : R) : (0 < x)%R → (x <= y)%R → (log2 x <= log2 y)%R.
Proof.
  intros Hx [Hlt| ->]; [|lra]. pose proof ln_lt_2 as H2.
  pose proof (ln_increasing _ _ Hx Hlt) as Hln. unfold log2, Rdiv.
  pose proof (Rinv_0_lt_compat (ln 2) ltac:(lra)). nra.
Qed.

Lemma idf_ratio_pos (n_docs df : nat) :
  n_docs ≠ 0%nat → (0 < INR n_docs / INR (1 + df))%R.
Proof.
  intros Hn. apply Rdiv_lt_0_compat.
  - apply lt_0_INR. lia.
  - apply lt_0_INR. lia.
Qed.

Lemma compute_idf_entry (inv_idx : gmap string postings) (n_docs : nat)
    (min_df : Z) (max_df_ratio : R) (idf_dict : gmap string R) word posting idf :
  compute_idf inv_idx n_docs min_df max_df_ratio = Ok idf_dict →
  inv_idx !! word = Some posting → idf_dict !! word = Some idf →
  n_docs ≠ 0%nat ∧ idf = log2 (INR n_docs / INR (1 + length posting)).
Proof.
  intros Hok Hw Hi. destruct (decide (n_docs = 0%nat)) as [->|Hn].
  - apply compute_idf_no_docs_Ok in Hok as [-> _]. by rewrite lookup_empty in Hi.
  - split; [done|]. rewrite compute_idf_lookup in Hok by done. injection Hok as <-.
    rewrite map_lookup_imap, Hw in Hi. simpl in Hi. unfold idf_entry in Hi.
    destruct (_ && _); [|done]. by injection Hi as <-.
Qed.

(** Without documents [compute_idf] raises [ZeroDivisionError] exactly
    when some token reaches [min_df], and returns the empty table
    otherwise; [max_df_ratio] plays no part. *)
Theorem compute_idf_without_documents (inv_idx : gmap string postings)
    (min_df : Z) (max_df_ratio : R) :
  (compute_idf inv_idx 0 min_df max_df_ratio = Raise ZeroDivisionError
   ↔ ∃ word posting, inv_idx !! word = Some posting
                     ∧ (min_df ≤ Z.of_nat (length posting))%Z)
  ∧ (compute_idf inv_idx 0 min_df max_df_ratio = Ok ∅
     ↔ ∀ word posting, inv_idx !! word = Some posting
                       → (Z.of_nat (length posting) < min_df)%Z).
Proof.
  assert (Hlow : (∀ word posting, inv_idx !! word = Some posting
                                  → (Z.of_nat (length posting) < min_df)%Z)
                 → compute_idf inv_idx 0 min_df max_df_ratio = Ok ∅).
  { intros Hall. unfold compute_idf.
    rewrite (for_each_map_imap _ (fun _ _ => None)).
    - f_equal. apply map_eq. intros word.
      rewrite map_lookup_imap, lookup_empty. by destruct (inv_idx !! word).
    - intros acc word posting Hw. apply Hall in Hw.
      by rewrite bool_decide_eq_false_2 by lia. }
  split; split.
  - intros Hraise.
    destruct (decide (map_Exists (fun _ (posting : postings) =>
                (min_df ≤ Z.of_nat (length posting))%Z) inv_idx)) as [Hex|Hno].
    + destruct Hex as (word & posting & Hw & Hdf). eauto.
    + rewrite Hlow in Hraise; [done|]. intros word posting Hw.
      apply Z.lt_nge. intros Hdf. apply Hno. by exists word, posting.
  - intros (word & posting & Hw & Hdf). by eapply compute_idf_no_docs.
  - intros Hok word posting Hw. apply compute_idf_no_docs_Ok in Hok as [_ Hall].
    apply Z.lt_nge. by eapply Hall.
  - apply Hlow.
Qed.

(** The sign of an IDF value, [df] being the length of the posting list:
    negative exactly when [n_docs < 1 + df] (a token found in every
    document), zero exactly when [n_docs = 1 + df], positive exactly when
    [n_docs > 1 + df]. *)
Theorem compute_idf_sign (inv_idx : gmap string postings) (n_docs : nat)
    (min_df : Z) (max_df_ratio : R) (idf_dict : gmap string R)
    (word : string) (posting : postings) (idf : R) :
  compute_idf inv_idx n_docs min_df max_df_ratio = Ok idf_dict →
  inv_idx !! word = Some posting → idf_dict !! word = Some idf →
  ((idf < 0)%R ↔ (n_docs < 1 + length posting)%nat)
  ∧ (idf = 0%R ↔ n_docs = (1 + length posting)%nat)
  ∧ ((0 < idf)%R ↔ (1 + length posting < n_docs)%nat).
Proof.
  intros Hok Hw Hi.
  destruct (compute_idf_entry _ _ _ _ _ _ _ _ Hok Hw Hi) as [Hn ->].
  destruct (log2_sign _ (idf_ratio_pos n_docs (length posting) Hn))
    as (Hneg & Hzero & Hpos).
  rewrite Hneg, Hzero, Hpos.
  assert (Hd : (0 < INR (1 + length posting))%R) by (apply lt_0_INR; lia).
  assert (Hcmp : ∀ a b : R, (0 < b)%R →
            ((a / b < 1 ↔ a < b) ∧ (a / b = 1 ↔ a = b) ∧ (1 < a / b ↔ b < a))%R).
  { intros a b Hb. pose proof (Rinv_0_lt_compat _ Hb) as Hinv.
    assert (Hab : (a / b * b = a)%R) by (field; lra).
    split_and!; split; intros; nra. }
  destruct (Hcmp (INR n_docs) _ Hd) as (H1 & H2 & H3). rewrite H1, H2, H3.
  split_and!; split.
  - apply INR_lt.
  - apply lt_INR.
  - apply INR_eq.
  - by intros ->.
  - apply INR_lt.
  - apply lt_INR.
Qed.

Lemma compute_idf_sign_witness :
  compute_idf {[ "a" := [("s", 1%Z)] ]} 2 1 1 = Ok {[ "a" := 0%R ]}
  ∧ (0%R = 0%R ↔ 2%nat = (1 + length [("s", 1%Z)])%nat).
Proof.
  split; [apply zero_idf_example|].
  apply (compute_idf_sign {[ "a" := [("s", 1%Z)] ]} 2 1 1 {[ "a" := 0%R ]}
           "a" [("s", 1%Z)] 0).
  - apply zero_idf_example.
  - apply lookup_singleton_eq.
  - apply lookup_singleton_eq.
Defined.

(** Among the tokens of one table, the one found in more documents has
    the smaller (or the same) IDF. *)
Theorem compute_idf_antitone (inv_idx : gmap string postings) (n_docs : nat)
    (min_df : Z) (max_df_ratio : R) (idf_dict : gmap string R)
    (word1 word2 : string) (posting1 posting2 : postings) (idf1 idf2 : R) :
  compute_idf inv_idx n_docs min_df max_df_ratio = Ok idf_dict →
  inv_idx !! word1 = Some posting1 → idf_dict !! word1 = Some idf1 →
  inv_idx !! word2 = Some posting2 → idf_dict !! word2 = Some idf2 →
  (length posting1 ≤ length posting2)%nat →
  (idf2 <= idf1)%R.
Proof.
  intros Hok Hw1 Hi1 Hw2 Hi2 Hlen.
  destruct (compute_idf_entry _ _ _ _ _ _ _ _ Hok Hw1 Hi1) as [Hn ->].
  destruct (compute_idf_entry _ _ _ _ _ _ _ _ Hok Hw2 Hi2) as [_ ->].
  apply log2_le; [by apply idf_ratio_pos|].
  assert (H1 : (0 < INR (1 + length posting1))%R) by (apply lt_0_INR; lia).
  assert (H2 : (INR (1 + length posting1) <= INR (1 + length posting2))%R)
    by (apply le_INR; lia).
  assert (H0 : (0 <= INR n_docs)%R) by apply pos_INR.
  unfold Rdiv. apply Rmult_le_compat_l; [done|].
  apply Rinv_le_contravar; done.
Qed.

Lemma compute_idf_antitone_witness :
  let inv_idx : gmap string postings :=
    {[ "a" := [("s", 1%Z)]; "b" := [("s", 1%Z); ("t", 2%Z)] ]} in
  ∃ idf_dict idf1 idf2,
    compute_idf inv_idx 3 1 1 = Ok idf_dict
    ∧ idf_dict !! "a" = Some idf1 ∧ idf_dict !! "b" = Some idf2
    ∧ (idf2 <= idf1)%R.
Proof.
  intros inv_idx.
  assert (Hok : compute_idf inv_idx 3 1 1
                = Ok (map_imap (fun _ => idf_entry 3 1 1) inv_idx))
    by by apply compute_idf_lookup.
  assert (Ha : inv_idx !! "a" = Some [("s", 1%Z)]) by reflexivity.
  assert (Hb : inv_idx !! "b" = Some [("s", 1%Z); ("t", 2%Z)]) by reflexivity.
  assert (Hia : map_imap (fun _ => idf_entry 3 1 1) inv_idx !! "a"
                = Some (log2 (INR 3 / INR 2))).
  { rewrite map_lookup_imap, Ha. simpl. unfold idf_entry. simpl.
    by rewrite bool_decide_eq_true_2 by lra. }
  assert (Hib : map_imap (fun _ => idf_entry 3 1 1) inv_idx !! "b"
                = Some (log2 (INR 3 / INR 3))).
  { rewrite map_lookup_imap, Hb. simpl. unfold idf_entry. simpl.
    by rewrite bool_decide_eq_true_2 by lra. }
  eexists _, _, _. split_and!; [exact Hok|exact Hia|exact Hib|].
  apply (compute_idf_antitone inv_idx 3 1 1 _ "a" "b" _ _ _ _ Hok Ha Hia Hb Hib).
  simpl. lia.
Defined.

(** ** [compute_song_norms] *)

Lemma Rsum_zero_Forall (l : list R) :
  Forall (fun x => 0 <= x)%R l → Rsum l = 0%R → Forall (fun x => x = 0%R) l.
Proof.
  induction 1 as [|x l Hx Hl IH]; [done|]. simpl. intros Hsum.
  pose proof (Rsum_nonneg l Hl). constructor; [lra|]. apply IH. lra.
Qed.

Lemma Rsum_Forall_zero (l : list R) : Forall (fun x => x = 0%R) l → Rsum l = 0%R.
Proof. induction 1 as [|x l -> Hl IH]; simpl; [done|]. rewrite IH. lra. Qed.

Lemma elem_of_norm_contribs_value (inv_idx : gmap string postings)
    (idf_dict : gmap string R) d x :
  (d, x) ∈ norm_contribs inv_idx idf_dict
  ↔ ∃ word tf, (d, tf) ∈ inv_get inv_idx word
               ∧ x = Rsqr (IZR tf * default 0 (idf_dict !! word))%R.
Proof.
  unfold norm_contribs. rewrite list_elem_of_bind. split.
  - intros ([word posting] & Hin & Hw).
    apply list_elem_of_fmap in Hin as ([d' tf] & [= -> ->] & Hp).
    apply elem_of_map_to_list in Hw. exists word, tf. split; [|done].
    apply inv_get_elem_of. eauto.
  - intros (word & tf & Hp & ->). apply inv_get_elem_of in Hp as (posting & Hw & Hp).
    exists (word, posting). split; [|by apply elem_of_map_to_list].
    apply list_elem_of_fmap. by exists (d, tf).
Qed.

(** The norm table has an entry exactly for the songs that occur in a
    posting list.  A norm is never negative, and it is zero exactly when
    every posting of the song has a zero weight: a zero count, a token
    without IDF value, or one whose IDF is zero. *)
Theorem compute_song_norms_entries (inv_idx : gmap string postings)
    (idf_dict : gmap string R) (d : string) :
  (is_Some (compute_song_norms inv_idx idf_dict !! d)
   ↔ ∃ word tf, (d, tf) ∈ inv_get inv_idx word)
  ∧ ∀ norm, compute_song_norms inv_idx idf_dict !! d = Some norm →
      (0 <= norm)%R
      ∧ (norm = 0%R
         ↔ ∀ word tf, (d, tf) ∈ inv_get inv_idx word →
                      (IZR tf * default 0 (idf_dict !! word))%R = 0%R).
Proof.
  rewrite compute_song_norms_lookup. split.
  - case_decide as Hd; rewrite elem_of_norm_contribs in Hd.
    + split; [|by eexists]. intros _. destruct Hd as (word & posting & tf & Hw & Hp).
      exists word, tf. apply inv_get_elem_of. eauto.
    + split; [by intros [? ?]|]. intros (word & tf & Hp). exfalso. apply Hd.
      apply inv_get_elem_of in Hp as (posting & Hw & Hp). eauto.
  - intros norm. case_decide as Hd; [|done]. intros [= <-].
    set (c := norm_contribs inv_idx idf_dict).
    assert (Hsq : Forall (fun x => 0 <= x)%R (filter (fun p => p.1 = d) c).*2).
    { apply Forall_fmap, Forall_forall. intros [d' x] Hx. simpl.
      apply list_elem_of_filter in Hx as [_ Hx].
      apply elem_of_norm_contribs_value in Hx as (word & tf & _ & ->).
      apply Rle_0_sqr. }
    split; [apply sqrt_pos|]. unfold sum_for. split.
    + intros H0 word tf Hp. apply sqrt_eq_0 in H0; [|by apply Rsum_nonneg].
      apply Rsum_zero_Forall in H0; [|done].
      rewrite Forall_fmap, Forall_forall in H0.
      specialize (H0 (d, Rsqr (IZR tf * default 0 (idf_dict !! word))%R)).
      simpl in H0. apply Rsqr_0_uniq, H0. apply list_elem_of_filter. split; [done|].
      apply elem_of_norm_contribs_value. eauto.
    + intros Hall. rewrite Rsum_Forall_zero; [apply sqrt_0|].
      apply Forall_fmap, Forall_forall. intros [d' x] Hx. simpl.
      apply list_elem_of_filter in Hx as [Hd' Hx]. simpl in Hd'. subst d'.
      apply elem_of_norm_contribs_value in Hx as (word & tf & Hp & ->).
      rewrite (Hall _ _ Hp). apply Rsqr_0.
Qed.

(** ** [get_af_matrix_data] and [preprocess] *)

Lemma ix_items_snoc (df : list df_row) (row : df_row) :
  ix_items (df ++ [row]) = ix_items df ++ [(Z.of_nat (length df), row_uri row)].
Proof.
  unfold ix_items. rewrite imap_app. simpl. by rewrite Nat.add_0_r.
Qed.

Lemma ix_to_uri_lookup (df : list df_row) (i : Z) :
  foldl (fun (m : gmap Z string) '(i, uri) => <[i := uri]> m) ∅ (ix_items df) !! i
  = if bool_decide (0 ≤ i)%Z then row_uri <$> df !! Z.to_nat i else None.
Proof.
  induction df as [|row df IH] using rev_ind.
  - simpl. rewrite lookup_empty. by case_bool_decide.
  - rewrite ix_items_snoc, foldl_app. simpl.
    destruct (decide (i = Z.of_nat (length df))) as [->|Hne].
    + rewrite lookup_insert_eq, bool_decide_eq_true_2 by lia.
      rewrite Nat2Z.id, lookup_app_r by lia. by rewrite Nat.sub_diag.
    + rewrite lookup_insert_ne by done. rewrite IH.
      case_bool_decide as Hi; [|done].
      destruct (decide (Z.to_nat i < length df)%nat) as [Hlt|Hge].
      * by rewrite lookup_app_l by done.
      * rewrite (lookup_ge_None_2 df) by lia.
        rewrite (lookup_ge_None_2 (df ++ [row])); [done|].
        rewrite length_app. simpl. lia.
Qed.

Lemma uri_to_ix_lookup (df : list df_row) (u : string) (i : Z) :
  foldl (fun (m : gmap string Z) '(i, uri) => <[uri := i]> m) ∅ (ix_items df) !! u
  = Some i
  ↔ (0 ≤ i)%Z ∧ row_uri <$> df !! Z.to_nat i = Some u
    ∧ ∀ j, (Z.to_nat i < j)%nat → row_uri <$> df !! j ≠ Some u.
Proof.
  revert i. induction df as [|row df IH] using rev_ind; intros i.
  - simpl. rewrite lookup_empty. split; [done|]. by intros (_ & ? & _).
  - rewrite ix_items_snoc, foldl_app. simpl.
    destruct (decide (row_uri row = u)) as [<-|Hne].
    + rewrite lookup_insert_eq. split.
      * intros [= <-]. rewrite Nat2Z.id. split_and!; [lia| |].
        -- rewrite lookup_app_r by lia. by rewrite Nat.sub_diag.
        -- intros j Hj. rewrite lookup_ge_None_2; [done|].
           rewrite length_app. simpl. lia.
      * intros (Hi & Hrow & Hlast). f_equal.
        destruct (decide (Z.to_nat i = length df)) as [Heq|Hneq]; [lia|].
        exfalso. apply (Hlast (length df)).
        -- assert (Z.to_nat i < length (df ++ [row]))%nat.
           { apply lookup_lt_is_Some. destruct ((df ++ [row]) !! _); [by eexists|done]. }
           rewrite length_app in *. simpl in *. lia.
        -- rewrite lookup_app_r by lia. by rewrite Nat.sub_diag.
    + rewrite lookup_insert_ne by done. rewrite IH. split.
      * intros (Hi & Hrow & Hlast).
        assert (Hlt : (Z.to_nat i < length df)%nat).
        { apply lookup_lt_is_Some. destruct (df !! _); [by eexists|done]. }
        split_and!; [done|by rewrite lookup_app_l by done|].
        intros j Hj. destruct (decide (j < length df)%nat) as [Hjl|Hjl].
        -- rewrite lookup_app_l by done. by apply Hlast.
        -- destruct (decide (j = length df)) as [->|Hjn].
           ++ rewrite lookup_app_r by lia. rewrite Nat.sub_diag. simpl. congruence.
           ++ rewrite lookup_ge_None_2; [done|]. rewrite length_app. simpl. lia.
      * intros (Hi & Hrow & Hlast).
        assert (Hlt : (Z.to_nat i < length df)%nat).
        { destruct (decide (Z.to_nat i < length df)%nat) as [?|Hge]; [done|].
          exfalso. destruct (decide (Z.to_nat i = length df)) as [Heq|Hneq].
          - rewrite Heq, lookup_app_r in Hrow by lia.
            rewrite Nat.sub_diag in Hrow. simpl in Hrow. congruence.
          - rewrite lookup_ge_None_2 in Hrow; [done|]. rewrite length_app. simpl. lia. }
        split_and!; [done|by rewrite lookup_app_l in Hrow by done|].
        intros j Hj Hju. apply (Hlast j Hj).
        assert (Hjl : (j < length df)%nat).
        { apply lookup_lt_is_Some. destruct (df !! j); [by eexists|done]. }
        by rewrite lookup_app_l by done.
Qed.

(** [get_af_matrix_data] raises [ValueError] on a frame without rows (the
    scaler refuses the empty matrix) and returns on every other frame.
    The two index tables it returns: [af_ix_to_uri] maps the positions
    0, ..., [len(df) - 1] to the URIs of the rows; [af_uri_to_ix] maps a URI
    to the last position that carries it, so that
    [af_ix_to_uri[af_uri_to_ix[u]] = u] always, and
    [af_uri_to_ix[af_ix_to_uri[i]] = i] for every position when no URI
    repeats.  The matrix holds the scaled rows, one per row of the frame,
    and the norms are those of its rows. *)
Theorem get_af_matrix_data_tables (fit : list (list R) → StandardScaler)
    (df : list df_row) :
  (df = [] → get_af_matrix_data fit df = Raise ValueError)
  ∧ (df ≠ [] →
     ∃ af_ix_to_uri af_uri_to_ix af_matrix af_song_norms scaler,
       get_af_matrix_data fit df
       = Ok (af_ix_to_uri, af_uri_to_ix, af_matrix, af_song_norms, scaler)
       ∧ (∀ i, af_ix_to_uri !! i
               = if bool_decide (0 ≤ i)%Z then row_uri <$> df !! Z.to_nat i else None)
       ∧ (∀ u i, af_uri_to_ix !! u = Some i
                 ↔ (0 ≤ i)%Z ∧ row_uri <$> df !! Z.to_nat i = Some u
                   ∧ ∀ j, (Z.to_nat i < j)%nat → row_uri <$> df !! j ≠ Some u)
       ∧ (∀ u i, af_uri_to_ix !! u = Some i → af_ix_to_uri !! i = Some u)
       ∧ (NoDup (row_uri <$> df) →
          ∀ i u, af_ix_to_uri !! i = Some u → af_uri_to_ix !! u = Some i)
       ∧ scaler = fit (row_af <$> df)
       ∧ af_matrix = transform scaler <$> (row_af <$> df)
       ∧ length af_matrix = length df
       ∧ af_song_norms = linalg_norm <$> af_matrix).
Proof.
  unfold get_af_matrix_data. split.
  - intros ->. by rewrite decide_True.
  - intros Hne. rewrite decide_False by (by destruct df).
    eexists _, _, _, _, _. split; [done|]. split_and!.
    + apply ix_to_uri_lookup.
    + apply uri_to_ix_lookup.
    + intros u i (Hi & Hrow & _)%uri_to_ix_lookup.
      by rewrite ix_to_uri_lookup, bool_decide_eq_true_2.
    + intros Hnd i u. rewrite ix_to_uri_lookup. case_bool_decide as Hi; [|done].
      intros Hrow. apply uri_to_ix_lookup. split_and!; [done..|].
      intros j Hj Hju. rewrite <- list_lookup_fmap in Hrow, Hju.
      pose proof (NoDup_lookup _ _ _ _ Hnd Hrow Hju). lia.
    + done.
    + done.
    + by rewrite !length_fmap.
    + done.
Qed.

Lemma built_df_bound (stopwords : gset string) (isalpha : string → bool)
    (lyrics_dict : gmap string (gmap string Z)) (remove_stopwords : bool)
    (word : string) (posting : postings) :
  (make_inv_idx stopwords isalpha lyrics_dict remove_stopwords).1 !! word
  = Some posting →
  (1 ≤ length posting ≤ size lyrics_dict)%nat.
Proof.
  intros Hw.
  assert (Hp : posting = inv_get (make_inv_idx stopwords isalpha lyrics_dict
                                    remove_stopwords).1 word)
    by (unfold inv_get; by rewrite Hw).
  split.
  - destruct (proj1 (built_is_Some stopwords isalpha lyrics_dict remove_stopwords word))
      as (uri & val & Hin); [by eexists|].
    apply elem_of_select_word in Hin. rewrite <- inv_get_built, <- Hp in Hin.
    destruct posting; [by apply elem_of_nil in Hin|simpl; lia].
  - rewrite <- (length_fmap fst posting), <- length_map_to_list.
    rewrite <- (length_fmap fst (map_to_list lyrics_dict)).
    apply submseteq_length, NoDup_submseteq.
    + by eapply make_inv_idx_well_formed.
    + intros uri Huri. apply list_elem_of_fmap in Huri as ([u val] & -> & Huv).
      rewrite Hp in Huv. apply posting_owner in Huv as (cnt & Hu & _). simpl.
      apply list_elem_of_fmap. exists (u, cnt). split; [done|].
      by apply elem_of_map_to_list.
Qed.

Lemma preprocess_idf (stopwords : gset string) (isalpha : string → bool)
    (lyrics_dict : gmap string (gmap string Z)) (remove_stopwords : bool) :
  let built := (make_inv_idx stopwords isalpha lyrics_dict remove_stopwords).1 in
  compute_idf built (size lyrics_dict) 1 1
  = Ok (map_imap (fun _ posting =>
                    Some (log2 (INR (size lyrics_dict) / INR (1 + length posting))))
                 built).
Proof.
  intros built. unfold compute_idf. apply for_each_map_imap.
  intros acc word posting Hw. apply built_df_bound in Hw as [H1 Hn].
  rewrite bool_decide_eq_true_2 by lia.
  rewrite decide_False by lia. rewrite bool_decide_eq_true_2; [done|].
  assert (Hpos : (0 < INR (size lyrics_dict))%R) by (apply lt_0_INR; lia).
  apply le_INR in Hn. apply (Rmult_le_reg_r (INR (size lyrics_dict))); [done|].
  unfold Rdiv. rewrite Rmult_assoc, Rinv_l by lra. lra.
Qed.

Lemma preprocess_empty (stopwords : gset string) (isalpha : string → bool)
    (fit : list (list R) → StandardScaler)
    (df : list df_row) (lyrics_dict : gmap string (gmap string Z))
    (remove_stopwords : bool) :
  filter (fun row => is_Some (lyrics_dict !! track_id (row_song row))) df = [] →
  preprocess stopwords isalpha fit df lyrics_dict remove_stopwords = Raise ValueError.
Proof.
  intros Hkept. unfold preprocess.
  pose proof (preprocess_idf stopwords isalpha lyrics_dict remove_stopwords) as Hidf.
  cbv zeta in Hidf.
  destruct (make_inv_idx stopwords isalpha lyrics_dict remove_stopwords)
    as [inv_idx word_to_ix].
  cbn [fst snd] in *. rewrite Hidf, Hkept. reflexivity.
Qed.

Lemma preprocess_Ok (stopwords : gset string) (isalpha : string → bool)
    (fit : list (list R) → StandardScaler)
    (df : list df_row) (lyrics_dict : gmap string (gmap string Z))
    (remove_stopwords : bool) :
  let built := make_inv_idx stopwords isalpha lyrics_dict remove_stopwords in
  let kept := filter (fun row => is_Some (lyrics_dict !! track_id (row_song row))) df in
  let idf := map_imap (fun _ (posting : postings) =>
               Some (log2 (INR (size lyrics_dict) / INR (1 + length posting))))
               built.1 in
  let sc := fit (row_af <$> kept) in
  kept ≠ [] →
  preprocess stopwords isalpha fit df lyrics_dict remove_stopwords
  = Ok ({| uri_to_song := foldl (fun m row => <[row_uri row := row_song row]> m) ∅ kept;
           inv_idx := built.1; idf_dict := idf;
           song_norms_dict := compute_song_norms built.1 idf;
           ix_to_uri := foldl (fun m '(i, uri) => <[i := uri]> m) ∅ (ix_items kept);
           af_matrix := transform sc <$> (row_af <$> kept);
           af_song_norms := row_norms (transform sc <$> (row_af <$> kept));
           scaler := sc |},
        built.2,
        foldl (fun m '(i, uri) => <[uri := i]> m) ∅ (ix_items kept)).
Proof.
  cbv zeta. intros Hkept. unfold preprocess.
  pose proof (preprocess_idf stopwords isalpha lyrics_dict remove_stopwords) as Hidf.
  cbv zeta in Hidf.
  destruct (make_inv_idx stopwords isalpha lyrics_dict remove_stopwords)
    as [inv_idx word_to_ix].
  cbn [fst snd] in *. rewrite Hidf. cbn [mbind res_bind].
  unfold get_af_matrix_data.
  rewrite decide_False; [done|]. by destruct (filter _ df).
Qed.

Lemma preprocess_Ok_inv (stopwords : gset string) (isalpha : string → bool)
    (fit : list (list R) → StandardScaler)
    (df : list df_row) (lyrics_dict : gmap string (gmap string Z))
    (remove_stopwords : bool)
    (vars_dict : vars) (word_to_ix : gmap string nat) (uri_to_ix : gmap string Z) :
  preprocess stopwords isalpha fit df lyrics_dict remove_stopwords
  = Ok (vars_dict, word_to_ix, uri_to_ix) →
  filter (fun row => is_Some (lyrics_dict !! track_id (row_song row))) df ≠ []
  ∧ preprocess stopwords isalpha fit df lyrics_dict remove_stopwords
    = Ok ({| uri_to_song :=
               foldl (fun m row => <[row_uri row := row_song row]> m) ∅
                     (filter (fun row => is_Some (lyrics_dict !! track_id (row_song row)))
                             df);
             inv_idx := (make_inv_idx stopwords isalpha lyrics_dict remove_stopwords).1;
             idf_dict :=
               map_imap (fun _ (posting : postings) =>
                           Some (log2 (INR (size lyrics_dict)
                                       / INR (1 + length posting))))
                        (make_inv_idx stopwords isalpha lyrics_dict remove_stopwords).1;
             song_norms_dict :=
               compute_song_norms
                 (make_inv_idx stopwords isalpha lyrics_dict remove_stopwords).1
                 (map_imap (fun _ (posting : postings) =>
                              Some (log2 (INR (size lyrics_dict)
                                          / INR (1 + length posting))))
                    (make_inv_idx stopwords isalpha lyrics_dict remove_stopwords).1);
             ix_to_uri :=
               foldl (fun m '(i, uri) => <[i := uri]> m) ∅
                     (ix_items (filter (fun row => is_Some (lyrics_dict
                                                    !! track_id (row_song row))) df));
             af_matrix :=
               transform (fit (row_af <$> filter (fun row => is_Some (lyrics_dict
                                                    !! track_id (row_song row))) df))
                 <$> (row_af <$> filter (fun row => is_Some (lyrics_dict
                                                    !! track_id (row_song row))) df);
             af_song_norms :=
               row_norms
                 (transform (fit (row_af <$> filter (fun row => is_Some (lyrics_dict
                                                    !! track_id (row_song row))) df))
                    <$> (row_af <$> filter (fun row => is_Some (lyrics_dict
                                                    !! track_id (row_song row))) df));
             scaler := fit (row_af <$> filter (fun row => is_Some (lyrics_dict
                                                    !! track_id (row_song row))) df) |},
          (make_inv_idx stopwords isalpha lyrics_dict remove_stopwords).2,
          foldl (fun m '(i, uri) => <[uri := i]> m) ∅
                (ix_items (filter (fun row => is_Some (lyrics_dict
                                                 !! track_id (row_song row))) df))).
Proof.
  intros Hpre.
  destruct (decide (filter (fun row => is_Some (lyrics_dict !! track_id (row_song row)))
                           df = [])) as [Hnil|Hne].
  - by rewrite preprocess_empty in Hpre.
  - split; [done|]. by apply preprocess_Ok.
Qed.

(** [preprocess] raises [ValueError] exactly when no row of the frame has
    lyrics (the scaler is then given an empty matrix), and returns its
    bundle otherwise.  It never raises [ZeroDivisionError]: the division
    by [n_docs] in [compute_idf] is only reached through a posting, and
    postings come from [lyrics_dict], whose size [n_docs] is.  In the
    bundle, with the default thresholds, every word of the index has an
    IDF value, namely [log2 (n_docs / (1 + df))] with [1 <= df <= n_docs],
    and the norm table is the one of [compute_song_norms] for these two
    tables. *)
Theorem preprocess_outcome (stopwords : gset string) (isalpha : string → bool)
    (fit : list (list R) → StandardScaler)
    (df : list df_row) (lyrics_dict : gmap string (gmap string Z))
    (remove_stopwords : bool) :
  let kept := filter (fun row => is_Some (lyrics_dict !! track_id (row_song row))) df in
  (preprocess stopwords isalpha fit df lyrics_dict remove_stopwords = Raise ValueError
   ↔ kept = [])
  ∧ ((∃ out, preprocess stopwords isalpha fit df lyrics_dict remove_stopwords = Ok out)
     ↔ kept ≠ [])
  ∧ ∀ vars_dict word_to_ix uri_to_ix,
      preprocess stopwords isalpha fit df lyrics_dict remove_stopwords
      = Ok (vars_dict, word_to_ix, uri_to_ix) →
      (inv_idx vars_dict, word_to_ix)
      = make_inv_idx stopwords isalpha lyrics_dict remove_stopwords
      ∧ (∀ word posting,
           inv_idx vars_dict !! word = Some posting →
           (1 ≤ length posting ≤ size lyrics_dict)%nat
           ∧ idf_dict vars_dict !! word
             = Some (log2 (INR (size lyrics_dict) / INR (1 + length posting))))
      ∧ (∀ word, is_Some (idf_dict vars_dict !! word)
                 → is_Some (inv_idx vars_dict !! word))
      ∧ song_norms_dict vars_dict
        = compute_song_norms (inv_idx vars_dict) (idf_dict vars_dict).
Proof.
  intros kept. split_and!.
  - split.
    + intros Hraise. destruct (decide (kept = [])) as [|Hne]; [done|].
      unfold kept in Hne.
      pose proof (preprocess_Ok stopwords isalpha fit df lyrics_dict remove_stopwords)
        as Hok.
      cbv zeta in Hok. rewrite (Hok Hne) in Hraise. done.
    + apply preprocess_empty.
  - split.
    + intros [[[v w] u] Hok]. by apply preprocess_Ok_inv in Hok as [? _].
    + intros Hne. eexists. by apply preprocess_Ok.
  - intros vars_dict word_to_ix uri_to_ix Hpre.
    destruct (preprocess_Ok_inv _ _ _ _ _ _ _ _ _ Hpre) as [_ Heq].
    rewrite Heq in Hpre. injection Hpre as <- <- _. cbn [inv_idx idf_dict song_norms_dict].
    split_and!.
    + by destruct (make_inv_idx _ _ _ _).
    + intros word posting Hw. split; [by eapply built_df_bound|].
      by rewrite map_lookup_imap, Hw.
    + intros word. rewrite map_lookup_imap.
      destruct (_ !! word); [by eexists|]. by intros [? ?].
    + done.
Qed.

(** ** [lyrics_sim] *)

(** The two ways in which a call of [lyrics_sim] ends. *)
Lemma lyrics_sim_cases (query_lyrics_cnt : gmap string Z)
    (inv_idx : gmap string postings) (idf_dict song_norms_dict : gmap string R) :
  ((∀ d, shares_token query_lyrics_cnt inv_idx idf_dict d →
         is_Some (song_norms_dict !! d))
   ∧ ∃ scores, lyrics_sim query_lyrics_cnt inv_idx idf_dict song_norms_dict
               = Ok scores)
  ∨ ((∃ d, shares_token query_lyrics_cnt inv_idx idf_dict d
           ∧ song_norms_dict !! d = None)
     ∧ lyrics_sim query_lyrics_cnt inv_idx idf_dict song_norms_dict = Raise KeyError).
Proof.
  destruct (accumulate_scores_lookup query_lyrics_cnt inv_idx idf_dict)
    as (doc_scores & Hacc & Hlook).
  assert (Hshare : ∀ d, is_Some (doc_scores !! d)
                        ↔ shares_token query_lyrics_cnt inv_idx idf_dict d).
  { intros d. rewrite Hlook, <- elem_of_dot_contribs.
    case_decide; (split; [intros [? ?]|intros ?]); try done; by eexists. }
  destruct (decide (map_Forall (fun d (_ : R) => is_Some (song_norms_dict !! d))
                               doc_scores)) as [Hall|Hnot].
  - left. assert (Hcov : ∀ d, shares_token query_lyrics_cnt inv_idx idf_dict d →
                              is_Some (song_norms_dict !! d)).
    { intros d [s Hs]%Hshare. by eapply Hall. }
    split; [done|].
    destruct (lyrics_sim_lookup _ _ _ _ Hcov) as (scores & Hs & _). eauto.
  - right. apply map_not_Forall in Hnot as (d & s & Hd & Hn); [|apply _].
    assert (Hnone : song_norms_dict !! d = None).
    { destruct (song_norms_dict !! d); [|done]. exfalso. apply Hn. by eexists. }
    split.
    + exists d. split; [|done]. apply Hshare. by eexists.
    + unfold lyrics_sim. rewrite (surjective_pairing (query_vector _ _)).
      rewrite Hacc, bind_Ok. eapply normalize_scores_uncovered; [by eexists|done].
Qed.

(** [lyrics_sim] raises [KeyError] exactly when the norm table lacks a
    song that shares an IDF-eligible token with the query, and returns a
    dictionary otherwise; it ends in no other way. *)
Theorem lyrics_sim_outcome (query_lyrics_cnt : gmap string Z)
    (inv_idx : gmap string postings) (idf_dict song_norms_dict : gmap string R) :
  (lyrics_sim query_lyrics_cnt inv_idx idf_dict song_norms_dict = Raise KeyError
   ↔ ∃ d, shares_token query_lyrics_cnt inv_idx idf_dict d
          ∧ song_norms_dict !! d = None)
  ∧ ((∃ scores, lyrics_sim query_lyrics_cnt inv_idx idf_dict song_norms_dict
                = Ok scores)
     ↔ ∀ d, shares_token query_lyrics_cnt inv_idx idf_dict d →
            is_Some (song_norms_dict !! d)).
Proof.
  destruct (lyrics_sim_cases query_lyrics_cnt inv_idx idf_dict song_norms_dict)
    as [[Hcov [scores Hok]]|[(d & Hd & Hn) Hraise]].
  - split; split.
    + by rewrite Hok.
    + intros (d & Hd & Hn). apply Hcov in Hd as [? ?]. congruence.
    + done.
    + eauto.
  - split; split.
    + eauto.
    + done.
    + intros [scores Hok]. congruence.
    + intros Hcov. apply Hcov in Hd as [? ?]. congruence.
Qed.

(** The result is the empty dictionary exactly when no song shares an
    IDF-eligible token with the query; in particular when no token of the
    query has an IDF value, whatever the index and the norms are. *)
Theorem lyrics_sim_empty (query_lyrics_cnt : gmap string Z)
    (inv_idx : gmap string postings) (idf_dict song_norms_dict : gmap string R) :
  (lyrics_sim query_lyrics_cnt inv_idx idf_dict song_norms_dict = Ok ∅
   ↔ ∀ d, ¬ shares_token query_lyrics_cnt inv_idx idf_dict d)
  ∧ ((∀ t, is_Some (query_lyrics_cnt !! t) → idf_dict !! t = None) →
     lyrics_sim query_lyrics_cnt inv_idx idf_dict song_norms_dict = Ok ∅).
Proof.
  assert (Hempty : (∀ d, ¬ shares_token query_lyrics_cnt inv_idx idf_dict d) →
                   lyrics_sim query_lyrics_cnt inv_idx idf_dict song_norms_dict
                   = Ok ∅).
  { intros Hno.
    destruct (lyrics_sim_lookup query_lyrics_cnt inv_idx idf_dict song_norms_dict)
      as (scores & Hok & Hkeys & _).
    - intros d Hd. by apply Hno in Hd.
    - rewrite Hok. f_equal. apply map_empty. intros d.
      destruct (scores !! d) eqn:Hs; [|done]. exfalso. apply (Hno d), Hkeys.
      by eexists. }
  split; [split|].
  - intros Hok d Hd.
    destruct (lyrics_sim_lookup _ _ _ _ (lyrics_sim_Ok_covered _ _ _ _ _ Hok))
      as (scores & Hs & Hkeys & _).
    rewrite Hok in Hs. injection Hs as <-. apply Hkeys in Hd as [? Hd].
    by rewrite lookup_empty in Hd.
  - apply Hempty.
  - intros Hnone. apply Hempty. intros d (t & cnt & idf & tf & Hq & Hi & _).
    rewrite Hnone in Hi; [done|by eexists].
Qed.

Lemma shares_token_scaled (k : Z) (query_lyrics_cnt : gmap string Z)
    (inv_idx : gmap string postings) (idf_dict : gmap string R) d :
  shares_token (Z.mul k <$> query_lyrics_cnt) inv_idx idf_dict d
  ↔ shares_token query_lyrics_cnt inv_idx idf_dict d.
Proof.
  unfold shares_token. split.
  - intros (t & cnt & idf & tf & Hq & Hi & Hp). rewrite lookup_fmap in Hq.
    destruct (query_lyrics_cnt !! t) as [c|] eqn:Hc; [|done]. eauto 10.
  - intros (t & cnt & idf & tf & Hq & Hi & Hp).
    exists t, (k * cnt)%Z, idf, tf. by rewrite lookup_fmap, Hq.
Qed.

Lemma shared_dot_scaled (k : Z) (query_lyrics_cnt : gmap string Z)
    (inv_idx : gmap string postings) (idf_dict : gmap string R) d :
  shared_dot (Z.mul k <$> query_lyrics_cnt) inv_idx idf_dict d
  = (shared_dot query_lyrics_cnt inv_idx idf_dict d * IZR k)%R.
Proof.
  unfold shared_dot. rewrite map_to_list_fmap, <- list_fmap_compose, <- Rsum_scal.
  apply Rsum_ext. intros [t cnt] _. simpl.
  destruct (idf_dict !! t) as [idf|]; [|lra].
  rewrite <- Rsum_scal. apply Rsum_ext. intros [u tf] _. simpl.
  rewrite mult_IZR. lra.
Qed.

Lemma query_norm_sq_scaled (k : Z) (query_lyrics_cnt : gmap string Z)
    (idf_dict : gmap string R) :
  query_norm_sq (Z.mul k <$> query_lyrics_cnt) idf_dict
  = (query_norm_sq query_lyrics_cnt idf_dict * Rsqr (IZR k))%R.
Proof.
  unfold query_norm_sq, query_items.
  rewrite <- !list_fmap_compose, !Rsum_omap.
  rewrite map_to_list_fmap, <- list_fmap_compose, <- Rsum_scal.
  apply Rsum_ext. intros [t cnt] _. simpl.
  destruct (idf_dict !! t) as [idf|]; simpl; [|lra].
  rewrite mult_IZR. unfold Rsqr. lra.
Qed.

Lemma fdiv_scaled (k x n s : R) :
  (0 < k)%R → fdiv (x * k) (n * (s * k)) = fdiv x (n * s).
Proof.
  intros Hk. unfold fdiv.
  destruct (decide ((n * s)%R = 0%R)) as [Hz|Hz].
  - rewrite decide_True by nra.
    destruct (decide (x = 0%R)) as [->|Hx].
    + by rewrite decide_True by lra.
    + rewrite decide_False by nra. f_equal. apply bool_decide_ext.
      split; intros; nra.
  - rewrite decide_False by nra. f_equal. field.
    split_and!; [intros ->; apply Hz; lra..|lra].
Qed.

(** Multiplying every count of the query by the same positive number
    changes nothing: the dot products and the query norm grow by the same
    factor (in exact arithmetic).  The same error is raised, or the same
    scores are returned. *)
Theorem lyrics_sim_scale_invariant (k : Z) (query_lyrics_cnt : gmap string Z)
    (inv_idx : gmap string postings) (idf_dict song_norms_dict : gmap string R) :
  (0 < k)%Z →
  lyrics_sim (Z.mul k <$> query_lyrics_cnt) inv_idx idf_dict song_norms_dict
  = lyrics_sim query_lyrics_cnt inv_idx idf_dict song_norms_dict.
Proof.
  intros Hk.
  destruct (lyrics_sim_cases query_lyrics_cnt inv_idx idf_dict song_norms_dict)
    as [[Hcov _]|[(d & Hd & Hn) ->]].
  - assert (Hcov' : ∀ d, shares_token (Z.mul k <$> query_lyrics_cnt) inv_idx
                                      idf_dict d → is_Some (song_norms_dict !! d)).
    { intros d Hd%shares_token_scaled. by apply Hcov. }
    destruct (lyrics_sim_lookup _ _ _ _ Hcov) as (scores & -> & Hkeys & Hval).
    destruct (lyrics_sim_lookup _ _ _ _ Hcov') as (scores' & -> & Hkeys' & Hval').
    f_equal. apply map_eq. intros d.
    destruct (scores' !! d) as [v'|] eqn:Hv'; destruct (scores !! d) as [v|] eqn:Hv.
    + destruct (Hcov d) as [norm Hnorm]; [apply Hkeys; by eexists|].
      rewrite (Hval' _ _ _ Hv' Hnorm), (Hval _ _ _ Hv Hnorm). f_equal.
      rewrite !dot_for_shared_dot, shared_dot_scaled, query_norm_sq_scaled.
      assert (HkR : (0 < IZR k)%R) by by apply IZR_lt.
      rewrite sqrt_mult_alt by apply query_norm_sq_nonneg.
      rewrite sqrt_Rsqr by lra. by apply fdiv_scaled.
    + exfalso. assert (Hs : is_Some (scores !! d)); [|rewrite Hv in Hs; by destruct Hs].
      apply Hkeys, (shares_token_scaled k), Hkeys'. by eexists.
    + exfalso. assert (Hs : is_Some (scores' !! d)); [|rewrite Hv' in Hs; by destruct Hs].
      apply Hkeys', (shares_token_scaled k), Hkeys. by eexists.
    + done.
  - destruct (lyrics_sim_cases (Z.mul k <$> query_lyrics_cnt) inv_idx idf_dict
                song_norms_dict) as [[Hcov _]|[_ ->]]; [|done].
    apply (shares_token_scaled k) in Hd. apply Hcov in Hd as [? ?]. congruence.
Qed.

Lemma lyrics_sim_scale_invariant_witness :
  lyrics_sim (Z.mul 2 <$> {[ "a" := 1%Z ]}) {[ "a" := [("s", 1%Z)] ]}
             {[ "a" := 0%R ]} {[ "s" := 0%R ]}
  = Ok {[ "s" := NaN ]}.
Proof.
  rewrite (lyrics_sim_scale_invariant 2 {[ "a" := 1%Z ]}); [|lia].
  apply nan_score_example.
Defined.

(** ** [af_sim] *)

Lemma matrix_dot_Ok (af_matrix : list (list R)) (q : list R) :
  (∀ row, row ∈ af_matrix → length row = length q) →
  ∃ dots, matrix_dot af_matrix q = Ok dots ∧ length dots = length af_matrix.
Proof.
  induction af_matrix as [|row rest IH]; intros Hall; [by exists []|].
  destruct IH as (ds & Hds & Hlen); [intros r Hr; apply Hall; by right|].
  exists (Rsum (zip_with Rmult row q) :: ds). simpl. unfold row_dot.
  rewrite decide_True by (apply Hall; by left). rewrite bind_Ok, Hds, bind_Ok.
  split; [done|]. simpl. by rewrite Hlen.
Qed.

Lemma matrix_dot_mismatch (af_matrix : list (list R)) (q : list R) row :
  row ∈ af_matrix → length row ≠ length q →
  matrix_dot af_matrix q = Raise ValueError.
Proof.
  induction af_matrix as [|row0 rest IH]; intros Hin Hne.
  - by apply elem_of_nil in Hin.
  - simpl. unfold row_dot. case_decide as Hlen; [|done]. rewrite bind_Ok.
    apply elem_of_cons in Hin as [->|Hin]; [done|]. by rewrite IH.
Qed.

Lemma scores_dict_build (ix_to_uri : gmap Z string) (scores : list npfloat)
    (ixs : list nat) (init : gmap string npfloat) :
  (∀ i, i ∈ ixs → (i < length scores)%nat ∧ is_Some (ix_to_uri !! Z.of_nat i)) →
  ∃ scores_dict,
    for_each (fun scores_dict i =>
                uri ← getitem ix_to_uri i;
                s ← scores_getitem scores i;
                Ok (<[uri := s]> scores_dict)) (Z.of_nat <$> ixs) init
    = Ok scores_dict
    ∧ (∀ uri, is_Some (scores_dict !! uri)
              ↔ is_Some (init !! uri)
                ∨ ∃ i, i ∈ ixs ∧ ix_to_uri !! Z.of_nat i = Some uri)
    ∧ (∀ uri v, scores_dict !! uri = Some v →
                init !! uri = Some v
                ∨ ∃ i, i ∈ ixs ∧ ix_to_uri !! Z.of_nat i = Some uri
                       ∧ scores !! i = Some v).
Proof.
  revert init. induction ixs as [|i ixs IH]; intros init Hall.
  - exists init. split; [done|]. split; [|auto]. intros uri. split; [auto|].
    intros [?|(i & Hi & _)]; [done|]. by apply elem_of_nil in Hi.
  - destruct (Hall i) as [Hlt [u Hu]]; [by left|].
    destruct (lookup_lt_is_Some_2 scores i Hlt) as [s Hs].
    assert (Hget : scores_getitem scores (Z.of_nat i) = Ok s).
    { unfold scores_getitem. cbv zeta.
      rewrite (bool_decide_eq_false_2 (Z.of_nat i < 0)%Z) by lia.
      rewrite bool_decide_eq_true_2 by lia. by rewrite Nat2Z.id, Hs. }
    destruct (IH (<[u := s]> init)) as (d & Hd & Hkeys & Hvals).
    { intros j Hj. apply Hall. by right. }
    exists d. rewrite fmap_cons, for_each_cons.
    rewrite (getitem_Some _ _ _ Hu), bind_Ok, Hget, bind_Ok.
    cbn [mbind res_bind]. split; [done|]. split.
    + intros uri. rewrite Hkeys. split.
      * intros [Hin|(j & Hj & Hju)].
        -- destruct (decide (u = uri)) as [<-|Hne].
           ++ right. exists i. split; [by left|done].
           ++ rewrite lookup_insert_ne in Hin by done. by left.
        -- right. exists j. split; [by right|done].
      * intros [Hin|(j & Hj & Hju)].
        -- left. destruct (decide (u = uri)) as [<-|Hne].
           ++ rewrite lookup_insert_eq. by eexists.
           ++ by rewrite lookup_insert_ne.
        -- apply elem_of_cons in Hj as [->|Hj].
           ++ left. rewrite Hu in Hju. injection Hju as <-.
              rewrite lookup_insert_eq. by eexists.
           ++ right. eauto.
    + intros uri v Hv. destruct (Hvals _ _ Hv) as [Hin|(j & Hj & Hju & Hjs)].
      * destruct (decide (u = uri)) as [<-|Hne].
        -- rewrite lookup_insert_eq in Hin. injection Hin as <-.
           right. exists i. split_and!; [by left|done|done].
        -- rewrite lookup_insert_ne in Hin by done. by left.
      * right. exists j. split_and!; [by right|done|done].
Qed.

Lemma af_sim_scores_list (query_af : audio_features) (af_matrix : list (list R))
    (af_song_norms : list R) (ix_to_uri : gmap Z string) (scaler : StandardScaler) :
  (∀ k, k ∈ AF_COLS → is_Some (af_values query_af !! k)) →
  (∀ row, row ∈ af_matrix → length row = length (feature_vector query_af scaler)) →
  length af_song_norms = length af_matrix →
  ∃ dots,
    matrix_dot af_matrix (feature_vector query_af scaler) = Ok dots
    ∧ length dots = length af_matrix
    ∧ let scores :=
        zip_with fdiv dots
          ((fun n => linalg_norm (feature_vector query_af scaler) * n)%R
             <$> af_song_norms) in
      length scores = length af_matrix
      ∧ af_sim query_af af_matrix af_song_norms ix_to_uri scaler None
        = for_each (fun scores_dict i =>
                      uri ← getitem ix_to_uri i;
                      s ← scores_getitem scores i;
                      Ok (<[uri := s]> scores_dict))
                   (Z.of_nat <$> seq 0 (length af_matrix)) ∅.
Proof.
  intros Hall Hrows Hnorms. rewrite af_sim_unfold by done. cbv zeta.
  destruct (matrix_dot_Ok af_matrix _ Hrows) as (dots & Hdots & Hlen).
  exists dots. split; [done|]. split; [done|].
  assert (Hslen : length (zip_with fdiv dots
                    ((fun n => linalg_norm (feature_vector query_af scaler) * n)%R
                       <$> af_song_norms)) = length af_matrix).
  { rewrite length_zip_with, length_fmap. lia. }
  split; [done|]. rewrite Hdots, bind_Ok.
  rewrite np_divide_same_length by (rewrite length_fmap; lia). rewrite bind_Ok.
  by rewrite Hslen.
Qed.

Lemma af_sim_dense (query_af : audio_features) (af_matrix : list (list R))
    (af_song_norms : list R) (ix_to_uri : gmap Z string) (scaler : StandardScaler) :
  (∀ k, k ∈ AF_COLS → is_Some (af_values query_af !! k)) →
  (∀ row, row ∈ af_matrix → length row = length (feature_vector query_af scaler)) →
  length af_song_norms = length af_matrix →
  (∀ i, (i < length af_matrix)%nat → is_Some (ix_to_uri !! Z.of_nat i)) →
  ∃ scores,
    af_sim query_af af_matrix af_song_norms ix_to_uri scaler None = Ok scores
    ∧ (∀ uri, is_Some (scores !! uri)
              ↔ ∃ i, (i < length af_matrix)%nat ∧ ix_to_uri !! Z.of_nat i = Some uri).
Proof.
  intros Hall Hrows Hnorms Hix.
  destruct (af_sim_scores_list query_af af_matrix af_song_norms ix_to_uri scaler
              Hall Hrows Hnorms) as (dots & _ & _ & Hslen & ->).
  set (scores := zip_with fdiv dots _) in *.
  destruct (scores_dict_build ix_to_uri scores (seq 0 (length af_matrix)) ∅)
    as (d & Hd & Hkeys & _).
  { intros i Hi%elem_of_seq. split; [rewrite Hslen; lia|]. apply Hix. lia. }
  exists d. split; [done|]. intros uri. rewrite Hkeys, lookup_empty. split.
  - intros [[? ?]|(i & Hi%elem_of_seq & Hu)]; [done|]. exists i. split; [lia|done].
  - intros (i & Hi & Hu). right. exists i. split; [|done]. apply elem_of_seq. lia.
Qed.

(** With all the features present, rows as long as the query vector, one
    norm per row and a URI for every row index, [af_sim] returns, with a
    score for the URI of every row and for nothing else: the audio scores
    cover the whole data set.  Each score is the quotient of the row's
    dot product with the query vector by the product of the two norms, for
    a row that carries the URI. *)
Theorem af_sim_all_songs (query_af : audio_features) (af_matrix : list (list R))
    (af_song_norms : list R) (ix_to_uri : gmap Z string) (scaler : StandardScaler) :
  (∀ k, k ∈ AF_COLS → is_Some (af_values query_af !! k)) →
  (∀ row, row ∈ af_matrix → length row = length (feature_vector query_af scaler)) →
  length af_song_norms = length af_matrix →
  (∀ i, (i < length af_matrix)%nat → is_Some (ix_to_uri !! Z.of_nat i)) →
  ∃ scores,
    af_sim query_af af_matrix af_song_norms ix_to_uri scaler None = Ok scores
    ∧ (∀ uri, is_Some (scores !! uri)
              ↔ ∃ i, (i < length af_matrix)%nat ∧ ix_to_uri !! Z.of_nat i = Some uri)
    ∧ (∀ uri v, scores !! uri = Some v →
         ∃ i row norm,
           af_matrix !! i = Some row ∧ af_song_norms !! i = Some norm
           ∧ ix_to_uri !! Z.of_nat i = Some uri
           ∧ v = fdiv (Rsum (zip_with Rmult row (feature_vector query_af scaler)))
                      (linalg_norm (feature_vector query_af scaler) * norm)).
Proof.
  intros Hall Hrows Hnorms Hix.
  destruct (af_sim_scores_list query_af af_matrix af_song_norms ix_to_uri scaler
              Hall Hrows Hnorms) as (dots & Hdots & Hlen & Hslen & ->).
  set (scores := zip_with fdiv dots _) in *.
  destruct (scores_dict_build ix_to_uri scores (seq 0 (length af_matrix)) ∅)
    as (d & Hd & Hkeys & Hvals).
  { intros i Hi%elem_of_seq. split; [rewrite Hslen; lia|]. apply Hix. lia. }
  exists d. split; [done|]. split.
  - intros uri. rewrite Hkeys, lookup_empty. split.
    + intros [[? ?]|(i & Hi%elem_of_seq & Hu)]; [done|]. exists i. split; [lia|done].
    + intros (i & Hi & Hu). right. exists i. split; [|done]. apply elem_of_seq. lia.
  - intros uri v Hv. destruct (Hvals _ _ Hv) as [Hin|(i & _ & Hu & Hs)].
    { by rewrite lookup_empty in Hin. }
    unfold scores in Hs. apply lookup_zip_with_Some in Hs as (dot & n & -> & Hdot & Hn).
    rewrite list_lookup_fmap in Hn.
    destruct (af_song_norms !! i) as [norm|] eqn:Hnorm; [|done]. injection Hn as <-.
    destruct (lookup_lt_is_Some_2 af_matrix i) as [row Hrow].
    { apply lookup_lt_Some in Hdot. lia. }
    apply matrix_dot_lookup in Hdots as [_ Hdots].
    destruct (Hdots _ _ Hrow) as [_ Hd']. rewrite Hdot in Hd'. injection Hd' as ->.
    exists i, row, norm. done.
Qed.

Lemma af_sim_all_songs_witness :
  let query_af :=
    {| af_values := list_to_map ((fun k => (k, 1%R)) <$> AF_COLS);
       af_artist_name := ""; af_track_name := ""; af_uri := "q" |} in
  let af_matrix := [replicate 12 0%R] in
  let ix_to_uri : gmap Z string := {[ 0%Z := "u0" ]} in
  let scaler := {| transform := fun v => v |} in
  ∃ scores,
    af_sim query_af af_matrix (row_norms af_matrix) ix_to_uri scaler None = Ok scores
    ∧ (∀ uri, is_Some (scores !! uri)
              ↔ ∃ i, (i < length af_matrix)%nat ∧ ix_to_uri !! Z.of_nat i = Some uri).
Proof.
  intros query_af af_matrix ix_to_uri scaler.
  destruct (af_sim_all_songs query_af af_matrix (row_norms af_matrix) ix_to_uri scaler)
    as (scores & Hok & Hkeys & _).
  - rewrite <- Forall_forall. unfold AF_COLS.
    repeat (constructor; [by eexists|]). constructor.
  - intros row ->%list_elem_of_singleton. reflexivity.
  - reflexivity.
  - intros i Hi. simpl in Hi. assert (i = 0%nat) as -> by lia. by eexists.
  - exists scores. by split.
Defined.

(** A query without one of the [AF_COLS] features makes [af_sim] raise
    [KeyError], before the matrix is looked at. *)
Theorem af_sim_missing_feature (query_af : audio_features) (af_matrix : list (list R))
    (af_song_norms : list R) (ix_to_uri : gmap Z string) (scaler : StandardScaler)
    (indices : option (list Z)) (k : string) :
  k ∈ AF_COLS → af_values query_af !! k = None →
  af_sim query_af af_matrix af_song_norms ix_to_uri scaler indices = Raise KeyError.
Proof.
  intros Hk Hnone. unfold af_sim.
  by rewrite (collect_values_missing _ _ _ k Hk Hnone).
Qed.

Lemma af_sim_missing_feature_witness :
  af_sim {| af_values := ∅; af_artist_name := ""; af_track_name := "";
            af_uri := "q" |}
         [] [] ∅ {| transform := fun v => v |} None
  = Raise KeyError.
Proof.
  apply (af_sim_missing_feature _ _ _ _ _ _ "acousticness").
  - by left.
  - apply lookup_empty.
Defined.

(** A matrix row whose length differs from that of the query vector makes
    [af_sim] raise [ValueError]. *)
Theorem af_sim_shape_mismatch (query_af : audio_features) (af_matrix : list (list R))
    (af_song_norms : list R) (ix_to_uri : gmap Z string) (scaler : StandardScaler)
    (indices : option (list Z)) (row : list R) :
  (∀ k, k ∈ AF_COLS → is_Some (af_values query_af !! k)) →
  row ∈ af_matrix → length row ≠ length (feature_vector query_af scaler) →
  af_sim query_af af_matrix af_song_norms ix_to_uri scaler indices = Raise ValueError.
Proof.
  intros Hall Hrow Hne. rewrite af_sim_unfold by done. cbv zeta.
  by rewrite (matrix_dot_mismatch _ _ row).
Qed.

Lemma af_sim_shape_mismatch_witness :
  af_sim {| af_values := list_to_map ((fun k => (k, 1%R)) <$> AF_COLS);
            af_artist_name := ""; af_track_name := ""; af_uri := "q" |}
         [[0%R]] [0%R] {[ 0%Z := "u0" ]} {| transform := fun v => v |} None
  = Raise ValueError.
Proof.
  apply (af_sim_shape_mismatch _ _ _ _ _ _ [0%R]).
  - rewrite <- Forall_forall. unfold AF_COLS.
    repeat (constructor; [by eexists|]). constructor.
  - by left.
  - simpl. lia.
Defined.

(** ** The ranking loop of [main] *)

Lemma rank_loop_raises (match_ : string → string → bool)
    (uri_to_song : gmap string song) (query_uri query_artist query_name : string)
    (n_results : Z) (rest : list (string * npfloat)) (i : Z)
    (output : list (npfloat * song)) x :
  x ∈ take (Z.to_nat (n_results - i)) rest → uri_to_song !! x.1 = None →
  rank_loop match_ uri_to_song query_uri query_artist query_name n_results
            rest i output = Raise KeyError.
Proof.
  revert i output. induction rest as [|[uri score] rest IH]; intros i output Hx Hnone.
  - rewrite take_nil in Hx. by apply elem_of_nil in Hx.
  - simpl. case_bool_decide as Hi.
    + replace (Z.to_nat (n_results - i)) with (S (Z.to_nat (n_results - (i + 1))))
        in Hx by lia.
      simpl in Hx. apply elem_of_cons in Hx as [->|Hx].
      * simpl in Hnone. by rewrite (getitem_None _ _ Hnone).
      * unfold getitem. destruct (uri_to_song !! uri); simpl; [|done]. by apply IH.
    + replace (Z.to_nat (n_results - i)) with 0%nat in Hx by lia.
      by apply elem_of_nil in Hx.
Qed.

Lemma rank_loop_cases (match_ : string → string → bool)
    (uri_to_song : gmap string song) (query_uri query_artist query_name : string)
    (n_results : Z) (ranked : list (string * npfloat)) :
  let scanned := take (Z.to_nat n_results) ranked in
  ((∀ x, x ∈ scanned → is_Some (uri_to_song !! x.1))
   ∧ rank_loop match_ uri_to_song query_uri query_artist query_name n_results
               ranked 0 []
     = Ok (omap (entry match_ uri_to_song query_uri query_artist query_name) scanned))
  ∨ ((∃ x, x ∈ scanned ∧ uri_to_song !! x.1 = None)
     ∧ rank_loop match_ uri_to_song query_uri query_artist query_name n_results
                 ranked 0 [] = Raise KeyError).
Proof.
  intros scanned.
  destruct (decide (Forall (fun x : string * npfloat => is_Some (uri_to_song !! x.1))
                           scanned)) as [Hall|Hnot].
  - left. rewrite Forall_forall in Hall. split; [done|].
    rewrite rank_loop_scan; rewrite Z.sub_0_r; done.
  - right. apply not_Forall_Exists, Exists_exists in Hnot as (x & Hx & Hn); [|apply _].
    assert (Hnone : uri_to_song !! x.1 = None).
    { destruct (uri_to_song !! x.1) eqn:Hsd; [|done]. exfalso. apply Hn.
      rewrite Hsd. by eexists. }
    split; [by exists x|]. apply (rank_loop_raises _ _ _ _ _ _ _ _ _ x); [|done].
    by rewrite Z.sub_0_r.
Qed.

(** The loop reads [uri_to_song] for the first [n_results] ranked items
    and for no other: it raises [KeyError] exactly when one of these has no
    entry, and otherwise returns the entries of these items that pass the
    filter, in ranking order. *)
Theorem rank_loop_outcome (match_ : string → string → bool)
    (uri_to_song : gmap string song) (query_uri query_artist query_name : string)
    (n_results : Z) (ranked : list (string * npfloat)) :
  let scanned := take (Z.to_nat n_results) ranked in
  let loop := rank_loop match_ uri_to_song query_uri query_artist query_name
                        n_results ranked 0 [] in
  (loop = Raise KeyError ↔ ∃ x, x ∈ scanned ∧ uri_to_song !! x.1 = None)
  ∧ ((∀ x, x ∈ scanned → is_Some (uri_to_song !! x.1)) →
     loop = Ok (omap (entry match_ uri_to_song query_uri query_artist query_name)
                     scanned))
  ∧ ((∃ output, loop = Ok output)
     → ∀ x, x ∈ scanned → is_Some (uri_to_song !! x.1)).
Proof.
  cbv zeta.
  destruct (rank_loop_cases match_ uri_to_song query_uri query_artist query_name
              n_results ranked) as [[Hall Hok]|[(x & Hx & Hn) Hraise]].
  - split_and!.
    + rewrite Hok. split; [done|]. intros (x & Hx & Hn).
      apply Hall in Hx as [? ?]. congruence.
    + done.
    + done.
  - split_and!.
    + split; [eauto|done].
    + intros Hall. apply Hall in Hx as [? ?]. congruence.
    + rewrite Hraise. by intros [? ?].
Qed.

Lemma omap_entry_uris (match_ : string → string → bool)
    (uri_to_song : gmap string song) (query_uri query_artist query_name : string)
    (l : list (string * npfloat)) :
  NoDup l.*1 →
  ∃ uris,
    NoDup uris ∧ (∀ uri, uri ∈ uris → uri ∈ l.*1)
    ∧ Forall2 (fun uri (r : npfloat * song) =>
                 (uri, r.1) ∈ l ∧ uri_to_song !! uri = Some r.2
                 ∧ keeps match_ query_uri query_artist query_name uri r.2 = true)
              uris
              (omap (entry match_ uri_to_song query_uri query_artist query_name) l).
Proof.
  induction l as [|[uri score] l IH]; intros Hnd.
  - exists []. split_and!; [constructor| |constructor]. by intros ? ?%elem_of_nil.
  - rewrite fmap_cons in Hnd. apply NoDup_cons in Hnd as [Hin Hnd].
    destruct (IH Hnd) as (uris & Hu & Hsub & Hall).
    assert (Hall' : Forall2 (fun uri0 (r : npfloat * song) =>
                       (uri0, r.1) ∈ (uri, score) :: l ∧ uri_to_song !! uri0 = Some r.2
                       ∧ keeps match_ query_uri query_artist query_name uri0 r.2 = true)
                      uris
                      (omap (entry match_ uri_to_song query_uri query_artist query_name)
                            l)).
    { eapply Forall2_impl; [exact Hall|]. intros u r (? & ? & ?).
      split_and!; [by right|done|done]. }
    csimpl. unfold entry at 1. simpl.
    destruct (uri_to_song !! uri) as [sd|] eqn:Hsd; simpl.
    + destruct (keeps _ _ _ _ _ _) eqn:Hk.
      * exists (uri :: uris). split_and!.
        -- apply NoDup_cons. split; [|done]. intros Hx. by apply Hin, Hsub.
        -- intros u [->|Hx]%elem_of_cons; [by left|]. right. by apply Hsub.
        -- constructor; [|done]. simpl. split_and!; [by left|done|done].
      * exists uris. split_and!; [done| |done]. intros u Hx. right. by apply Hsub.
    + exists uris. split_and!; [done| |done]. intros u Hx. right. by apply Hsub.
Qed.

(** What [main] puts into [output]: at most [n_results] pairs, and at most
    one for each scored song: the entries of [output] come, in order, from
    pairwise different URIs of the score map.  Each entry pairs the fused
    score of its URI with the record of that URI, which is not the query
    song's, and neither the record's artist nor its title matches the
    query's. *)
Theorem rank_output (match_ : string → string → bool) (vars_dict : vars)
    (query_uri query_artist query_name : string) (n_results : Z)
    (averaged_scores : gmap string npfloat) (output : list (npfloat * song)) :
  rank match_ vars_dict query_uri query_artist query_name n_results averaged_scores
  = Ok output →
  (length output ≤ Z.to_nat n_results)%nat
  ∧ (length output ≤ size averaged_scores)%nat
  ∧ (∀ score song_data, (score, song_data) ∈ output →
       ∃ uri, averaged_scores !! uri = Some score
              ∧ uri_to_song vars_dict !! uri = Some song_data
              ∧ uri ≠ query_uri
              ∧ match_ (artist_name song_data) query_artist = false
              ∧ match_ (track_name song_data) query_name = false)
  ∧ ∃ uris,
      NoDup uris
      ∧ Forall2 (fun uri (r : npfloat * song) =>
                   averaged_scores !! uri = Some r.1
                   ∧ uri_to_song vars_dict !! uri = Some r.2
                   ∧ uri ≠ query_uri
                   ∧ match_ (artist_name r.2) query_artist = false
                   ∧ match_ (track_name r.2) query_name = false)
                uris output.
Proof.
  unfold rank. intros Hok.
  destruct (rank_loop_cases match_ (uri_to_song vars_dict) query_uri query_artist
              query_name n_results (sorted (map_to_list averaged_scores)))
    as [[Hall Hok']|[_ Hraise]]; [|congruence].
  rewrite Hok' in Hok. injection Hok as <-.
  set (scanned := take (Z.to_nat n_results) (sorted (map_to_list averaged_scores))).
  assert (Hin : ∀ uri score, (uri, score) ∈ scanned →
                             averaged_scores !! uri = Some score).
  { intros uri score Hx. apply elem_of_map_to_list. rewrite <- sorted_Permutation.
    eapply subseteq_take, Hx. }
  destruct (omap_entry_uris match_ (uri_to_song vars_dict) query_uri query_artist
              query_name scanned) as (uris & Hnd & _ & Huris).
  { unfold scanned. rewrite fmap_take. eapply sublist_NoDup; [|apply sublist_take].
    rewrite sorted_Permutation. apply NoDup_fst_map_to_list. }
  assert (Hfull : Forall2 (fun uri (r : npfloat * song) =>
                     averaged_scores !! uri = Some r.1
                     ∧ uri_to_song vars_dict !! uri = Some r.2
                     ∧ uri ≠ query_uri
                     ∧ match_ (artist_name r.2) query_artist = false
                     ∧ match_ (track_name r.2) query_name = false)
                    uris
                    (omap (entry match_ (uri_to_song vars_dict) query_uri query_artist
                                 query_name) scanned)).
  { eapply Forall2_impl; [exact Huris|]. intros uri r (Hx & Hsd & Hk).
    apply keeps_true in Hk as (Hne & Ha & Ht). split_and!; try done. by apply Hin. }
  split_and!.
  - etrans; [apply omap_length_le|]. unfold scanned. rewrite length_take. lia.
  - etrans; [apply omap_length_le|]. unfold scanned. rewrite length_take.
    rewrite sorted_Permutation, length_map_to_list. lia.
  - intros score song_data Hr.
    apply list_elem_of_lookup_1 in Hr as [i Hi].
    destruct (Forall2_lookup_r _ _ _ _ _ Hfull Hi) as (uri & _ & Hp).
    exists uri. exact Hp.
  - by exists uris.
Qed.

Lemma rank_output_witness :
  let vars_dict :=
    {| uri_to_song := {[ "u" := {| track_id := "u"; artist_name := "a";
                                   track_name := "t" |} ]};
       inv_idx := ∅; idf_dict := ∅; song_norms_dict := ∅;
       ix_to_uri := ∅; af_matrix := []; af_song_norms := [];
       scaler := {| transform := fun v => v |} |} in
  let song_data := {| track_id := "u"; artist_name := "a"; track_name := "t" |} in
  rank (fun _ _ => false) vars_dict "q" "b" "s" 1 {[ "u" := Fin 1 ]}
  = Ok [(Fin 1, song_data)]
  ∧ (∃ uri, ({[ "u" := Fin 1 ]} : gmap string npfloat) !! uri = Some (Fin 1)
            ∧ uri ≠ "q")
  ∧ ∃ uris : list string, NoDup uris ∧ length uris = 1%nat.
Proof.
  intros vars_dict song_data.
  assert (Hok : rank (fun _ _ => false) vars_dict "q" "b" "s" 1 {[ "u" := Fin 1 ]}
                = Ok [(Fin 1, song_data)]).
  { unfold rank. rewrite map_to_list_singleton. reflexivity. }
  split; [done|].
  destruct (rank_output _ _ _ _ _ _ _ _ Hok) as (_ & _ & Hout & uris & Hnd & Hall).
  split.
  - destruct (Hout (Fin 1) song_data) as (uri & Hs & _ & Hne & _); [by left|].
    by exists uri.
  - exists uris. split; [done|]. by apply Forall2_length in Hall.
Defined.

(** ** [main] once the query is resolved *)

Lemma lyric_sims_collect (lyric_sim_scores : gmap string npfloat)
    (output : list (npfloat * song)) (init out : list npfloat) :
  for_each (fun acc '(_, d) =>
              s ← getitem lyric_sim_scores (track_id d); Ok (acc ++ [s]))
           output init = Ok out →
  ∃ sims, out = init ++ sims ∧ length sims = length output
          ∧ ∀ i r, output !! i = Some r →
                   is_Some (sims !! i)
                   ∧ sims !! i = lyric_sim_scores !! track_id r.2.
Proof.
  revert init. induction output as [|[score d] output IH]; intros init.
  - rewrite for_each_nil. intros [= <-]. exists []. rewrite app_nil_r.
    split_and!; [done..|]. intros i r. by rewrite lookup_nil.
  - rewrite for_each_cons.
    destruct (lyric_sim_scores !! track_id d) as [s|] eqn:Hs;
      [|by rewrite (getitem_None _ _ Hs)].
    rewrite (getitem_Some _ _ _ Hs). cbn [mbind res_bind]. intros Hrest.
    destruct (IH _ Hrest) as (sims & -> & Hlen & Hall). exists (s :: sims).
    split_and!.
    + by rewrite <- app_assoc.
    + simpl. by rewrite Hlen.
    + intros [|i] r; simpl.
      * intros [= <-]. simpl. split; [by eexists|done].
      * apply Hall.
Qed.

(** The third component of the result.  With [lyrics_weight = 0] it is
    [n_results] zeros, whatever the length of [output] is.  Otherwise it
    is aligned with [output]: its [i]-th entry is the lyrical score stored
    under the [track_id] of the [i]-th song of [output]. *)
Theorem main_scores_lyric_sims (match_ : string → string → bool)
    (retrieve_lyrics : string → string → option (gmap string Z))
    (query_af : audio_features) (query_uri query_artist query_name : string)
    (lyrics_weight : R) (n_results : Z) (vars_dict : vars)
    (result_af : audio_features) (output : list (npfloat * song))
    (sorted_lyric_sims : list npfloat) :
  main_scores match_ retrieve_lyrics query_af query_uri query_artist query_name
              lyrics_weight n_results vars_dict
  = Ok (Ranking result_af output sorted_lyric_sims) →
  result_af = query_af
  ∧ (lyrics_weight = 0%R →
     (0 ≤ n_results)%Z
     ∧ sorted_lyric_sims = replicate (Z.to_nat n_results) (Fin 0))
  ∧ (lyrics_weight ≠ 0%R →
     ∃ query_lyrics_cnt lyric_sim_scores,
       retrieve_lyrics query_artist query_name = Some query_lyrics_cnt
       ∧ query_lyrics_cnt ≠ ∅
       ∧ lyrics_sim query_lyrics_cnt (inv_idx vars_dict) (idf_dict vars_dict)
                    (song_norms_dict vars_dict) = Ok lyric_sim_scores
       ∧ length sorted_lyric_sims = length output
       ∧ ∀ i r, output !! i = Some r →
                is_Some (sorted_lyric_sims !! i)
                ∧ sorted_lyric_sims !! i = lyric_sim_scores !! track_id r.2).
Proof.
  unfold main_scores. destruct (decide (lyrics_weight = 0%R)) as [Hw|Hw].
  - case_bool_decide as Hn; [done|]. rewrite bind_Ok.
    destruct (vars_af_sim _ _) as [af|]; [|done]. rewrite bind_Ok.
    destruct (rank _ _ _ _ _ _ _) as [out|]; [|done]. rewrite bind_Ok.
    intros [= <- <- <-]. split_and!; [done| |done]. intros _. split; [lia|done].
  - destruct (retrieve_lyrics _ _) as [cnt|] eqn:Hcnt; [|done].
    destruct (decide (cnt = ∅)) as [|Hne]; [done|].
    destruct (lyrics_sim _ _ _ _) as [ls|] eqn:Hls; [|done]. rewrite bind_Ok.
    destruct (vars_af_sim _ _) as [af|]; [|done]. rewrite bind_Ok.
    destruct (fuse _ _ _) as [avg|]; [|done]. rewrite bind_Ok.
    destruct (rank _ _ _ _ _ _ _) as [out|]; [|done]. rewrite bind_Ok.
    destruct (for_each _ out []) as [sims|] eqn:Hsims; [|done]. rewrite bind_Ok.
    intros [= <- <- <-]. split_and!; [done|done|]. intros _.
    apply lyric_sims_collect in Hsims as (sims' & -> & Hlen & Hall).
    exists cnt, ls. split_and!; done.
Qed.

(** A negative [n_results] raises [ValueError] when the lyrics are left
    out (an array of negative length is asked for); with lyrics, and the
    scorers and the fusion returning, the loop is skipped and an empty
    ranking is returned. *)
Theorem main_scores_negative_results (match_ : string → string → bool)
    (retrieve_lyrics : string → string → option (gmap string Z))
    (query_af : audio_features) (query_uri query_artist query_name : string)
    (lyrics_weight : R) (n_results : Z) (vars_dict : vars) :
  (n_results < 0)%Z →
  (lyrics_weight = 0%R →
   main_scores match_ retrieve_lyrics query_af query_uri query_artist query_name
               lyrics_weight n_results vars_dict = Raise ValueError)
  ∧ (lyrics_weight ≠ 0%R →
     ∀ query_lyrics_cnt lyric_sim_scores af_sim_scores averaged_scores,
       retrieve_lyrics query_artist query_name = Some query_lyrics_cnt →
       query_lyrics_cnt ≠ ∅ →
       lyrics_sim query_lyrics_cnt (inv_idx vars_dict) (idf_dict vars_dict)
                  (song_norms_dict vars_dict) = Ok lyric_sim_scores →
       vars_af_sim vars_dict query_af = Ok af_sim_scores →
       fuse lyrics_weight af_sim_scores lyric_sim_scores = Ok averaged_scores →
       main_scores match_ retrieve_lyrics query_af query_uri query_artist query_name
                   lyrics_weight n_results vars_dict
       = Ok (Ranking query_af [] [])).
Proof.
  intros Hn. unfold main_scores. split.
  - intros Hw. rewrite decide_True by done. by rewrite bool_decide_eq_true_2.
  - intros Hw cnt ls af avg Hcnt Hne Hls Haf Havg. rewrite decide_False by done.
    rewrite Hcnt. rewrite decide_False by done.
    rewrite Hls, bind_Ok, Haf, bind_Ok, Havg, bind_Ok. unfold rank.
    destruct (sorted (map_to_list avg)) as [|[uri score] rest]; [done|].
    simpl. by rewrite bool_decide_eq_false_2 by lia.
Qed.

Lemma main_scores_negative_results_witness :
  main_scores (fun _ _ => false) (fun _ _ => None)
              {| af_values := ∅; af_artist_name := ""; af_track_name := "";
                 af_uri := "q" |}
              "q" "a" "t" 0 (-1)
              {| uri_to_song := ∅; inv_idx := ∅; idf_dict := ∅; song_norms_dict := ∅;
                 ix_to_uri := ∅; af_matrix := []; af_song_norms := [];
                 scaler := {| transform := fun v => v |} |}
  = Raise ValueError.
Proof.
  apply (main_scores_negative_results (fun _ _ => false) (fun _ _ => None)
           _ "q" "a" "t" 0 (-1)); [lia|done].
Defined.

(** When the query shares no IDF-eligible token with any song, the
    lyrical scores are empty and so are the fused scores: [main] returns an
    empty ranking, although every song has an audio score. *)
Theorem main_scores_no_shared_token (match_ : string → string → bool)
    (retrieve_lyrics : string → string → option (gmap string Z))
    (query_af : audio_features) (query_uri query_artist query_name : string)
    (lyrics_weight : R) (n_results : Z) (vars_dict : vars)
    (query_lyrics_cnt : gmap string Z) (af_sim_scores : gmap string npfloat) :
  lyrics_weight ≠ 0%R →
  retrieve_lyrics query_artist query_name = Some query_lyrics_cnt →
  query_lyrics_cnt ≠ ∅ →
  (∀ d, ¬ shares_token query_lyrics_cnt (inv_idx vars_dict) (idf_dict vars_dict) d) →
  vars_af_sim vars_dict query_af = Ok af_sim_scores →
  main_scores match_ retrieve_lyrics query_af query_uri query_artist query_name
              lyrics_weight n_results vars_dict
  = Ok (Ranking query_af [] []).
Proof.
  intros Hw Hcnt Hne Hno Haf. unfold main_scores.
  rewrite decide_False by done. rewrite Hcnt. rewrite decide_False by done.
  destruct (lyrics_sim_lookup query_lyrics_cnt (inv_idx vars_dict)
              (idf_dict vars_dict) (song_norms_dict vars_dict))
    as (scores & Hok & Hkeys & _).
  { intros d Hd. by apply Hno in Hd. }
  assert (scores = ∅) as ->.
  { apply map_empty. intros d. destruct (scores !! d) eqn:Hs; [|done].
    exfalso. apply (Hno d), Hkeys. by eexists. }
  rewrite Hok, bind_Ok, Haf, bind_Ok. unfold fuse.
  rewrite map_to_list_empty, for_each_nil, bind_Ok. unfold rank.
  by rewrite map_to_list_empty.
Qed.

Lemma main_scores_no_shared_token_witness :
  let query_af :=
    {| af_values := list_to_map ((fun k => (k, 1%R)) <$> AF_COLS);
       af_artist_name := "a"; af_track_name := "t"; af_uri := "q" |} in
  let vars_dict :=
    {| uri_to_song := ∅; inv_idx := {[ "b" := [("s", 1%Z)] ]};
       idf_dict := {[ "b" := 1%R ]}; song_norms_dict := {[ "s" := 1%R ]};
       ix_to_uri := ∅; af_matrix := []; af_song_norms := [];
       scaler := {| transform := fun v => v |} |} in
  main_scores (fun _ _ => false) (fun _ _ => Some {[ "a" := 1%Z ]})
              query_af "q" "a" "t" 1 10 vars_dict
  = Ok (Ranking query_af [] []).
Proof.
  intros query_af vars_dict.
  apply (main_scores_no_shared_token _ _ _ _ _ _ _ _ _ {[ "a" := 1%Z ]} ∅).
  - lra.
  - done.
  - apply insert_non_empty.
  - intros d (t & cnt & idf & tf & Hq & Hi & _).
    apply lookup_singleton_Some in Hq as [<- _]. simpl in Hi.
    by apply lookup_singleton_Some in Hi as [? _].
  - reflexivity.
Defined.

Lemma main_scores_lyric_sims_witness :
  let query_af :=
    {| af_values := list_to_map ((fun k => (k, 1%R)) <$> AF_COLS);
       af_artist_name := "a"; af_track_name := "t"; af_uri := "q" |} in
  let vars_dict :=
    {| uri_to_song := ∅; inv_idx := {[ "b" := [("s", 1%Z)] ]};
       idf_dict := {[ "b" := 1%R ]}; song_norms_dict := {[ "s" := 1%R ]};
       ix_to_uri := ∅; af_matrix := []; af_song_norms := [];
       scaler := {| transform := fun v => v |} |} in
  main_scores (fun _ _ => false) (fun _ _ => None) query_af "q" "a" "t" 0 3 vars_dict
  = Ok (Ranking query_af [] [Fin 0; Fin 0; Fin 0])
  ∧ [Fin 0; Fin 0; Fin 0] = replicate (Z.to_nat 3) (Fin 0).
Proof.
  intros query_af vars_dict.
  assert (Hok : main_scores (fun _ _ => false) (fun _ _ => None) query_af
                            "q" "a" "t" 0 3 vars_dict
                = Ok (Ranking query_af [] [Fin 0; Fin 0; Fin 0])).
  { unfold main_scores. rewrite decide_True by done. reflexivity. }
  split; [exact Hok|].
  destruct (main_scores_lyric_sims _ _ _ _ _ _ _ _ _ _ _ _ Hok) as (_ & Hzero & _).
  by destruct (Hzero eq_refl).
Defined.

(** ** Query resolution *)

Lemma length_split_on (sep : ascii) (s : string) :
  length (split_on sep s) = S (count_char sep s).
Proof.
  induction s as [|c s IH]; [done|]. simpl. case_decide; simpl.
  - by rewrite IH.
  - destruct (split_on sep s) as [|w ws]; simpl in *; [lia|done].
Qed.

(** A query that is not a URI must hold exactly one "|": with none, or
    with more than one, the unpacking on line 225 raises [ValueError],
    before any request is made; with exactly one it does not. *)
Theorem main_query_format (match_ : string → string → bool)
    (strip_name str_strip str_lower : string → string)
    (sp_search : string → list track)
    (sp_audio_features : string → option features_data) (sp_track : string → track)
    (retrieve_lyrics : string → string → option (gmap string Z))
    (query : string) (lyrics_weight : R) (n_results : Z) (vars_dict : vars) :
  (resolve_query match_ strip_name str_strip str_lower sp_search query false
   = Raise ValueError
   ↔ count_char "|" query ≠ 1%nat)
  ∧ (count_char "|" query ≠ 1%nat →
     main match_ strip_name str_strip str_lower sp_search sp_audio_features sp_track
          retrieve_lyrics query lyrics_weight n_results vars_dict false
     = Raise ValueError).
Proof.
  assert (Hres : resolve_query match_ strip_name str_strip str_lower sp_search
                               query false = Raise ValueError
                 ↔ count_char "|" query ≠ 1%nat).
  { unfold resolve_query. simpl.
    pose proof (length_split_on "|" query) as Hlen.
    rewrite <- (length_fmap (fun x => str_lower (str_strip x))) in Hlen.
    destruct (_ <$> split_on "|" query) as [|a [|b [|c l]]]; simpl in Hlen.
    - lia.
    - split; [lia|done].
    - split; [|lia].
      destruct (get_song_uri _ _ _ _) as [u|]; [|done]. by case_decide.
    - split; [lia|done]. }
  split; [done|]. intros Hbad. unfold main. by rewrite (proj2 Hres Hbad).
Qed.

Lemma main_query_format_witness :
  main (fun _ _ => false) (fun s => s) (fun s => s) (fun s => s) (fun _ => [])
       (fun _ => None) (fun _ => {| tr_artists := []; tr_name := ""; tr_uri := "" |})
       (fun _ _ => None) "a | b | c" 0 10
       {| uri_to_song := ∅; inv_idx := ∅; idf_dict := ∅; song_norms_dict := ∅;
          ix_to_uri := ∅; af_matrix := []; af_song_norms := [];
          scaler := {| transform := fun v => v |} |} false
  = Raise ValueError.
Proof.
  apply (proj2 (main_query_format _ _ _ _ _ _ _ _ "a | b | c" 0 10 _)).
  simpl. lia.
Defined.

Lemma find_first {A} (f : A → bool) (l : list A) :
  (List.find f l = None ↔ ∀ x, x ∈ l → f x = false)
  ∧ ∀ x, List.find f l = Some x
         ↔ ∃ i, l !! i = Some x ∧ f x = true
                ∧ ∀ j y, (j < i)%nat → l !! j = Some y → f y = false.
Proof.
  induction l as [|a l [IHn IHs]].
  - split.
    + split; [|done]. by intros _ x ?%elem_of_nil.
    + intros x. split; [done|]. by intros (i & Hi & _).
  - simpl. destruct (f a) eqn:Ha.
    + split.
      * split; [done|]. intros Hall. rewrite Hall in Ha; [done|by left].
      * intros x. split.
        -- intros [= <-]. exists 0%nat. split_and!; [done..|]. intros j y Hj. lia.
        -- intros ([|i] & Hi & Hx & Hfirst).
           ++ simpl in Hi. by injection Hi as <-.
           ++ rewrite (Hfirst 0%nat a) in Ha; [done|lia|done].
    + split.
      * rewrite IHn. split.
        -- intros Hall x [->|Hx]%elem_of_cons; [done|by apply Hall].
        -- intros Hall x Hx. apply Hall. by right.
      * intros x. rewrite IHs. split.
        -- intros (i & Hi & Hx & Hfirst). exists (S i). split_and!; [done..|].
           intros [|j] y Hj; simpl; [by intros [= <-]|]. apply Hfirst. lia.
        -- intros ([|i] & Hi & Hx & Hfirst).
           ++ simpl in Hi. injection Hi as <-. congruence.
           ++ exists i. split_and!; [done..|]. intros j y Hj Hy.
              apply (Hfirst (S j)); [lia|done].
Qed.

(** [get_song_uri] returns the URI of the first search result whose
    joined artist names and whose title both match the query, and [None]
    exactly when no result does. *)
Theorem get_song_uri_first_match (match_ : string → string → bool)
    (sp_search : string → list track) (query_artist query_name : string) :
  let search_results := sp_search (query_artist +:+ " " +:+ query_name) in
  let matches d := match_ query_artist (String.concat "," (tr_artists d))
                   && match_ query_name (tr_name d) in
  (get_song_uri match_ sp_search query_artist query_name = None
   ↔ ∀ d, d ∈ search_results → matches d = false)
  ∧ ∀ uri, get_song_uri match_ sp_search query_artist query_name = Some uri
           ↔ ∃ i d, search_results !! i = Some d ∧ matches d = true
                    ∧ tr_uri d = uri
                    ∧ ∀ j d', (j < i)%nat → search_results !! j = Some d'
                              → matches d' = false.
Proof.
  intros search_results matches.
  change (get_song_uri match_ sp_search query_artist query_name)
    with (tr_uri <$> List.find matches search_results).
  destruct (List.find matches search_results) as [d|] eqn:Hfind; simpl.
  - pose proof (proj2 (find_first matches search_results)) as Hsome.
    split.
    + split; [done|]. intros Hall.
      apply Hsome in Hfind as (i & Hi & Hd & _).
      rewrite Hall in Hd; [done|]. by eapply list_elem_of_lookup_2.
    + intros uri. split.
      * intros [= <-]. apply Hsome in Hfind as (i & Hi & Hd & Hfirst).
        exists i, d. done.
      * intros (i & d' & Hi & Hd & <- & Hfirst). f_equal.
        assert (Hd' : List.find matches search_results = Some d').
        { apply Hsome. exists i. done. }
        congruence.
  - pose proof (proj1 (proj1 (find_first matches search_results)) Hfind) as Hall.
    split.
    + done.
    + intros uri. split; [done|]. intros (i & d & Hi & Hd & _ & _).
      rewrite Hall in Hd; [done|]. by eapply list_elem_of_lookup_2.
Qed.

Lemma select_columns (m : gmap string R) (l : list string) (init : gmap string R) :
  (∀ k, k ∈ l → is_Some (m !! k)) →
  ∃ af, for_each (fun af k => v ← getitem m k; Ok (<[k := v]> af)) l init = Ok af
        ∧ ∀ k, af !! k = if decide (k ∈ l) then m !! k else init !! k.
Proof.
  revert init. induction l as [|k0 l IH]; intros init Hall.
  - exists init. split; [done|]. intros k. rewrite decide_False; [done|].
    apply not_elem_of_nil.
  - destruct (Hall k0) as [v Hv]; [by left|].
    destruct (IH (<[k0 := v]> init)) as (af & Hok & Hlook).
    { intros k Hk. apply Hall. by right. }
    exists af. rewrite for_each_cons, (getitem_Some _ _ _ Hv), bind_Ok.
    cbn [mbind res_bind]. split; [done|]. intros k. rewrite Hlook.
    destruct (decide (k ∈ l)) as [Hin|Hin].
    + rewrite decide_True; [done|by right].
    + destruct (decide (k = k0)) as [->|Hne].
      * rewrite lookup_insert_eq, decide_True; [done|by left].
      * rewrite lookup_insert_ne by done. rewrite decide_False; [done|].
        by intros [?|?]%elem_of_cons.
Qed.

Lemma select_columns_missing (m : gmap string R) (l : list string)
    (init : gmap string R) k :
  k ∈ l → m !! k = None →
  for_each (fun af k => v ← getitem m k; Ok (<[k := v]> af)) l init = Raise KeyError.
Proof.
  intros Hk Hnone. apply (for_each_raises _ _ _ k); [done| |].
  - intros b. by rewrite (getitem_None _ _ Hnone).
  - intros b y _. unfold getitem. destruct (m !! y); simpl; eauto.
Qed.

(** [get_audio_features] returns [None] exactly when Spotify has no data
    for the URI, and raises [KeyError] exactly when the data lack one of
    the [AF_COLS] columns.  Otherwise the result holds the [AF_COLS]
    columns of the data and no other column, every one of them present (so
    that [af_sim] finds each feature it reads), with the names taken from
    [sp.track] and the URI from the data. *)
Theorem get_audio_features_outcome
    (sp_audio_features : string → option features_data) (sp_track : string → track)
    (uri : string) :
  (get_audio_features sp_audio_features sp_track uri = Ok None
   ↔ sp_audio_features uri = None)
  ∧ (get_audio_features sp_audio_features sp_track uri = Raise KeyError
     ↔ ∃ data k, sp_audio_features uri = Some data
                 ∧ k ∈ AF_COLS ∧ fd_values data !! k = None)
  ∧ ∀ query_af,
      get_audio_features sp_audio_features sp_track uri = Ok (Some query_af) →
      ∃ data,
        sp_audio_features uri = Some data
        ∧ (∀ k, af_values query_af !! k
                = if decide (k ∈ AF_COLS) then fd_values data !! k else None)
        ∧ (∀ k, k ∈ AF_COLS → is_Some (af_values query_af !! k))
        ∧ af_artist_name query_af = String.concat ", " (tr_artists (sp_track uri))
        ∧ af_track_name query_af = tr_name (sp_track uri)
        ∧ af_uri query_af = fd_uri data.
Proof.
  unfold get_audio_features. destruct (sp_audio_features uri) as [data|].
  - destruct (decide (Forall (fun k => is_Some (fd_values data !! k)) AF_COLS))
      as [Hall|Hnot].
    + rewrite Forall_forall in Hall.
      destruct (select_columns (fd_values data) AF_COLS ∅ Hall) as (af & -> & Hlook).
      rewrite bind_Ok. split_and!.
      * split; done.
      * split; [done|]. intros (data' & k & [= <-] & Hk & Hnone).
        apply Hall in Hk as [? ?]. congruence.
      * intros query_af [= <-]. exists data. simpl.
        split_and!; [done| |intros k Hk|done..].
        -- intros k. rewrite Hlook. case_decide; [done|apply lookup_empty].
        -- rewrite Hlook, decide_True by done. by apply Hall.
    + apply not_Forall_Exists, Exists_exists in Hnot as (k & Hk & Hn); [|apply _].
      assert (Hnone : fd_values data !! k = None).
      { destruct (fd_values data !! k) eqn:Hv; [|done]. exfalso. apply Hn.
        by eexists. }
      rewrite (select_columns_missing _ _ _ k Hk Hnone). split_and!.
      * split; done.
      * split; [|done]. intros _. by exists data, k.
      * done.
  - split_and!.
    + done.
    + split; [done|]. by intros (? & ? & ? & _).
    + done.
Qed.

(** ** The bundle made by [preprocess], as used by the scorers *)

Lemma uri_to_song_lookup (rows : list df_row) (u : string) :
  (is_Some (foldl (fun (m : gmap string song) row => <[row_uri row := row_song row]> m)
                  ∅ rows !! u)
   ↔ ∃ row, row ∈ rows ∧ row_uri row = u)
  ∧ ∀ s, foldl (fun (m : gmap string song) row => <[row_uri row := row_song row]> m)
               ∅ rows !! u = Some s →
         ∃ row, row ∈ rows ∧ row_uri row = u ∧ row_song row = s.
Proof.
  induction rows as [|row rows [IHk IHv]] using rev_ind.
  - simpl. rewrite lookup_empty. split.
    + split; [by intros [? ?]|]. by intros (? & ?%elem_of_nil & _).
    + done.
  - rewrite foldl_app. simpl. destruct (decide (row_uri row = u)) as [<-|Hne].
    + rewrite lookup_insert_eq. split.
      * split; [|by eexists]. intros _. exists row. split; [|done].
        apply elem_of_app. right. by left.
      * intros s [= <-]. exists row. split_and!; [|done..].
        apply elem_of_app. right. by left.
    + rewrite lookup_insert_ne by done. split.
      * rewrite IHk. split.
        -- intros (r & Hr & Hu). exists r. split; [|done]. apply elem_of_app. by left.
        -- intros (r & Hr & Hu). exists r. split; [|done].
           apply elem_of_app in Hr as [?|Hr%list_elem_of_singleton]; [done|].
           congruence.
      * intros s (r & Hr & Hu & Hs)%IHv. exists r. split_and!; [|done..].
        apply elem_of_app. by left.
Qed.

Lemma bundle_shares_token (stopwords : gset string) (isalpha : string → bool)
    (fit : list (list R) → StandardScaler)
    (df : list df_row) (lyrics_dict : gmap string (gmap string Z))
    (remove_stopwords : bool)
    (vars_dict : vars) (word_to_ix : gmap string nat) (uri_to_ix : gmap string Z)
    (query_lyrics_cnt : gmap string Z) (d : string) :
  preprocess stopwords isalpha fit df lyrics_dict remove_stopwords
  = Ok (vars_dict, word_to_ix, uri_to_ix) →
  shares_token query_lyrics_cnt (inv_idx vars_dict) (idf_dict vars_dict) d
  ↔ ∃ t cnt, is_Some (query_lyrics_cnt !! t)
             ∧ lyrics_dict !! d = Some cnt ∧ is_Some (cnt !! t)
             ∧ indexed stopwords isalpha remove_stopwords t = true.
Proof.
  intros Hpre. destruct (preprocess_Ok_inv _ _ _ _ _ _ _ _ _ Hpre) as [Hkept Heq].
  rewrite Heq in Hpre. injection Hpre as <- _ _. clear Heq.
  cbn [inv_idx idf_dict].
  set (built := (make_inv_idx stopwords isalpha lyrics_dict remove_stopwords).1).
  set (idf := map_imap _ built). unfold shares_token. split.
  - intros (t & c & i & tf & Hq & _ & Hp). unfold built in Hp.
    rewrite inv_get_built, elem_of_select_word, elem_of_indexed_items in Hp.
    destruct Hp as (cnt & Hd & Ht & Hk). exists t, cnt.
    split_and!; [by eexists|done|by eexists|done].
  - intros (t & cnt & [c Hq] & Hd & [tf Ht] & Hk).
    assert (Hp : (d, tf) ∈ inv_get built t).
    { unfold built. rewrite inv_get_built, elem_of_select_word, elem_of_indexed_items.
      eauto. }
    pose proof Hp as Hp'. apply inv_get_elem_of in Hp' as (posting & Hw & _).
    exists t, c, (log2 (INR (size lyrics_dict) / INR (1 + length posting))), tf.
    split_and!; [done| |done]. unfold idf. by rewrite map_lookup_imap, Hw.
Qed.

Lemma bundle_lyric_scores (stopwords : gset string) (isalpha : string → bool)
    (fit : list (list R) → StandardScaler)
    (df : list df_row) (lyrics_dict : gmap string (gmap string Z))
    (remove_stopwords : bool)
    (vars_dict : vars) (word_to_ix : gmap string nat) (uri_to_ix : gmap string Z)
    (query_lyrics_cnt : gmap string Z) :
  preprocess stopwords isalpha fit df lyrics_dict remove_stopwords
  = Ok (vars_dict, word_to_ix, uri_to_ix) →
  ∃ scores,
    lyrics_sim query_lyrics_cnt (inv_idx vars_dict) (idf_dict vars_dict)
               (song_norms_dict vars_dict) = Ok scores
    ∧ ∀ d, is_Some (scores !! d)
           ↔ shares_token query_lyrics_cnt (inv_idx vars_dict) (idf_dict vars_dict) d.
Proof.
  intros Hpre. destruct (preprocess_Ok_inv _ _ _ _ _ _ _ _ _ Hpre) as [Hkept Heq].
  rewrite Heq in Hpre. injection Hpre as <- _ _. clear Heq.
  cbn [inv_idx idf_dict song_norms_dict].
  set (built := (make_inv_idx stopwords isalpha lyrics_dict remove_stopwords).1).
  set (idf := map_imap _ built).
  destruct (lyrics_sim_lookup query_lyrics_cnt built idf (compute_song_norms built idf))
    as (scores & Hok & Hkeys & _); [|by exists scores].
  intros d (t & cnt & i & tf & _ & _ & Hp).
  apply inv_get_elem_of in Hp as (posting & Hw & Hp).
  by eapply compute_song_norms_covers.
Qed.

(** On the bundle of [preprocess], [lyrics_sim] returns for every query,
    and a song gets a score exactly when one of its words is a word of the
    query that the index holds (any common word, or with
    [remove_stopwords] a common alphabetic word that is no stop word). *)
Theorem preprocess_lyrics_sim (stopwords : gset string) (isalpha : string → bool)
    (fit : list (list R) → StandardScaler)
    (df : list df_row) (lyrics_dict : gmap string (gmap string Z))
    (remove_stopwords : bool)
    (vars_dict : vars) (word_to_ix : gmap string nat) (uri_to_ix : gmap string Z)
    (query_lyrics_cnt : gmap string Z) :
  preprocess stopwords isalpha fit df lyrics_dict remove_stopwords
  = Ok (vars_dict, word_to_ix, uri_to_ix) →
  ∃ scores,
    lyrics_sim query_lyrics_cnt (inv_idx vars_dict) (idf_dict vars_dict)
               (song_norms_dict vars_dict) = Ok scores
    ∧ ∀ d, is_Some (scores !! d)
           ↔ ∃ t cnt, is_Some (query_lyrics_cnt !! t)
                      ∧ lyrics_dict !! d = Some cnt ∧ is_Some (cnt !! t)
                      ∧ indexed stopwords isalpha remove_stopwords t = true.
Proof.
  intros Hpre.
  destruct (bundle_lyric_scores _ _ _ _ _ _ _ _ _ query_lyrics_cnt Hpre)
    as (scores & Hok & Hkeys).
  exists scores. split; [done|]. intros d. rewrite Hkeys.
  by eapply bundle_shares_token.
Qed.

Lemma preprocess_lyrics_sim_witness :
  let lyrics_dict : gmap string (gmap string Z) := {[ "s" := {[ "a" := 1%Z ]} ]} in
  let row := {| row_song := {| track_id := "s"; artist_name := "x";
                               track_name := "y" |};
                row_uri := "s"; row_af := replicate 12 0%R |} in
  ∃ vars_dict word_to_ix uri_to_ix scores,
    preprocess ∅ (fun _ => true) (fun _ => {| transform := fun v => v |}) [row]
               lyrics_dict false
    = Ok (vars_dict, word_to_ix, uri_to_ix)
    ∧ lyrics_sim {[ "a" := 2%Z ]} (inv_idx vars_dict) (idf_dict vars_dict)
                 (song_norms_dict vars_dict) = Ok scores
    ∧ is_Some (scores !! "s").
Proof.
  intros lyrics_dict row.
  pose proof (preprocess_Ok ∅ (fun _ => true) (fun _ => {| transform := fun v => v |})
                [row] lyrics_dict false) as Hpre.
  cbv zeta in Hpre. specialize (Hpre ltac:(by vm_compute)).
  destruct (preprocess_lyrics_sim _ _ _ _ _ _ _ _ _ {[ "a" := 2%Z ]} Hpre)
    as (scores & Hok & Hkeys).
  eexists _, _, _, scores. split; [exact Hpre|]. split; [exact Hok|].
  apply Hkeys. exists "a", {[ "a" := 1%Z ]}. split_and!.
  - rewrite lookup_singleton_eq. by eexists.
  - apply lookup_singleton_eq.
  - rewrite lookup_singleton_eq. by eexists.
  - done.
Defined.

Lemma bundle_af_scores (stopwords : gset string) (isalpha : string → bool)
    (fit : list (list R) → StandardScaler)
    (df : list df_row) (lyrics_dict : gmap string (gmap string Z))
    (remove_stopwords : bool)
    (vars_dict : vars) (word_to_ix : gmap string nat) (uri_to_ix : gmap string Z)
    (query_af : audio_features) :
  preprocess stopwords isalpha fit df lyrics_dict remove_stopwords
  = Ok (vars_dict, word_to_ix, uri_to_ix) →
  (∀ k, k ∈ AF_COLS → is_Some (af_values query_af !! k)) →
  (∀ rows x, length (transform (fit rows) x) = length x) →
  (∀ row, row ∈ df → length (row_af row) = length AF_COLS) →
  ∃ scores,
    vars_af_sim vars_dict query_af = Ok scores
    ∧ (∀ uri, is_Some (scores !! uri) → is_Some (uri_to_song vars_dict !! uri))
    ∧ (∀ uri song_data, uri_to_song vars_dict !! uri = Some song_data →
         ∃ row, row ∈ df ∧ row_uri row = uri ∧ row_song row = song_data
                ∧ is_Some (lyrics_dict !! track_id song_data))
    ∧ (∀ uri, is_Some (scores !! uri)
              ↔ ∃ row, row ∈ df ∧ row_uri row = uri
                       ∧ is_Some (lyrics_dict !! track_id (row_song row))).
Proof.
  intros Hpre. destruct (preprocess_Ok_inv _ _ _ _ _ _ _ _ _ Hpre) as [Hkept Heq].
  rewrite Heq in Hpre. injection Hpre as <- _ _. clear Heq.
  intros Hfeat Hfit Hrows.
  set (kept := filter (fun row => is_Some (lyrics_dict !! track_id (row_song row))) df).
  unfold vars_af_sim, get_af_matrix_data.
  cbn [af_matrix af_song_norms ix_to_uri scaler uri_to_song fst snd].
  fold kept. set (sc := fit (row_af <$> kept)).
  destruct (af_sim_dense query_af (transform sc <$> (row_af <$> kept))
              (row_norms (transform sc <$> (row_af <$> kept)))
              (foldl (fun (m : gmap Z string) '(i, uri) => <[i := uri]> m) ∅
                     (ix_items kept)) sc)
    as (scores & Hok & Hkeys).
  - done.
  - intros row (r0 & -> & Hr0)%list_elem_of_fmap.
    apply list_elem_of_fmap in Hr0 as (r & -> & Hr).
    apply list_elem_of_filter in Hr as [_ Hr].
    unfold feature_vector, sc. by rewrite !Hfit, (Hrows _ Hr), length_fmap.
  - unfold row_norms. by rewrite length_fmap.
  - intros i Hi. rewrite !length_fmap in Hi. rewrite ix_to_uri_lookup.
    rewrite bool_decide_eq_true_2 by lia. rewrite Nat2Z.id.
    destruct (lookup_lt_is_Some_2 kept i Hi) as [r ->]. by eexists.
  - assert (Hrow : ∀ uri, is_Some (scores !! uri)
                          ↔ ∃ row, row ∈ kept ∧ row_uri row = uri).
    { intros uri. rewrite Hkeys. split.
      - intros (i & Hi & Hu).
        rewrite ix_to_uri_lookup in Hu. rewrite bool_decide_eq_true_2 in Hu by lia.
        rewrite Nat2Z.id in Hu. destruct (kept !! i) as [row|] eqn:Hrow; [|done].
        injection Hu as <-. exists row. split; [|done].
        by eapply list_elem_of_lookup_2.
      - intros (row & Hin & Hu). apply list_elem_of_lookup_1 in Hin as [i Hi].
        exists i. split.
        + rewrite !length_fmap. by eapply lookup_lt_Some.
        + rewrite ix_to_uri_lookup, bool_decide_eq_true_2 by lia.
          by rewrite Nat2Z.id, Hi, <- Hu. }
    exists scores. split; [done|]. split_and!.
    + intros uri Hs%Hrow. by apply uri_to_song_lookup.
    + intros uri song_data Hsd.
      apply (uri_to_song_lookup kept uri) in Hsd as (row & Hin & Hu & <-).
      apply list_elem_of_filter in Hin as [Hlyr Hin]. by exists row.
    + intros uri. rewrite Hrow. split.
      * intros (row & Hin & Hu). apply list_elem_of_filter in Hin as [Hlyr Hin].
        by exists row.
      * intros (row & Hin & Hu & Hlyr). exists row. split; [|done].
        by apply list_elem_of_filter.
Qed.

Lemma audio_only_ranking (match_ : string → string → bool)
    (retrieve_lyrics : string → string → option (gmap string Z))
    (query_af : audio_features) (query_uri query_artist query_name : string)
    (n_results : Z) (vars_dict : vars) (scores : gmap string npfloat) :
  vars_af_sim vars_dict query_af = Ok scores →
  (∀ uri, is_Some (scores !! uri) → is_Some (uri_to_song vars_dict !! uri)) →
  (0 ≤ n_results)%Z →
  ∃ output,
    main_scores match_ retrieve_lyrics query_af query_uri query_artist query_name
                0 n_results vars_dict
    = Ok (Ranking query_af output (replicate (Z.to_nat n_results) (Fin 0)))
    ∧ (length output ≤ Z.to_nat n_results)%nat
    ∧ ∀ score song_data, (score, song_data) ∈ output →
        ∃ uri, uri_to_song vars_dict !! uri = Some song_data.
Proof.
  intros Haf Hcov Hn. unfold main_scores. rewrite decide_True by done.
  rewrite bool_decide_eq_false_2 by lia. rewrite bind_Ok, Haf, bind_Ok. unfold rank.
  destruct (rank_loop_cases match_ (uri_to_song vars_dict) query_uri query_artist
              query_name n_results (sorted (map_to_list scores)))
    as [[Hall Hloop]|[(x & Hx & Hnone) _]].
  - rewrite Hloop, bind_Ok. eexists. split; [done|]. split.
    + etrans; [apply omap_length_le|]. rewrite length_take. lia.
    + intros score song_data Hin.
      apply list_elem_of_omap in Hin as ([uri s] & _ & He).
      unfold entry in He. simpl in He.
      destruct (uri_to_song vars_dict !! uri) as [sd|] eqn:Hsd; [simpl in He|done].
      destruct (keeps _ _ _ _ _ _); [|done]. injection He as -> ->. by exists uri.
  - exfalso. apply subseteq_take in Hx. rewrite sorted_Permutation in Hx.
    destruct x as [uri s]. apply elem_of_map_to_list in Hx.
    destruct (Hcov uri) as [sd Hsd]; [by eexists|]. simpl in Hnone. congruence.
Qed.

(** On the bundle of [preprocess], a query ranked on audio features alone
    ([lyrics_weight = 0]) never raises when the query has its features,
    the rows of the frame have one value per feature and [n_results] is
    within numpy's limit on the length of an array: every scored URI has
    a record in [uri_to_song].  The songs returned are songs of the frame
    that have lyrics. *)
Theorem preprocess_audio_only_query (stopwords : gset string) (isalpha : string → bool)
    (fit : list (list R) → StandardScaler)
    (df : list df_row) (lyrics_dict : gmap string (gmap string Z))
    (remove_stopwords : bool)
    (vars_dict : vars) (word_to_ix : gmap string nat) (uri_to_ix : gmap string Z)
    (match_ : string → string → bool)
    (retrieve_lyrics : string → string → option (gmap string Z))
    (query_af : audio_features) (query_uri query_artist query_name : string)
    (n_results : Z) :
  preprocess stopwords isalpha fit df lyrics_dict remove_stopwords
  = Ok (vars_dict, word_to_ix, uri_to_ix) →
  (∀ k, k ∈ AF_COLS → is_Some (af_values query_af !! k)) →
  (∀ rows x, length (transform (fit rows) x) = length x) →
  (∀ row, row ∈ df → length (row_af row) = length AF_COLS) →
  (0 ≤ n_results < 2 ^ 60)%Z →
  ∃ output,
    main_scores match_ retrieve_lyrics query_af query_uri query_artist query_name
                0 n_results vars_dict
    = Ok (Ranking query_af output (replicate (Z.to_nat n_results) (Fin 0)))
    ∧ ∀ score song_data, (score, song_data) ∈ output →
        ∃ row, row ∈ df ∧ row_song row = song_data
               ∧ is_Some (lyrics_dict !! track_id song_data).
Proof.
  intros Hpre Hfeat Hfit Hrows [Hn _].
  destruct (bundle_af_scores _ _ _ _ _ _ _ _ _ query_af Hpre Hfeat Hfit Hrows)
    as (scores & Haf & Hcov & Hsongs & _).
  destruct (audio_only_ranking match_ retrieve_lyrics query_af query_uri query_artist
              query_name n_results vars_dict scores Haf Hcov Hn)
    as (output & Hok & _ & Hout).
  exists output. split; [done|]. intros score song_data Hin.
  destruct (Hout _ _ Hin) as (uri & Hsd).
  destruct (Hsongs _ _ Hsd) as (row & ? & _ & ? & ?). by exists row.
Qed.

Lemma preprocess_audio_only_query_witness :
  let lyrics_dict : gmap string (gmap string Z) := {[ "s" := {[ "a" := 1%Z ]} ]} in
  let row := {| row_song := {| track_id := "s"; artist_name := "x";
                               track_name := "y" |};
                row_uri := "s"; row_af := replicate 12 0%R |} in
  let query_af :=
    {| af_values := list_to_map ((fun k => (k, 1%R)) <$> AF_COLS);
       af_artist_name := "a"; af_track_name := "t"; af_uri := "q" |} in
  ∃ vars_dict word_to_ix uri_to_ix output,
    preprocess ∅ (fun _ => true) (fun _ => {| transform := fun v => v |}) [row]
               lyrics_dict false
    = Ok (vars_dict, word_to_ix, uri_to_ix)
    ∧ main_scores (fun _ _ => false) (fun _ _ => None) query_af "q" "a" "t"
                  0 1 vars_dict
      = Ok (Ranking query_af output (replicate (Z.to_nat 1) (Fin 0))).
Proof.
  intros lyrics_dict row query_af.
  pose proof (preprocess_Ok ∅ (fun _ => true) (fun _ => {| transform := fun v => v |})
                [row] lyrics_dict false) as Hpre.
  cbv zeta in Hpre. specialize (Hpre ltac:(by vm_compute)).
  destruct (preprocess_audio_only_query _ _ _ _ _ _ _ _ _ (fun _ _ => false)
              (fun _ _ => None) query_af "q" "a" "t" 1 Hpre)
    as (output & Hok & _).
  - rewrite <- Forall_forall. unfold AF_COLS.
    repeat (constructor; [by eexists|]). constructor.
  - done.
  - intros r ->%list_elem_of_singleton. reflexivity.
  - split; [lia|reflexivity].
  - eexists _, _, _, output. split; [exact Hpre|exact Hok].
Defined.

(** A song of [output] whose [track_id] is no key of the lyrical scores
    makes the last step of [main] raise [KeyError]: the scores are keyed by
    URI, the list is read by [track_id]. *)
Theorem main_scores_track_id_lookup (match_ : string → string → bool)
    (retrieve_lyrics : string → string → option (gmap string Z))
    (query_af : audio_features) (query_uri query_artist query_name : string)
    (lyrics_weight : R) (n_results : Z) (vars_dict : vars)
    (query_lyrics_cnt : gmap string Z)
    (lyric_sim_scores af_sim_scores averaged_scores : gmap string npfloat)
    (output : list (npfloat * song)) (score : npfloat) (song_data : song) :
  lyrics_weight ≠ 0%R →
  retrieve_lyrics query_artist query_name = Some query_lyrics_cnt →
  query_lyrics_cnt ≠ ∅ →
  lyrics_sim query_lyrics_cnt (inv_idx vars_dict) (idf_dict vars_dict)
             (song_norms_dict vars_dict) = Ok lyric_sim_scores →
  vars_af_sim vars_dict query_af = Ok af_sim_scores →
  fuse lyrics_weight af_sim_scores lyric_sim_scores = Ok averaged_scores →
  rank match_ vars_dict query_uri query_artist query_name n_results averaged_scores
  = Ok output →
  (score, song_data) ∈ output →
  lyric_sim_scores !! track_id song_data = None →
  main_scores match_ retrieve_lyrics query_af query_uri query_artist query_name
              lyrics_weight n_results vars_dict
  = Raise KeyError.
Proof.
  intros Hw Hcnt Hne Hls Haf Havg Hrank Hin Hnone. unfold main_scores.
  rewrite decide_False by done. rewrite Hcnt. rewrite decide_False by done.
  rewrite Hls, bind_Ok, Haf, bind_Ok, Havg, bind_Ok, Hrank, bind_Ok.
  rewrite (for_each_raises _ _ _ (score, song_data) KeyError); [done|done| |].
  - intros b. by rewrite (getitem_None _ _ Hnone).
  - intros b [s d] _. unfold getitem.
    destruct (lyric_sim_scores !! track_id d); simpl; eauto.
Qed.

Lemma main_scores_track_id_lookup_witness :
  let query_af :=
    {| af_values := list_to_map ((fun k => (k, 1%R)) <$> AF_COLS);
       af_artist_name := "a"; af_track_name := "t"; af_uri := "q" |} in
  let song_data := {| track_id := "id1"; artist_name := "x"; track_name := "y" |} in
  let vars_dict :=
    {| uri_to_song := {[ "u0" := song_data ]};
       inv_idx := {[ "b" := [("u0", 1%Z)] ]};
       idf_dict := {[ "b" := 1%R ]}; song_norms_dict := {[ "u0" := 1%R ]};
       ix_to_uri := {[ 0%Z := "u0" ]}; af_matrix := [replicate 12 1%R];
       af_song_norms := [1%R];
       scaler := {| transform := fun v => v |} |} in
  main_scores (fun _ _ => false) (fun _ _ => Some {[ "b" := 1%Z ]})
              query_af "q" "a" "t" 1 10 vars_dict
  = Raise KeyError.
Proof.
  intros query_af song_data vars_dict.
  assert (Hls : lyrics_sim {[ "b" := 1%Z ]} (inv_idx vars_dict) (idf_dict vars_dict)
                           (song_norms_dict vars_dict)
                = Ok {[ "u0" := fdiv (0 + 1 * 1 * (1 * 1)) (1 * sqrt (0 + Rsqr (1 * 1))) ]}).
  { unfold lyrics_sim, query_vector. rewrite map_to_list_singleton. simpl.
    rewrite lookup_singleton_eq, insert_empty.
    unfold accumulate_scores, for_each. rewrite map_to_list_singleton. simpl.
    unfold inv_get. rewrite lookup_singleton_eq. simpl.
    unfold getitem. rewrite lookup_singleton_eq. simpl.
    rewrite lookup_empty, insert_empty. simpl.
    unfold normalize_scores, for_each. rewrite map_to_list_singleton. simpl.
    unfold getitem. rewrite lookup_singleton_eq. simpl. by rewrite insert_empty. }
  destruct (af_sim_dense query_af (af_matrix vars_dict) (af_song_norms vars_dict)
              (ix_to_uri vars_dict) (scaler vars_dict))
    as (af & Haf & Hkeys).
  { rewrite <- Forall_forall. unfold AF_COLS.
    repeat (constructor; [by eexists|]). constructor. }
  { intros r ->%list_elem_of_singleton. reflexivity. }
  { reflexivity. }
  { intros i Hi. simpl in Hi. assert (i = 0%nat) as -> by lia. by eexists. }
  destruct (proj2 (Hkeys "u0")) as [s Hs].
  { exists 0%nat. split; [simpl; lia|done]. }
  set (ls := {[ "u0" := fdiv (0 + 1 * 1 * (1 * 1)) (1 * sqrt (0 + Rsqr (1 * 1))) ]}
             : gmap string npfloat) in *.
  set (v := fdiv (0 + 1 * 1 * (1 * 1)) (1 * sqrt (0 + Rsqr (1 * 1)))) in *.
  assert (Havg : fuse 1 af ls = Ok {[ "u0" := fused 1 s v ]}).
  { unfold fuse, for_each, ls. rewrite map_to_list_singleton. simpl.
    rewrite (getitem_Some _ _ _ Hs). simpl. by rewrite insert_empty. }
  assert (Hrank : rank (fun _ _ => false) vars_dict "q" "a" "t" 10
                       {[ "u0" := fused 1 s v ]}
                  = Ok [(fused 1 s v, song_data)]).
  { unfold rank. rewrite map_to_list_singleton. reflexivity. }
  apply (main_scores_track_id_lookup _ _ _ _ _ _ _ _ _ {[ "b" := 1%Z ]} ls af
           {[ "u0" := fused 1 s v ]} [(fused 1 s v, song_data)]
           (fused 1 s v) song_data).
  - lra.
  - done.
  - apply insert_non_empty.
  - exact Hls.
  - exact Haf.
  - exact Havg.
  - exact Hrank.
  - by left.
  - done.
Defined.

(** ** [retrieve_lyrics] *)

Lemma Counter_fold_lookup (tokens : list string) (init : gmap string Z) (t : string) :
  foldl (fun cnt t => <[t := (default 0 (cnt !! t) + 1)%Z]> cnt) init tokens !! t
  = match length (filter (fun x => x = t) tokens) with
    | 0%nat => init !! t
    | S k => Some (default 0 (init !! t) + Z.of_nat (S k))%Z
    end.
Proof.
  revert init. induction tokens as [|x tokens IH]; intros init; [done|].
  simpl. rewrite IH. destruct (decide (x = t)) as [->|Hne].
  - rewrite filter_cons_True by done. simpl. rewrite lookup_insert_eq. simpl.
    destruct (length _); f_equal; lia.
  - rewrite filter_cons_False by done. by rewrite lookup_insert_ne.
Qed.

Lemma Counter_lookup (tokens : list string) (t : string) :
  Counter tokens !! t
  = match length (filter (fun x => x = t) tokens) with
    | 0%nat => None
    | S k => Some (Z.of_nat (S k))
    end.
Proof.
  unfold Counter. rewrite Counter_fold_lookup, lookup_empty.
  destruct (length _); [done|]. simpl. f_equal.
Qed.

(** The counter returned by [retrieve_lyrics] holds the tokens of the
    lower-cased text, annotations appended, that are not in [punct]; no
    punctuation token is a key, the value of a key is the number of times
    the token occurs, hence at least 1, and the counter is empty (which
    [main] reports as lyrics not found) exactly when every token is
    punctuation. *)
Theorem retrieve_lyrics_counter (match_ : string → string → bool)
    (strip_name str_lower : string → string)
    (search_artist : string → option (string → option genius_song))
    (song_annotations : Z → list (string * list (list string)))
    (re_sub_brackets drop_empty_lines : string → string)
    (tokenize : string → list string)
    (query_artist query_name : string) (cnt : gmap string Z) :
  retrieve_lyrics match_ strip_name str_lower search_artist song_annotations
                     re_sub_brackets drop_empty_lines tokenize
                     query_artist query_name = Ok (Some cnt) →
  ∃ artist_song song_obj annotations,
    search_artist query_artist = Some artist_song
    ∧ artist_song (strip_name query_name) = Some song_obj
    ∧ match_ query_artist (gs_artist song_obj) = true
    ∧ extract_annotations str_lower song_annotations (gs_id song_obj) = Ok annotations
    ∧ let tokens :=
        tokenize (drop_empty_lines
                    (re_sub_brackets (str_lower (gs_text song_obj) +:+ annotations))) in
      (∀ t, t ∈ punct → cnt !! t = None)
      ∧ (∀ t, t ∉ punct →
              cnt !! t = match length (filter (fun x => x = t) tokens) with
                         | 0%nat => None
                         | S k => Some (Z.of_nat (S k))
                         end)
      ∧ (∀ t n, cnt !! t = Some n → (1 ≤ n)%Z)
      ∧ (cnt = ∅ ↔ ∀ t, t ∈ tokens → t ∈ punct).
Proof.
  unfold retrieve_lyrics.
  destruct (search_artist query_artist) as [artist_song|] eqn:Hartist; [|done].
  destruct (artist_song (strip_name query_name)) as [song_obj|] eqn:Hsong; [|done].
  destruct (match_ query_artist (gs_artist song_obj)) eqn:Hmatch; [|done].
  cbn [negb].
  destruct (extract_annotations str_lower song_annotations (gs_id song_obj))
    as [annotations|] eqn:Hants; [|done].
  rewrite bind_Ok. intros [= <-].
  exists artist_song, song_obj, annotations. do 4 (split; [done|]). cbv zeta.
  set (tokens := tokenize _).
  assert (Hlen : ∀ t, length (filter (fun x => x = t)
                                (filter (fun t => t ∉ punct) tokens))
                      = if decide (t ∈ punct) then 0%nat
                        else length (filter (fun x => x = t) tokens)).
  { intros t. induction tokens as [|x l IH]; [by case_decide|].
    destruct (decide (x ∈ punct)) as [Hx|Hx].
    - rewrite (filter_cons_False (fun t => t ∉ punct)) by (intros H; by apply H).
      rewrite IH. case_decide as Ht; [done|].
      rewrite (filter_cons_False (fun y => y = t)); [done|]. by intros ->.
    - rewrite (filter_cons_True (fun t => t ∉ punct)) by done.
      destruct (decide (x = t)) as [->|Hne].
      + rewrite !(filter_cons_True (fun y => y = t)) by done. simpl.
        rewrite IH. by rewrite !decide_False by done.
      + rewrite !(filter_cons_False (fun y => y = t)) by done. apply IH. }
  split_and!.
  - intros t Ht. by rewrite Counter_lookup, Hlen, decide_True.
  - intros t Ht. by rewrite Counter_lookup, Hlen, decide_False.
  - intros t n. rewrite Counter_lookup. destruct (length _); [done|].
    intros [= <-]. lia.
  - split.
    + intros Hempty t Ht. destruct (decide (t ∈ punct)) as [|Hnp]; [done|].
      exfalso. assert (Hl : Counter (filter (fun t => t ∉ punct) tokens) !! t = None)
        by by rewrite Hempty, lookup_empty.
      rewrite Counter_lookup, Hlen, decide_False in Hl by done.
      destruct (filter (fun x => x = t) tokens) as [|y l] eqn:Hf; [|done].
      assert (Hin : t ∈ filter (fun x => x = t) tokens)
        by by apply list_elem_of_filter.
      rewrite Hf in Hin. by apply elem_of_nil in Hin.
    + intros Hall. apply map_empty. intros t. rewrite Counter_lookup, Hlen.
      case_decide as Ht; [done|].
      destruct (filter (fun x => x = t) tokens) as [|y l] eqn:Hf; [done|].
      assert (Hin : y ∈ filter (fun x => x = t) tokens) by (rewrite Hf; by left).
      apply list_elem_of_filter in Hin as [-> Hin]. by apply Hall in Hin.
Qed.

Lemma retrieve_lyrics_counter_witness :
  let song_obj := {| gs_artist := "a"; gs_text := "la , la"; gs_id := 1 |} in
  let tokens := ["la"; ","; "la"] in
  ∃ cnt,
    retrieve_lyrics (fun _ _ => true) (fun s => s) (fun s => s)
                       (fun _ => Some (fun _ => Some song_obj)) (fun _ => [])
                       (fun s => s) (fun s => s) (fun _ => tokens) "a" "t"
    = Ok (Some cnt)
    ∧ (∀ t, t ∈ punct → cnt !! t = None)
    ∧ (∀ t n, cnt !! t = Some n → (1 ≤ n)%Z).
Proof.
  intros song_obj tokens.
  exists (Counter (filter (fun t => t ∉ punct) tokens)).
  assert (Hok : retrieve_lyrics (fun _ _ => true) (fun s => s) (fun s => s)
                  (fun _ => Some (fun _ => Some song_obj)) (fun _ => [])
                  (fun s => s) (fun s => s) (fun _ => tokens) "a" "t"
                = Ok (Some (Counter (filter (fun t => t ∉ punct) tokens))))
    by reflexivity.
  split; [exact Hok|].
  destruct (retrieve_lyrics_counter _ _ _ _ _ _ _ _ _ _ _ Hok)
    as (_ & _ & _ & _ & _ & _ & _ & Hp & _ & Hn & _).
  by split.
Defined.

(** ** [main] on a URI, without lyrics *)

(** [main] called with a URI and [lyrics_weight = 0] on the bundle of
    [preprocess] (rows with one value per feature, [n_results >= 0] within
    numpy's limit on the length of an array) ends in one of three ways,
    decided by the Spotify data alone: without data for the URI it reports
    that the audio features were not found; with data that lack a feature
    column it raises [KeyError]; otherwise it returns a ranking, with
    [n_results] zeros as lyrical scores.  No search and no lyrics request
    is made. *)
Theorem main_uri_audio_only (stopwords : gset string) (isalpha : string → bool)
    (fit : list (list R) → StandardScaler)
    (df : list df_row) (lyrics_dict : gmap string (gmap string Z))
    (remove_stopwords : bool)
    (vars_dict : vars) (word_to_ix : gmap string nat) (uri_to_ix : gmap string Z)
    (match_ : string → string → bool)
    (strip_name str_strip str_lower : string → string)
    (sp_search : string → list track)
    (sp_audio_features : string → option features_data) (sp_track : string → track)
    (retrieve_lyrics : string → string → option (gmap string Z))
    (query : string) (n_results : Z) :
  preprocess stopwords isalpha fit df lyrics_dict remove_stopwords
  = Ok (vars_dict, word_to_ix, uri_to_ix) →
  (∀ rows x, length (transform (fit rows) x) = length x) →
  (∀ row, row ∈ df → length (row_af row) = length AF_COLS) →
  (0 ≤ n_results < 2 ^ 60)%Z →
  let result :=
    main match_ strip_name str_strip str_lower sp_search sp_audio_features sp_track
         retrieve_lyrics query 0 n_results vars_dict true in
  (sp_audio_features query = None →
   result = Ok (NotFound "Song audio features not found on Spotify"))
  ∧ (∀ data k, sp_audio_features query = Some data →
               k ∈ AF_COLS → fd_values data !! k = None →
               result = Raise KeyError)
  ∧ (∀ data, sp_audio_features query = Some data →
             (∀ k, k ∈ AF_COLS → is_Some (fd_values data !! k)) →
             ∃ query_af output,
               result = Ok (Ranking query_af output
                                    (replicate (Z.to_nat n_results) (Fin 0)))
               ∧ af_uri query_af = fd_uri data
               ∧ (length output ≤ Z.to_nat n_results)%nat
               ∧ ∀ score song_data, (score, song_data) ∈ output →
                   ∃ row, row ∈ df ∧ row_song row = song_data
                          ∧ is_Some (lyrics_dict !! track_id song_data)).
Proof.
  intros Hpre Hfit Hrows [Hn _] result. unfold result, main, resolve_query.
  cbn [negb]. rewrite bind_Ok. cbv beta iota. split_and!.
  - intros Hnone. unfold get_audio_features. by rewrite Hnone.
  - intros data k Hdata Hk Hmiss. unfold get_audio_features. rewrite Hdata.
    by rewrite (select_columns_missing _ _ _ k Hk Hmiss).
  - intros data Hdata Hall. unfold get_audio_features. rewrite Hdata.
    destruct (select_columns (fd_values data) AF_COLS ∅ Hall) as (af & -> & Hlook).
    rewrite !bind_Ok. cbv beta iota.
    set (query_af := {| af_values := af; af_artist_name := _; af_track_name := _;
                        af_uri := fd_uri data |}).
    destruct (query_names strip_name str_strip str_lower None query_af)
      as [query_artist query_name].
    destruct (bundle_af_scores stopwords isalpha fit df lyrics_dict remove_stopwords
                vars_dict word_to_ix uri_to_ix query_af Hpre)
      as (scores & Haf & Hcov & Hsongs & _); [|done..|].
    { intros k Hk. simpl. rewrite Hlook, decide_True by done. by apply Hall. }
    destruct (audio_only_ranking match_ retrieve_lyrics query_af query query_artist
                query_name n_results vars_dict scores Haf Hcov Hn)
      as (output & Hok & Hlen & Hout).
    exists query_af, output. split_and!; [done..|].
    intros score song_data Hin.
    destruct (Hout _ _ Hin) as (uri & Hsd).
    destruct (Hsongs _ _ Hsd) as (row & ? & _ & ? & ?). by exists row.
Qed.

Lemma main_uri_audio_only_witness :
  let lyrics_dict : gmap string (gmap string Z) := {[ "s" := {[ "a" := 1%Z ]} ]} in
  let row := {| row_song := {| track_id := "s"; artist_name := "x";
                               track_name := "y" |};
                row_uri := "s"; row_af := replicate 12 0%R |} in
  let no_track := fun _ : string => {| tr_artists := []; tr_name := ""; tr_uri := "" |} in
  let all_zero := fun uri : string =>
    Some {| fd_values := list_to_map ((fun k => (k, 0%R)) <$> AF_COLS);
            fd_uri := uri |} in
  ∃ vars_dict word_to_ix uri_to_ix query_af output,
    preprocess ∅ (fun _ => true) (fun _ => {| transform := fun v => v |}) [row]
               lyrics_dict false
    = Ok (vars_dict, word_to_ix, uri_to_ix)
    ∧ main (fun _ _ => false) (fun s => s) (fun s => s) (fun s => s) (fun _ => [])
           all_zero no_track (fun _ _ => None) "q" 0 1 vars_dict true
      = Ok (Ranking query_af output (replicate (Z.to_nat 1) (Fin 0)))
    ∧ af_uri query_af = "q"
    ∧ (length output ≤ 1)%nat.
Proof.
  intros lyrics_dict row no_track all_zero.
  pose proof (preprocess_Ok ∅ (fun _ => true) (fun _ => {| transform := fun v => v |})
                [row] lyrics_dict false) as Hpre.
  cbv zeta in Hpre. specialize (Hpre ltac:(by vm_compute)).
  destruct (main_uri_audio_only _ _ _ _ _ _ _ _ _ (fun _ _ => false) (fun s => s)
              (fun s => s) (fun s => s) (fun _ => []) all_zero no_track
              (fun _ _ => None) "q" 1 Hpre) as (_ & _ & Hrank).
  - done.
  - intros r ->%list_elem_of_singleton. reflexivity.
  - split; [lia|reflexivity].
  - destruct (Hrank {| fd_values := list_to_map ((fun k => (k, 0%R)) <$> AF_COLS);
                        fd_uri := "q" |} eq_refl)
      as (query_af & output & Hok & Huri & Hlen & _).
    { rewrite <- Forall_forall. unfold AF_COLS.
      repeat (constructor; [by eexists|]). constructor. }
    eexists _, _, _, query_af, output. split; [exact Hpre|]. by split_and!.
Defined.

(** ** [main] with lyrics, on the bundle of [preprocess] *)

Lemma lyric_sims_collect_Ok (lyric_sim_scores : gmap string npfloat)
    (output : list (npfloat * song)) (init : list npfloat) :
  (∀ r, r ∈ output → is_Some (lyric_sim_scores !! track_id r.2)) →
  ∃ sims,
    for_each (fun acc '(_, d) =>
                s ← getitem lyric_sim_scores (track_id d); Ok (acc ++ [s]))
             output init = Ok (init ++ sims)
    ∧ length sims = length output.
Proof.
  revert init. induction output as [|[score d] output IH]; intros init Hall.
  - exists []. by rewrite app_nil_r.
  - destruct (Hall (score, d)) as [s Hs]; [by left|]. simpl in Hs.
    destruct (IH (init ++ [s])) as (sims & Hok & Hlen).
    { intros r Hr. apply Hall. by right. }
    exists (s :: sims). rewrite for_each_cons, (getitem_Some _ _ _ Hs).
    cbn [mbind res_bind]. rewrite Hok, <- app_assoc. split; [done|].
    simpl. by rewrite Hlen.
Qed.

(** The whole lyrical path never raises on the bundle of [preprocess]
    when the frame's URI column is its [track_id] column and every song
    with lyrics is a row of the frame: the lyrical scores are keyed by
    songs of [lyrics_dict], each of these has an audio score and a record,
    and the record's [track_id] is the key itself.  The result is a
    ranking of at most [n_results] songs with one lyrical score each. *)
Theorem preprocess_lyrics_query (stopwords : gset string) (isalpha : string → bool)
    (fit : list (list R) → StandardScaler)
    (df : list df_row) (lyrics_dict : gmap string (gmap string Z))
    (remove_stopwords : bool)
    (vars_dict : vars) (word_to_ix : gmap string nat) (uri_to_ix : gmap string Z)
    (match_ : string → string → bool)
    (retrieve_lyrics : string → string → option (gmap string Z))
    (query_af : audio_features) (query_uri query_artist query_name : string)
    (lyrics_weight : R) (n_results : Z) (query_lyrics_cnt : gmap string Z) :
  preprocess stopwords isalpha fit df lyrics_dict remove_stopwords
  = Ok (vars_dict, word_to_ix, uri_to_ix) →
  (∀ k, k ∈ AF_COLS → is_Some (af_values query_af !! k)) →
  (∀ rows x, length (transform (fit rows) x) = length x) →
  (∀ row, row ∈ df → length (row_af row) = length AF_COLS) →
  (∀ row, row ∈ df → row_uri row = track_id (row_song row)) →
  (∀ d, is_Some (lyrics_dict !! d) → ∃ row, row ∈ df ∧ track_id (row_song row) = d) →
  lyrics_weight ≠ 0%R →
  retrieve_lyrics query_artist query_name = Some query_lyrics_cnt →
  query_lyrics_cnt ≠ ∅ →
  ∃ output sorted_lyric_sims,
    main_scores match_ retrieve_lyrics query_af query_uri query_artist query_name
                lyrics_weight n_results vars_dict
    = Ok (Ranking query_af output sorted_lyric_sims)
    ∧ length sorted_lyric_sims = length output
    ∧ (length output ≤ Z.to_nat n_results)%nat.
Proof.
  intros Hpre Hfeat Hfit Hrows Huri Hframe Hw Hcnt Hne.
  destruct (bundle_lyric_scores _ _ _ _ _ _ _ _ _ query_lyrics_cnt Hpre)
    as (ls & Hls & Hlkeys).
  destruct (bundle_af_scores _ _ _ _ _ _ _ _ _ query_af Hpre Hfeat Hfit Hrows)
    as (af & Haf & Hcov & Hsongs & Hakeys).
  assert (Hlyr : ∀ d, is_Some (ls !! d) → is_Some (lyrics_dict !! d)).
  { intros d Hd%Hlkeys. apply (bundle_shares_token _ _ _ _ _ _ _ _ _ _ _ Hpre) in Hd.
    destruct Hd as (t & cnt & _ & Hd & _). by eexists. }
  assert (Hfa : ∀ d, is_Some (ls !! d) → is_Some (af !! d)).
  { intros d Hd. pose proof (Hlyr d Hd) as Hin.
    destruct (Hframe d Hin) as (row & Hrow & Hid). apply Hakeys. exists row.
    split_and!; [done| |by rewrite Hid]. by rewrite (Huri _ Hrow). }
  unfold main_scores. rewrite decide_False by done. rewrite Hcnt.
  rewrite decide_False by done. rewrite Hls, bind_Ok, Haf, bind_Ok.
  rewrite (fuse_covered _ _ _ Hfa), bind_Ok.
  set (avg := map_imap _ ls).
  assert (Havg : ∀ d, is_Some (avg !! d) → is_Some (ls !! d)).
  { intros d. unfold avg. rewrite map_lookup_imap.
    destruct (ls !! d); [by eexists|]. by intros [? ?]. }
  unfold rank.
  destruct (rank_loop_cases match_ (uri_to_song vars_dict) query_uri query_artist
              query_name n_results (sorted (map_to_list avg)))
    as [[Hall Hloop]|[(x & Hx & Hnone) _]].
  - rewrite Hloop, bind_Ok.
    set (output := omap _ (take _ _)).
    destruct (lyric_sims_collect_Ok ls output []) as (sims & Hsims & Hlen).
    { intros [score song_data] Hin. simpl.
      apply list_elem_of_omap in Hin as ([uri s] & Hx & He).
      unfold entry in He. simpl in He.
      destruct (uri_to_song vars_dict !! uri) as [sd|] eqn:Hsd; [simpl in He|done].
      destruct (keeps _ _ _ _ _ _); [|done]. injection He as -> ->.
      destruct (Hsongs _ _ Hsd) as (row & Hrow & Hu & Hs & _).
      rewrite <- Hs, <- (Huri _ Hrow), Hu. apply Havg.
      apply subseteq_take in Hx. rewrite sorted_Permutation in Hx.
      apply elem_of_map_to_list in Hx. by eexists. }
    rewrite Hsims, bind_Ok. exists output, sims. split_and!; [done..|].
    unfold output. etrans; [apply omap_length_le|]. rewrite length_take. lia.
  - exfalso. apply subseteq_take in Hx. rewrite sorted_Permutation in Hx.
    destruct x as [uri s]. apply elem_of_map_to_list in Hx.
    destruct (Hcov uri) as [sd Hsd]; [|simpl in Hnone; congruence].
    apply Hfa, Havg. by eexists.
Qed.

Lemma preprocess_lyrics_query_witness :
  let lyrics_dict : gmap string (gmap string Z) := {[ "s" := {[ "a" := 1%Z ]} ]} in
  let row := {| row_song := {| track_id := "s"; artist_name := "x";
                               track_name := "y" |};
                row_uri := "s"; row_af := replicate 12 0%R |} in
  let query_af :=
    {| af_values := list_to_map ((fun k => (k, 1%R)) <$> AF_COLS);
       af_artist_name := "a"; af_track_name := "t"; af_uri := "q" |} in
  ∃ vars_dict word_to_ix uri_to_ix output sorted_lyric_sims,
    preprocess ∅ (fun _ => true) (fun _ => {| transform := fun v => v |}) [row]
               lyrics_dict false
    = Ok (vars_dict, word_to_ix, uri_to_ix)
    ∧ main_scores (fun _ _ => false) (fun _ _ => Some {[ "a" := 2%Z ]}) query_af
                  "q" "a" "t" 1 5 vars_dict
      = Ok (Ranking query_af output sorted_lyric_sims)
    ∧ length sorted_lyric_sims = length output.
Proof.
  intros lyrics_dict row query_af.
  pose proof (preprocess_Ok ∅ (fun _ => true) (fun _ => {| transform := fun v => v |})
                [row] lyrics_dict false) as Hpre.
  cbv zeta in Hpre. specialize (Hpre ltac:(by vm_compute)).
  destruct (preprocess_lyrics_query _ _ _ _ _ _ _ _ _ (fun _ _ => false)
              (fun _ _ => Some {[ "a" := 2%Z ]}) query_af "q" "a" "t" 1 5
              {[ "a" := 2%Z ]} Hpre)
    as (output & sims & Hok & Hlen & _).
  - rewrite <- Forall_forall. unfold AF_COLS.
    repeat (constructor; [by eexists|]). constructor.
  - done.
  - intros r ->%list_elem_of_singleton. reflexivity.
  - intros r ->%list_elem_of_singleton. reflexivity.
  - intros d [cnt Hd]. apply lookup_singleton_Some in Hd as [<- _].
    exists row. split; [by left|done].
  - lra.
  - done.
  - apply insert_non_empty.
  - eexists _, _, _, output, sims. split; [exact Hpre|]. by split.
Defined.

(** The assumption on the frame is needed: a song that has lyrics and
    shares an indexed word with the query, but whose id is the URI of no
    row of the frame, has a lyrical score and no audio score, and [main]
    raises [KeyError] in the fusion. *)
Theorem preprocess_song_outside_frame (stopwords : gset string)
    (isalpha : string → bool) (fit : list (list R) → StandardScaler)
    (df : list df_row) (lyrics_dict : gmap string (gmap string Z))
    (remove_stopwords : bool)
    (vars_dict : vars) (word_to_ix : gmap string nat) (uri_to_ix : gmap string Z)
    (match_ : string → string → bool)
    (retrieve_lyrics : string → string → option (gmap string Z))
    (query_af : audio_features) (query_uri query_artist query_name : string)
    (lyrics_weight : R) (n_results : Z) (query_lyrics_cnt : gmap string Z)
    (d t : string) (cnt : gmap string Z) :
  preprocess stopwords isalpha fit df lyrics_dict remove_stopwords
  = Ok (vars_dict, word_to_ix, uri_to_ix) →
  (∀ k, k ∈ AF_COLS → is_Some (af_values query_af !! k)) →
  (∀ rows x, length (transform (fit rows) x) = length x) →
  (∀ row, row ∈ df → length (row_af row) = length AF_COLS) →
  lyrics_weight ≠ 0%R →
  retrieve_lyrics query_artist query_name = Some query_lyrics_cnt →
  query_lyrics_cnt ≠ ∅ →
  lyrics_dict !! d = Some cnt →
  is_Some (query_lyrics_cnt !! t) → is_Some (cnt !! t) →
  indexed stopwords isalpha remove_stopwords t = true →
  (∀ row, row ∈ df → row_uri row ≠ d) →
  ∃ lyric_sim_scores af_sim_scores,
    lyrics_sim query_lyrics_cnt (inv_idx vars_dict) (idf_dict vars_dict)
               (song_norms_dict vars_dict) = Ok lyric_sim_scores
    ∧ vars_af_sim vars_dict query_af = Ok af_sim_scores
    ∧ is_Some (lyric_sim_scores !! d)
    ∧ af_sim_scores !! d = None
    ∧ fuse lyrics_weight af_sim_scores lyric_sim_scores = Raise KeyError
    ∧ main_scores match_ retrieve_lyrics query_af query_uri query_artist query_name
                  lyrics_weight n_results vars_dict
      = Raise KeyError.
Proof.
  intros Hpre Hfeat Hfit Hrows Hw Hcnt Hne Hd Hqt Hdt Hk Hout.
  destruct (bundle_lyric_scores _ _ _ _ _ _ _ _ _ query_lyrics_cnt Hpre)
    as (ls & Hls & Hlkeys).
  destruct (bundle_af_scores _ _ _ _ _ _ _ _ _ query_af Hpre Hfeat Hfit Hrows)
    as (af & Haf & _ & _ & Hakeys).
  assert (Hld : is_Some (ls !! d)).
  { apply Hlkeys, (bundle_shares_token _ _ _ _ _ _ _ _ _ _ _ Hpre).
    by exists t, cnt. }
  assert (Had : af !! d = None).
  { destruct (af !! d) eqn:Hs; [|done]. exfalso.
    destruct (proj1 (Hakeys d)) as (row & Hrow & Hu & _); [by eexists|].
    by apply (Hout row). }
  exists ls, af. split_and!; [done..| |].
  - by apply (fuse_uncovered _ _ _ d).
  - unfold main_scores. rewrite decide_False by done. rewrite Hcnt.
    rewrite decide_False by done. rewrite Hls, bind_Ok, Haf, bind_Ok.
    by rewrite (fuse_uncovered _ _ _ d Hld Had).
Qed.

Lemma preprocess_song_outside_frame_witness :
  let lyrics_dict : gmap string (gmap string Z) :=
    {[ "r" := {[ "a" := 1%Z ]}; "s" := {[ "a" := 1%Z ]} ]} in
  let row := {| row_song := {| track_id := "r"; artist_name := "x";
                               track_name := "y" |};
                row_uri := "r"; row_af := replicate 12 0%R |} in
  let query_af :=
    {| af_values := list_to_map ((fun k => (k, 1%R)) <$> AF_COLS);
       af_artist_name := "a"; af_track_name := "t"; af_uri := "q" |} in
  ∃ vars_dict word_to_ix uri_to_ix lyric_sim_scores af_sim_scores,
    preprocess ∅ (fun _ => true) (fun _ => {| transform := fun v => v |}) [row]
               lyrics_dict false
    = Ok (vars_dict, word_to_ix, uri_to_ix)
    ∧ lyrics_sim {[ "a" := 2%Z ]} (inv_idx vars_dict) (idf_dict vars_dict)
                 (song_norms_dict vars_dict) = Ok lyric_sim_scores
    ∧ vars_af_sim vars_dict query_af = Ok af_sim_scores
    ∧ is_Some (lyric_sim_scores !! "s")
    ∧ af_sim_scores !! "s" = None
    ∧ main_scores (fun _ _ => false) (fun _ _ => Some {[ "a" := 2%Z ]}) query_af
                  "q" "a" "t" 1 5 vars_dict
      = Raise KeyError.
Proof.
  intros lyrics_dict row query_af.
  pose proof (preprocess_Ok ∅ (fun _ => true) (fun _ => {| transform := fun v => v |})
                [row] lyrics_dict false) as Hpre.
  cbv zeta in Hpre. specialize (Hpre ltac:(by vm_compute)).
  destruct (preprocess_song_outside_frame _ _ _ _ _ _ _ _ _ (fun _ _ => false)
              (fun _ _ => Some {[ "a" := 2%Z ]}) query_af "q" "a" "t" 1 5
              {[ "a" := 2%Z ]} "s" "a" {[ "a" := 1%Z ]} Hpre)
    as (ls & af & Hls & Haf & Hld & Had & _ & Hmain).
  - rewrite <- Forall_forall. unfold AF_COLS.
    repeat (constructor; [by eexists|]). constructor.
  - done.
  - intros r ->%list_elem_of_singleton. reflexivity.
  - lra.
  - done.
  - apply insert_non_empty.
  - reflexivity.
  - rewrite lookup_singleton_eq. by eexists.
  - rewrite lookup_singleton_eq. by eexists.
  - done.
  - by intros r ->%list_elem_of_singleton.
  - eexists _, _, _, ls, af. split; [exact Hpre|]. by split_and!.
Defined.
